(** * blame-lsp: the blame resolution and caching engine of [src/server.ts]

    A shallow embedding of the server's pure helpers (string handling, blame
    parsing, label formatting, remote normalisation, permalink building), of
    its [LruCache] class and of the handlers that thread the cache and the
    external effects, followed by the properties proved about them.

    Conventions of the embedding:
    - a JavaScript string is a [string]: a sequence of code units restricted
      to the range 0..255; the few symbols of the label that lie outside that
      range are written in UTF-8;
    - integral JavaScript numbers (seconds, milliseconds, line numbers,
      capacities) are [Z], exact at every size and printed in plain decimal;
      [Math.floor (a / b)] for positive [b] is [a / b]; numbers that are not
      integral stay abstract (see [Platform] and [number]);
    - [undefined] / [null] results are [None];
    - a JavaScript [Map] is an association list in insertion order;
    - a handler is a function on the state of the server that also records
      the effects it has on the outside; each handler runs to its end before
      the next one starts. *)

From Stdlib Require Import ZArith List Bool Ascii String Lia Sorted Permutation.
From Stdlib Require Import DecimalString DecimalZ DecimalPos.
Import ListNotations.

Open Scope string_scope.
Open Scope Z_scope.

(** ** Keys with a decidable equality (what a [Map] key needs) *)

Class EqKey (K : Type) := {
  key_eqb : K -> K -> bool;
  key_eqb_spec : forall a b, reflect (a = b) (key_eqb a b)
}.

#[global] Instance EqKey_string : EqKey string :=
  {| key_eqb := String.eqb; key_eqb_spec := String.eqb_spec |}.

(** ** [Map<K, V>]: insertion-ordered association list, oldest entry first *)

Section JsMap.
Context {K V : Type} `{EqKey K}.

Definition Map := list (K * V).

Fixpoint Map_get (m : Map) (k : K) : option V :=
  match m with
  | [] => None
  | (k', v) :: m' => if key_eqb k' k then Some v else Map_get m' k
  end.

Definition Map_has (m : Map) (k : K) : bool :=
  match Map_get m k with Some _ => true | None => false end.

Definition Map_delete (m : Map) (k : K) : Map :=
  filter (fun kv => negb (key_eqb (fst kv) k)) m.

(** [Map.prototype.set]: an existing key keeps its position. *)
Fixpoint Map_set (m : Map) (k : K) (v : V) : Map :=
  match m with
  | [] => [(k, v)]
  | (k', v') :: m' =>
      if key_eqb k' k then (k, v) :: m' else (k', v') :: Map_set m' k v
  end.

Definition Map_size (m : Map) : Z := Z.of_nat (List.length m).

Definition Map_keys (m : Map) : list K := map fst m.
End JsMap.

Arguments Map : clear implicits.

(** ** [class LruCache<K, V>] *)

Section LruCache.
Context {K V : Type} `{EqKey K}.

(** [get(key)]: a hit re-inserts the entry at the young end.  [V] does not
    contain [undefined], so [v === undefined] is exactly a miss. *)
Definition LruCache_get (m : Map K V) (key : K) : option V * Map K V :=
  match Map_get m key with
  | None => (None, m)
  | Some v => (Some v, Map_set (Map_delete m key) key v)
  end.

(** The eviction loop [while (size > max) delete(keys().next().value)].
    On an empty map [keys().next().value] is [undefined], nothing is
    deleted and the loop does not exit: that is the [None] below. *)
Fixpoint evict (max : Z) (m : Map K V) : option (Map K V) :=
  if Map_size m >? max then
    match m with
    | [] => None
    | (oldestKey, _) :: m' => evict max m'
    end
  else Some m.

Definition LruCache_set (max : Z) (m : Map K V) (key : K) (value : V)
  : option (Map K V) :=
  let m1 := if Map_has m key then Map_delete m key else m in
  evict max (Map_set m1 key value).

Definition LruCache_clear (m : Map K V) : Map K V := [].
End LruCache.

(** ** String builtins *)

Definition DQUOTE : ascii := "034"%char.
Definition LF : ascii := "010"%char.
Definition CR : ascii := "013"%char.

(** White space and line terminators of [String.prototype.trim] that are
    code units below 256: TAB, LF, VT, FF, CR, SP and NBSP. *)
Definition is_ws (c : ascii) : bool :=
  let n := nat_of_ascii c in
  (((9 <=? n) && (n <=? 13)) || (n =? 32) || (n =? 160))%nat.

Fixpoint trimStart (s : string) : string :=
  match s with
  | "" => ""
  | String c s' => if is_ws c then trimStart s' else s
  end.

Fixpoint trimEnd (s : string) : string :=
  match s with
  | "" => ""
  | String c s' =>
      match trimEnd s' with
      | "" => if is_ws c then "" else String c ""
      | t => String c t
      end
  end.

Definition trim (s : string) : string := trimEnd (trimStart s).

(** [s.startsWith(p)] *)
Fixpoint startsWith (s p : string) {struct p} : bool :=
  match p with
  | "" => true
  | String a p' =>
      match s with
      | String b s' => Ascii.eqb a b && startsWith s' p'
      | "" => false
      end
  end.

(** [s.slice(n)] for [0 <= n] *)
Fixpoint slice (n : nat) (s : string) : string :=
  match n, s with
  | O, _ => s
  | S n', String _ s' => slice n' s'
  | S _, "" => ""
  end.

(** [s.substring(0, n)] *)
Definition substring0 (n : nat) (s : string) : string := String.substring 0 n s.

(** [s.split(sep)] for a separator of one code unit; never the empty list. *)
Fixpoint split (sep : ascii) (s : string) : list string :=
  match s with
  | "" => [""]
  | String c s' =>
      if Ascii.eqb c sep then "" :: split sep s'
      else match split sep s' with
           | [] => [String c ""]
           | w :: ws => String c w :: ws
           end
  end.

(** [parts.join(sep)] *)
Definition join (sep : string) (parts : list string) : string :=
  String.concat sep parts.

(** [s.replace(/suffix$/, "")] for a literal suffix. *)
Fixpoint stripSuffix (suffix s : string) : string :=
  if String.eqb s suffix then ""
  else match s with
       | "" => ""
       | String c s' => String c (stripSuffix suffix s')
       end.

(** The longest prefix free of [stop], and what follows it. *)
Fixpoint break (stop : ascii) (s : string) : string * string :=
  match s with
  | "" => ("", "")
  | String c s' =>
      if Ascii.eqb c stop then ("", s)
      else let (a, b) := break stop s' in (String c a, b)
  end.

Fixpoint forallb_string (p : ascii -> bool) (s : string) : bool :=
  match s with
  | "" => true
  | String c s' => p c && forallb_string p s'
  end.

(** [free c s]: the code unit [c] does not occur in [s]. *)
Abbreviation free c s := (forallb_string (fun x => negb (Ascii.eqb x c)) s = true).

(** [ws_free s]: no white space occurs in [s]. *)
Abbreviation ws_free s := (forallb_string (fun x => negb (is_ws x)) s = true).

(** What [.] of a regular expression refuses: the line terminators. *)
Definition is_line_terminator (c : ascii) : bool :=
  Ascii.eqb c LF || Ascii.eqb c CR.

(** [one_line s]: no line terminator occurs in [s]. *)
Abbreviation one_line s :=
  (forallb_string (fun c => negb (is_line_terminator c)) s = true).

Definition hex_digit (upper : bool) (n : nat) : ascii :=
  if (n <? 10)%nat then ascii_of_nat (48 + n)
  else ascii_of_nat ((if upper then 55 else 87) + n).

Definition hex2 (upper : bool) (n : nat) : string :=
  String (hex_digit upper (n / 16)) (String (hex_digit upper (n mod 16)) "").

(** ** Numbers *)

(** [String(n)] / template interpolation of an integral number. *)
Definition Number_toString (z : Z) : string :=
  NilZero.string_of_int (Z.to_int z).

(** What [Number(text)] can return.  [Int] is an integer given in plain
    decimal; [Other] is any other literal accepted by the numeric string
    grammar (fraction, exponent, radix prefix, Infinity), whose value this
    model does not compute; [NaN] is everything the grammar rejects. *)
Inductive number :=
| Int (z : Z)
| NaN
| Other (lit : string).

Definition is_digit (c : ascii) : bool :=
  let n := nat_of_ascii c in ((48 <=? n) && (n <=? 57))%nat.

Definition is_hex_digit (c : ascii) : bool :=
  let n := nat_of_ascii c in
  (is_digit c || ((65 <=? n) && (n <=? 70)) || ((97 <=? n) && (n <=? 102)))%nat.

Definition is_octal_digit (c : ascii) : bool :=
  let n := nat_of_ascii c in ((48 <=? n) && (n <=? 55))%nat.

Definition is_binary_digit (c : ascii) : bool :=
  let n := nat_of_ascii c in ((48 <=? n) && (n <=? 49))%nat.

Fixpoint span (p : ascii -> bool) (s : string) : string * string :=
  match s with
  | "" => ("", "")
  | String c s' =>
      if p c then let (a, b) := span p s' in (String c a, b) else ("", s)
  end.

Definition nonempty (s : string) : bool := negb (String.eqb s "").

Definition strip_sign (s : string) : string :=
  match s with
  | String c s' => if Ascii.eqb c "+" || Ascii.eqb c "-" then s' else s
  | "" => ""
  end.

(** ExponentPart, or nothing. *)
Definition is_exponent_opt (s : string) : bool :=
  match s with
  | "" => true
  | String c s' =>
      (Ascii.eqb c "e" || Ascii.eqb c "E")
      && nonempty (strip_sign s') && forallb_string is_digit (strip_sign s')
  end.

(** StrUnsignedDecimalLiteral *)
Definition is_unsigned_decimal (s : string) : bool :=
  if String.eqb s "Infinity" then true
  else
    let (d1, r1) := span is_digit s in
    match r1 with
    | String "." r2 =>
        let (d2, r3) := span is_digit r2 in
        (nonempty d1 || nonempty d2) && is_exponent_opt r3
    | _ => nonempty d1 && is_exponent_opt r1
    end.

(** NonDecimalIntegerLiteral: [0x], [0o], [0b] forms, no sign. *)
Definition is_radix_literal (s : string) : bool :=
  match s with
  | String "0" (String c s') =>
      nonempty s'
      && (if Ascii.eqb c "x" || Ascii.eqb c "X" then forallb_string is_hex_digit s'
          else if Ascii.eqb c "o" || Ascii.eqb c "O" then forallb_string is_octal_digit s'
          else if Ascii.eqb c "b" || Ascii.eqb c "B" then forallb_string is_binary_digit s'
          else false)
  | _ => false
  end.

(** [Number(text)] *)
Definition Number (text : string) : number :=
  let s := trim text in
  if String.eqb s "" then Int 0
  else
    let body :=
      if startsWith s "+" && negb (startsWith s "+-") then slice 1 s else s in
    match NilZero.int_of_string body with
    | Some d => Int (Z.of_int d)
    | None =>
        if is_unsigned_decimal (strip_sign s) || is_radix_literal s
        then Other s else NaN
    end.

Definition Number_isNaN (n : number) : bool :=
  match n with NaN => true | _ => false end.

(** ** [JSON.stringify] and [encodeURIComponent] on strings *)

Definition BACKSLASH : ascii := "092"%char.

Definition JSON_escape_unit (c : ascii) : string :=
  let n := nat_of_ascii c in
  if Ascii.eqb c DQUOTE then String BACKSLASH (String DQUOTE "")
  else if Ascii.eqb c BACKSLASH then String BACKSLASH (String BACKSLASH "")
  else if (n =? 8)%nat then String BACKSLASH "b"
  else if (n =? 9)%nat then String BACKSLASH "t"
  else if (n =? 10)%nat then String BACKSLASH "n"
  else if (n =? 12)%nat then String BACKSLASH "f"
  else if (n =? 13)%nat then String BACKSLASH "r"
  else if (n <? 32)%nat then String BACKSLASH ("u00" ++ hex2 false n)
  else String c "".

Fixpoint JSON_escape (s : string) : string :=
  match s with
  | "" => ""
  | String c s' => JSON_escape_unit c ++ JSON_escape s'
  end.

(** [JSON.stringify(s)] for a string [s] *)
Definition JSON_string (s : string) : string :=
  String DQUOTE (JSON_escape s ++ String DQUOTE "").

Definition is_unreserved (c : ascii) : bool :=
  let n := nat_of_ascii c in
  (is_digit c || ((65 <=? n) && (n <=? 90)) || ((97 <=? n) && (n <=? 122)))%nat
  || existsb (Ascii.eqb c)
       ["-"; "_"; "."; "!"; "~"; "*"; "'"; "("; ")"]%char.

(** One code unit below 256, percent-encoded through UTF-8. *)
Definition encodeURIComponent_unit (c : ascii) : string :=
  let n := nat_of_ascii c in
  if is_unreserved c then String c ""
  else if (n <? 128)%nat then "%" ++ hex2 true n
  else if (n <? 192)%nat then "%C2%" ++ hex2 true n
  else "%C3%" ++ hex2 true (n - 64).

Fixpoint encodeURIComponent (s : string) : string :=
  match s with
  | "" => ""
  | String c s' => encodeURIComponent_unit c ++ encodeURIComponent s'
  end.

(** ** The platform *)

(** Builtins of the runtime that the server calls and the model keeps
    abstract: the numbers of [fs.Stats] with their [JSON.stringify] text
    (which, being the text of a JSON number or [null], has no double quote);
    the phrase of [relativeFromUnixSeconds] at a time that [Number] read from
    a literal other than a plain integer; [new URL(uri).protocol] ([None]
    when the constructor throws, as it does on the empty string);
    [fileURLToPath] ([None] when it throws); and [node:path]. *)
Class Platform := {
  double : Type;
  JSON_number : double -> string;
  JSON_number_unquoted :
    forall d, forallb_string (fun c => negb (Ascii.eqb c DQUOTE)) (JSON_number d) = true;
  relativeFromOther : string -> Z -> string;
  URL_protocol : string -> option string;
  URL_protocol_empty : URL_protocol "" = None;
  fileURLToPath : string -> option string;
  path_dirname : string -> string;
  path_relative : string -> string -> string;
  path_sep : ascii
}.

(** ** The attribution record *)

Record BlameInfo := {
  commit : string;
  author : option string;
  authorTime : option number;
  summary : option string
}.

(** ** Relative time *)

Definition plural (n : Z) : string := if n >? 1 then "s" else "".

Definition relativeFromUnixSeconds (sec nowMs : Z) : string :=
  let diffSec := Z.max 0 ((nowMs - sec * 1000) / 1000) in
  if diffSec <? 10 then "just now"
  else if diffSec <? 60
  then Number_toString diffSec ++ " sec" ++ plural diffSec ++ " ago"
  else
    let mins := diffSec / 60 in
    if mins <? 60 then Number_toString mins ++ " min" ++ plural mins ++ " ago"
    else
      let hours := mins / 60 in
      if hours <? 24
      then Number_toString hours ++ " hour" ++ plural hours ++ " ago"
      else
        let days := hours / 24 in
        if days <? 30
        then Number_toString days ++ " day" ++ plural days ++ " ago"
        else
          let months := days / 30 in
          if months <? 12
          then Number_toString months ++ " month" ++ plural months ++ " ago"
          else
            let years := days / 365 in
            Number_toString years ++ " year" ++ plural years ++ " ago".

(** [relativeFromUnixSeconds] at the values [authorTime] can hold.  With
    [NaN] every comparison of the function is false and its last line prints
    the count [NaN]. *)
Definition relativeFromNumber {P : Platform} (sec : number) (nowMs : Z) : string :=
  match sec with
  | Int z => relativeFromUnixSeconds z nowMs
  | NaN => "NaN year ago"
  | Other lit => relativeFromOther lit nowMs
  end.

(** ** The blame parser *)

Definition set_author (info : BlameInfo) (a : string) : BlameInfo :=
  {| commit := commit info; author := Some a;
     authorTime := authorTime info; summary := summary info |}.

Definition set_authorTime (info : BlameInfo) (n : number) : BlameInfo :=
  {| commit := commit info; author := author info;
     authorTime := Some n; summary := summary info |}.

Definition set_summary (info : BlameInfo) (s : string) : BlameInfo :=
  {| commit := commit info; author := author info;
     authorTime := authorTime info; summary := Some s |}.

(** The body of the [for (const line of lines)] loop. *)
Definition parseLine (info : BlameInfo) (line : string) : BlameInfo :=
  if startsWith line "author " then
    set_author info (trim (slice (String.length "author ") line))
  else if startsWith line "author-time " then
    let n := Number (trim (slice (String.length "author-time ") line)) in
    if negb (Number_isNaN n) then set_authorTime info n else info
  else if startsWith line "summary " then
    set_summary info (trim (slice (String.length "summary ") line))
  else info.

(** A line that the loop passes over. *)
Definition unrecognised (line : string) : bool :=
  negb (startsWith line "author ") && negb (startsWith line "author-time ")
  && negb (startsWith line "summary ").

Definition parseBlamePorcelain (porcelain : string) : option BlameInfo :=
  let lines := split LF porcelain in
  let first := trim (hd "" lines) in
  if String.eqb first "" then None
  else
    let commit := hd "" (split " " first) in
    if String.eqb commit "" then None
    else
      Some (fold_left parseLine lines
              {| commit := commit; author := None;
                 authorTime := None; summary := None |}).

(** ** The label formatter *)

Definition ELLIPSIS : string := "…".

Definition maxLen : nat := 60.

(** The [message] constant of [formatBlameLabel]. *)
Definition labelMessage (summary : string) : string :=
  if (maxLen <? String.length summary)%nat
  then substring0 80 summary ++ ELLIPSIS
  else summary.

(** [nowMs] is the [Date.now()] read by [relativeFromUnixSeconds]. *)
Definition formatBlameLabel {P : Platform} (info : BlameInfo) (nowMs : Z) : string :=
  let author := match author info with Some a => a | None => "Unknown author" end in
  let summary := match summary info with Some s => s | None => "" end in
  let message := labelMessage summary in
  let when :=
    match authorTime info with
    | Some n => relativeFromNumber n nowMs
    | None => "unknown date"
    end in
  "⎇ " ++ author ++ ", " ++ when ++ " · " ++ message ++ " ↗".

(** ** Remote normalisation and the permalink *)

(** [r.match(/^git@([^:]+):(.+)$/)]: the two groups. *)
Definition match_scpLike (r : string) : option (string * string) :=
  if startsWith r "git@" then
    let (host, rest) := break ":" (slice 4 r) in
    match rest with
    | String _ path =>
        if nonempty host && nonempty path
           && forallb_string (fun c => negb (is_line_terminator c)) path
        then Some (host, path) else None
    | "" => None
    end
  else None.

(** [r.match(/^ssh:\/\/git@([^/]+)\/(.+)$/)]: the two groups. *)
Definition match_sshLike (r : string) : option (string * string) :=
  if startsWith r "ssh://git@" then
    let (host, rest) := break "/" (slice 10 r) in
    match rest with
    | String _ path =>
        if nonempty host && nonempty path
           && forallb_string (fun c => negb (is_line_terminator c)) path
        then Some (host, path) else None
    | "" => None
    end
  else None.

Definition normaliseRemoteToHttps (remote : string) : option string :=
  let r := stripSuffix ".git" (trim remote) in
  if startsWith r "http://" || startsWith r "https://" then Some r
  else
    match match_scpLike r with
    | Some (host, path) => Some ("https://" ++ host ++ "/" ++ path)
    | None =>
        match match_sshLike r with
        | Some (host, path) => Some ("https://" ++ host ++ "/" ++ path)
        | None => None
        end
    end.

(** [sep] is [path.sep] of the platform. *)
Definition buildFileUrl (sep : ascii)
    (remoteHttps relPath commit : string) (oneBasedLine : Z) : string :=
  let base := stripSuffix "/" remoteHttps in
  let p := join "/" (split sep relPath) in
  let encPath := join "/" (map encodeURIComponent (split "/" p)) in
  base ++ "/blob/" ++ encodeURIComponent commit ++ "/" ++ encPath
       ++ "#L" ++ Number_toString oneBasedLine.

(** ** The outside world *)

(** What the server can observe or cause outside itself. *)
Inductive effect :=
| ExecGit (args : list string)
| FsStat (path : string)
| ShowDocument (uri : string)
| ShowWarning (message : string)
| ShowInformation (message : string).

Section Server.
Context {P : Platform}.

(** The answers of the outside world while one request is served:
    [git args] is the standard output of [execFile("git", args)], [None]
    when the promise rejects; [fs_stat] gives [mtimeMs] and [size];
    [showDocument] tells whether the client answers the request;
    [document_open] tells whether [documents.get] knows the URI; [now] is
    [Date.now()]. *)
Record World := {
  git : list string -> option string;
  fs_stat : string -> option (double * double);
  showDocument : string -> bool;
  document_open : string -> bool;
  now : Z
}.

(** The process-wide state: the cache, and the effects so far. *)
Record Server := {
  lineCache : Map string (option BlameInfo);
  trace : list effect
}.

Definition lineCache_max : Z := 800.

(** State passing; [None] stands for a computation that does not return. *)
Definition M (A : Type) : Type := Server -> option (A * Server).

Definition ret {A} (a : A) : M A := fun s => Some (a, s).

Definition bind {A B} (m : M A) (f : A -> M B) : M B :=
  fun s => match m s with
           | Some (a, s') => f a s'
           | None => None
           end.

Definition emit (e : effect) : M unit :=
  fun s => Some (tt, {| lineCache := lineCache s; trace := (trace s ++ [e])%list |}).

Definition lineCache_get (key : string) : M (option (option BlameInfo)) :=
  fun s => let (v, m) := LruCache_get (lineCache s) key in
           Some (v, {| lineCache := m; trace := trace s |}).

Definition lineCache_set (key : string) (value : option BlameInfo) : M unit :=
  fun s => match LruCache_set lineCache_max (lineCache s) key value with
           | Some m => Some (tt, {| lineCache := m; trace := trace s |})
           | None => None
           end.

Definition lineCache_clear : M unit :=
  fun s => Some (tt, {| lineCache := LruCache_clear (lineCache s); trace := trace s |}).
End Server.

Notation "x <- m ;; k" := (bind m (fun x => k))
  (at level 61, m at next level, right associativity).
Notation "m ;;; k" := (bind m (fun _ => k))
  (at level 61, right associativity).

Section Handlers.
Context {P : Platform}.

(** [stdout.trim() || null] *)
Definition trimmed_or_null (stdout : string) : option string :=
  let t := trim stdout in if String.eqb t "" then None else Some t.

Definition execFileAsync (w : World) (args : list string) : M (option string) :=
  emit (ExecGit args) ;;; ret (git w args).

Definition uriToFsPath (uri : string) : option string :=
  match URL_protocol uri with
  | Some protocol =>
      if negb (String.eqb protocol "file:") then None else fileURLToPath uri
  | None => None
  end.

Definition gitRootForFile (w : World) (filePath : string) : M (option string) :=
  out <- execFileAsync w
           ["-C"; path_dirname filePath; "rev-parse"; "--show-toplevel"] ;;
  ret (match out with
       | Some stdout => trimmed_or_null stdout
       | None => None
       end).

Definition gitHead (w : World) (root : string) : M (option string) :=
  out <- execFileAsync w ["-C"; root; "rev-parse"; "HEAD"] ;;
  ret (match out with
       | Some stdout => trimmed_or_null stdout
       | None => None
       end).

Definition quoted (name : string) : string :=
  String DQUOTE (name ++ String DQUOTE "").

(** [JSON.stringify({ head, mtimeMs: st?.mtimeMs ?? null, size: st?.size ?? null })] *)
Definition volatilityToken (head : option string) (st : option (double * double))
  : string :=
  "{" ++ quoted "head" ++ ":"
      ++ match head with Some h => JSON_string h | None => "null" end
      ++ "," ++ quoted "mtimeMs" ++ ":"
      ++ match st with Some (mtimeMs, _) => JSON_number mtimeMs | None => "null" end
      ++ "," ++ quoted "size" ++ ":"
      ++ match st with Some (_, size) => JSON_number size | None => "null" end
      ++ "}".

Record Key := { root : string; rel : string; key : string }.

Definition computeKey (w : World) (filePath : string) : M (option Key) :=
  r <- gitRootForFile w filePath ;;
  match r with
  | None => ret None
  | Some root =>
      head <- gitHead w root ;;
      emit (FsStat filePath) ;;;
      let st := fs_stat w filePath in
      let rel := path_relative root filePath in
      ret (Some {| root := root; rel := rel; key := volatilityToken head st |})
  end.

Definition blameArgs (root rel : string) (oneBasedLine : Z) : list string :=
  ["-C"; root; "blame"; "--porcelain"; "-L";
   Number_toString oneBasedLine ++ "," ++ Number_toString oneBasedLine;
   "--"; rel].

Definition blameSingleLineUncached (w : World) (root rel : string)
    (oneBasedLine : Z) : M (option BlameInfo) :=
  out <- execFileAsync w (blameArgs root rel oneBasedLine) ;;
  ret (match out with
       | Some stdout => parseBlamePorcelain stdout
       | None => None
       end).

Definition cacheKeyOf (filePath : string) (oneBasedLine : Z) (token : string)
  : string :=
  filePath ++ "::" ++ Number_toString oneBasedLine ++ "::" ++ token.

Definition blameSingleLineCached (w : World) (filePath : string)
    (oneBasedLine : Z) : M (option BlameInfo) :=
  ck <- computeKey w filePath ;;
  match ck with
  | None => ret None
  | Some ck =>
      let cacheKey := cacheKeyOf filePath oneBasedLine (key ck) in
      cached <- lineCache_get cacheKey ;;
      match cached with
      | Some hit => ret hit
      | None =>
          info <- blameSingleLineUncached w (root ck) (rel ck) oneBasedLine ;;
          lineCache_set cacheKey info ;;;
          ret info
      end
  end.




(** A series of blame queries, each in the world of its moment. *)
Fixpoint blameQueries (queries : list (World * string * Z)) : M unit :=
  match queries with
  | [] => ret tt
  | (w, filePath, oneBasedLine) :: rest =>
      blameSingleLineCached w filePath oneBasedLine ;;; blameQueries rest
  end.

Definition getOriginRemote (w : World) (root : string) : M (option string) :=
  out <- execFileAsync w ["-C"; root; "remote"; "get-url"; "origin"] ;;
  ret (match out with
       | Some stdout => trimmed_or_null stdout
       | None => None
       end).

Definition openUrlOrShow (w : World) (url : string) : M unit :=
  emit (ShowDocument url) ;;;
  if showDocument w url then ret tt
  else emit (ShowInformation ("Open: " ++ url)).

(** [documents.onDidSave] *)
Definition onDidSave : M unit := lineCache_clear.

Definition CMD_OPEN : string := "blame-lsp.openRemoteForLine".

(** [params.command] and the first two of [params.arguments], each [None]
    when it is missing. *)
Record ExecuteCommandParams := {
  command : string;
  arg_uri : option string;
  arg_line : option Z
}.

(** A code action: its title, and the command it carries (whose title is
    the same; the kind is always [QuickFix]). *)
Record CodeAction := {
  title : string;
  action_command : ExecuteCommandParams
}.

(** [connection.onCodeAction], given [params.textDocument.uri] and
    [params.range.start.line]; [documents.get(uri)] is a document whose
    [uri] is the one asked for. *)
Definition onCodeAction (w : World) (uri : string) (startLine : Z)
  : M (list CodeAction) :=
  if negb (document_open w uri) then ret []
  else
    match uriToFsPath uri with
    | None => ret []
    | Some filePath =>
        let oneBasedLine := startLine + 1 in
        info <- blameSingleLineCached w filePath oneBasedLine ;;
        match info with
        | None => ret []
        | Some info =>
            let title := formatBlameLabel info (now w) in
            ret [ {| title := title;
                     action_command :=
                       {| command := CMD_OPEN; arg_uri := Some uri;
                          arg_line := Some oneBasedLine |} |} ]
        end
    end.

Definition onExecuteCommand (w : World) (params : ExecuteCommandParams) : M unit :=
  if negb (String.eqb (command params) CMD_OPEN) then ret tt
  else
    match arg_uri params, arg_line params with
    | Some uri, Some oneBasedLine =>
        if String.eqb uri "" || (oneBasedLine =? 0) then ret tt
        else
          match uriToFsPath uri with
          | None => ret tt
          | Some filePath =>
              ck <- computeKey w filePath ;;
              match ck with
              | None => emit (ShowWarning "Not in a git repo (or git not available).")
              | Some ck =>
                  remote <- getOriginRemote w (root ck) ;;
                  info <- blameSingleLineCached w filePath oneBasedLine ;;
                  match remote, info with
                  | None, _ => emit (ShowWarning "No 'origin' remote found.")
                  | Some _, None => emit (ShowWarning "No blame info for that line.")
                  | Some remote, Some info =>
                      match normaliseRemoteToHttps remote with
                      | None => emit (ShowWarning ("Unsupported remote URL: " ++ remote))
                      | Some remoteHttps =>
                          openUrlOrShow w
                            (buildFileUrl path_sep remoteHttps (rel ck)
                               (commit info) oneBasedLine)
                      end
                  end
              end
          end
    | _, _ => ret tt
    end.
End Handlers.

(** ** Histories of cache operations *)

Section CacheHistory.
Context {K V : Type} `{EqKey K}.

Inductive cache_op :=
| OpGet (k : K)
| OpSet (k : K) (v : V).

Definition op_key (o : cache_op) : K :=
  match o with OpGet k => k | OpSet k _ => k end.

Definition step (max : Z) (m : Map K V) (o : cache_op) : option (Map K V) :=
  match o with
  | OpGet k => Some (snd (LruCache_get m k))
  | OpSet k v => LruCache_set max m k v
  end.

(** The cache after a sequence of calls, oldest call first. *)
Fixpoint run (max : Z) (m : Map K V) (ops : list cache_op) : option (Map K V) :=
  match ops with
  | [] => Some m
  | o :: ops' =>
      match step max m o with
      | Some m' => run max m' ops'
      | None => None
      end
  end.

(** The position, counted from [t], of the last call on key [k]. *)
Fixpoint last_access_from (t : nat) (ops : list cache_op) (k : K) : option nat :=
  match ops with
  | [] => None
  | o :: ops' =>
      match last_access_from (S t) ops' k with
      | Some t' => Some t'
      | None => if key_eqb (op_key o) k then Some t else None
      end
  end.

Definition last_access (ops : list cache_op) (k : K) : option nat :=
  last_access_from 0 ops k.

(** Both keys were accessed, and [k]'s last access is the earlier one. *)
Definition accessed_before (ops : list cache_op) (k k' : K) : Prop :=
  exists t t', last_access ops k = Some t /\ last_access ops k' = Some t'
               /\ (t < t')%nat.

(** The entries of [m] are all accessed in [ops], and stand in the order of
    their last accesses, the longest idle first. *)
Definition recency_ordered (ops : list cache_op) (m : Map K V) : Prop :=
  Forall (fun kv => exists t, last_access ops (fst kv) = Some t) m
  /\ StronglySorted (fun a b => accessed_before ops (fst a) (fst b)) m.

(** Key [k] holds [v], with at most [n] entries younger than it. *)
Definition held (m : Map K V) (k : K) (v : V) (n : nat) : Prop :=
  exists older younger,
    m = (older ++ (k, v) :: younger)%list
    /\ ~ In k (Map_keys older) /\ (List.length younger <= n)%nat.
End CacheHistory.

Arguments cache_op : clear implicits.

(** ** Observing a run of the server *)

Section Observations.
Context {P : Platform}.

(** The server as it starts. *)
Definition fresh : Server := {| lineCache := []; trace := [] |}.

Definition is_blame (e : effect) : bool :=
  match e with
  | ExecGit (_ :: _ :: verb :: _) => String.eqb verb "blame"
  | _ => false
  end.

(** How many times [git blame] was run. *)
Definition blame_invocations (tr : list effect) : nat :=
  List.length (filter is_blame tr).

Definition warnings (tr : list effect) : list string :=
  flat_map (fun e => match e with ShowWarning m => [m] | _ => [] end) tr.

Definition open_requests (tr : list effect) : list string :=
  flat_map (fun e => match e with ShowDocument u => [u] | _ => [] end) tr.

(** What [computeKey] returns in a world, and the effects it has there;
    neither depends on the state of the server. *)
Definition keyOf (w : World) (filePath : string) : option Key :=
  match computeKey w filePath fresh with
  | Some (ck, _) => ck
  | None => None
  end.

Definition computeKey_effects (w : World) (filePath : string) : list effect :=
  match computeKey w filePath fresh with
  | Some (_, s) => trace s
  | None => []
  end.

(** What [getOriginRemote] returns in a world. *)
Definition remoteOf (w : World) (ck : Key) : option string :=
  match git w ["-C"; root ck; "remote"; "get-url"; "origin"] with
  | Some stdout => trimmed_or_null stdout
  | None => None
  end.

(** What [blameSingleLineUncached] returns in a world. *)
Definition blameOf (w : World) (ck : Key) (oneBasedLine : Z) : option BlameInfo :=
  match git w (blameArgs (root ck) (rel ck) oneBasedLine) with
  | Some stdout => parseBlamePorcelain stdout
  | None => None
  end.
End Observations.

(** ** Looking for the head of a token inside a string *)

(** A scanner for the three code units that open a volatility token, an
    opening brace, a double quote and [h]: the state counts how many of them
    have just been read, and 3 is kept once reached. *)
Definition scan_step (q : nat) (c : ascii) : nat :=
  match q with
  | 3%nat => 3%nat
  | _ =>
      if Ascii.eqb c "{" then 1%nat
      else if (q =? 1)%nat && Ascii.eqb c DQUOTE then 2%nat
      else if (q =? 2)%nat && Ascii.eqb c "h" then 3%nat
      else 0%nat
  end.

Fixpoint scan (q : nat) (s : string) : nat :=
  match s with
  | "" => q
  | String c s' => scan (scan_step q c) s'
  end.

(** ** An example platform and world *)

Definition example_platform : Platform := {|
  double := unit;
  JSON_number := fun _ => "0";
  JSON_number_unquoted := fun _ => eq_refl;
  relativeFromOther := fun _ _ => "some time ago";
  URL_protocol := fun uri => if startsWith uri "file://" then Some "file:" else None;
  URL_protocol_empty := eq_refl;
  fileURLToPath := fun uri => Some (slice 7 uri);
  path_dirname := fun p => "/repo";
  path_relative := fun root p => slice (S (String.length root)) p;
  path_sep := "/"
|}.

(** A repository at [/repo] on revision [0123abcd], whose line 3 of every
    file is the only one with an attribution, and no remote. *)
Definition example_world : @World example_platform := {|
  git := fun args =>
    match args with
    | [_; _; "rev-parse"; "--show-toplevel"] => Some "/repo"
    | [_; _; "rev-parse"; "HEAD"] => Some "0123abcd"
    | [_; _; "blame"; _; _; "3,3"; _; _] =>
        Some ("0123abcd 3 3 1" ++ String LF "author Ada")
    | _ => None
    end;
  fs_stat := fun _ => Some (tt : @double example_platform, tt : @double example_platform);
  showDocument := fun _ => true;
  document_open := fun _ => true;
  now := 1700000000000
|}.

(** The same repository with an SCP-like remote. *)
Definition example_world_with_remote : @World example_platform := {|
  git := fun args =>
    match args with
    | [_; _; "remote"; "get-url"; "origin"] =>
        Some ("git@github.com:org/repo.git" ++ String LF "")
    | _ => git example_world args
    end;
  fs_stat := fs_stat example_world;
  showDocument := showDocument example_world;
  document_open := document_open example_world;
  now := now example_world
|}.

(** ** Further functions of the server *)

(** [shortHash] *)
Definition shortHash (full : string) : string := substring0 7 full.

(** [TextDocumentSyncKind] *)
Inductive TextDocumentSyncKind := SyncNone | SyncFull | SyncIncremental.

(** The capabilities of [InitializeResult] that the server fills in. *)
Record ServerCapabilities := {
  codeActionProvider : bool;
  executeCommandProvider_commands : list string;
  textDocumentSync : TextDocumentSyncKind
}.

(** [connection.onInitialize] *)
Definition onInitialize : ServerCapabilities :=
  {| codeActionProvider := true;
     executeCommandProvider_commands := [CMD_OPEN];
     textDocumentSync := SyncIncremental |}.

(** ** Requests *)

Section Requests.
Context {P : Platform}.

(** What the connection can hand to the server, each with the world of its
    moment. *)
Inductive request :=
| CodeActionRequest (w : World) (uri : string) (startLine : Z)
| ExecuteCommandRequest (w : World) (params : ExecuteCommandParams)
| DidSaveNotification.

Definition handle (r : request) : M unit :=
  match r with
  | CodeActionRequest w uri startLine => onCodeAction w uri startLine ;;; ret tt
  | ExecuteCommandRequest w params => onExecuteCommand w params
  | DidSaveNotification => onDidSave
  end.

(** The requests of a session, served one after the other. *)
Fixpoint serve (requests : list request) : M unit :=
  match requests with
  | [] => ret tt
  | r :: rest => handle r ;;; serve rest
  end.
End Requests.

(** ** Further observations *)

Definition informations (tr : list effect) : list string :=
  flat_map (fun e => match e with ShowInformation m => [m] | _ => [] end) tr.

(** The three git commands that only read: [rev-parse], [blame] and
    [remote get-url], each after [-C <directory>]. *)
Definition read_only_git (args : list string) : bool :=
  match args with
  | flag :: _ :: verb :: rest =>
      String.eqb flag "-C"
      && (String.eqb verb "rev-parse" || String.eqb verb "blame"
          || (String.eqb verb "remote"
              && match rest with
                 | sub :: _ => String.eqb sub "get-url"
                 | [] => false
                 end))
  | _ => false
  end.

Definition reads_only (e : effect) : bool :=
  match e with
  | ExecGit args => read_only_git args
  | _ => true
  end.

(** A state of the server within the capacity of its cache, whose git
    commands so far only read. *)
Definition sound (s : Server) : Prop :=
  Map_size (lineCache s) <= lineCache_max
  /\ Forall (fun e => reads_only e = true) (trace s).

(** ** Reading back what was encoded *)

Definition hex_value (c : ascii) : nat :=
  let n := nat_of_ascii c in
  if is_digit c then (n - 48)%nat
  else if ((65 <=? n) && (n <=? 70))%nat then (n - 55)%nat
  else if ((97 <=? n) && (n <=? 102))%nat then (n - 87)%nat
  else 0%nat.

(** The code units that [encodeURIComponent] encoded: a percent sign opens
    two hexadecimal digits, and a byte from 128 on opens a UTF-8 sequence of
    two bytes. *)
Fixpoint percent_decode (s : string) : string :=
  match s with
  | "" => ""
  | String c t =>
      if Ascii.eqb c "%" then
        match t with
        | String a (String b t') =>
            let n := (16 * hex_value a + hex_value b)%nat in
            if (n <? 128)%nat then String (ascii_of_nat n) (percent_decode t')
            else
              match t' with
              | String _ (String a' (String b' t'')) =>
                  let n' := (16 * hex_value a' + hex_value b')%nat in
                  String (ascii_of_nat ((n - 192) * 64 + (n' - 128)))
                         (percent_decode t'')
              | _ => ""
              end
        | _ => ""
        end
      else String c (percent_decode t)
  end.

Definition push (c : ascii) (r : option (string * string)) : option (string * string) :=
  match r with
  | Some (read, rest) => Some (String c read, rest)
  | None => None
  end.

Definition JSON_unescape_letter (e : ascii) : ascii :=
  if Ascii.eqb e "b" then "008"%char
  else if Ascii.eqb e "t" then "009"%char
  else if Ascii.eqb e "n" then "010"%char
  else if Ascii.eqb e "f" then "012"%char
  else if Ascii.eqb e "r" then "013"%char
  else e.

(** The string whose escaped text stands before the first double quote
    that is not escaped, and what follows that quote. *)
Fixpoint JSON_read (s : string) : option (string * string) :=
  match s with
  | "" => None
  | String c t =>
      if Ascii.eqb c DQUOTE then Some ("", t)
      else if Ascii.eqb c BACKSLASH then
        match t with
        | String e t' =>
            if Ascii.eqb e "u" then
              match t' with
              | String _ (String _ (String a (String b t''))) =>
                  push (ascii_of_nat (16 * hex_value a + hex_value b)) (JSON_read t'')
              | _ => None
              end
            else push (JSON_unescape_letter e) (JSON_read t')
        | "" => None
        end
      else push c (JSON_read t)
  end.

(* ================================================================= *)
(** * Properties *)

(** ** The map and the cache *)

Section CacheFacts.
Context {K V : Type} `{EqKey K}.
Local Open Scope list_scope.
Implicit Types (m : Map K V) (k : K) (v : V).

Lemma key_eqb_refl k : key_eqb k k = true.
Proof. destruct (key_eqb_spec k k); congruence. Qed.

Lemma key_eqb_neq k k' : k <> k' -> key_eqb k k' = false.
Proof. intros; destruct (key_eqb_spec k k'); congruence. Qed.

Lemma Map_get_None_notin m k : Map_get m k = None <-> ~ In k (Map_keys m).
Proof.
  induction m as [|[k' v'] m IH]; simpl.
  - tauto.
  - destruct (key_eqb_spec k' k) as [->|Hne].
    + split; [discriminate | intros Hn; exfalso; apply Hn; now left].
    + rewrite IH. split; [intros Hn [E|I]; congruence | tauto].
Qed.

Lemma Map_has_false m k : Map_has m k = false <-> ~ In k (Map_keys m).
Proof.
  unfold Map_has. rewrite <- Map_get_None_notin.
  destruct (Map_get m k); split; congruence.
Qed.

Lemma Map_has_true m k : Map_has m k = true <-> In k (Map_keys m).
Proof.
  destruct (Map_has m k) eqn:E.
  - split; [intros _|reflexivity].
    destruct (in_dec (fun a b => reflect_dec _ _ (key_eqb_spec a b)) k (Map_keys m))
      as [I|N]; [exact I|].
    apply Map_has_false in N. congruence.
  - apply Map_has_false in E. split; [discriminate | tauto].
Qed.

Lemma Map_set_fresh m k v : Map_has m k = false -> Map_set m k v = m ++ [(k, v)].
Proof.
  rewrite Map_has_false.
  induction m as [|[k' v'] m IH]; simpl; intros Hn; [reflexivity|].
  rewrite key_eqb_neq by tauto. rewrite IH by tauto. reflexivity.
Qed.

Lemma Map_delete_notin m k : ~ In k (Map_keys (Map_delete m k)).
Proof.
  unfold Map_keys, Map_delete. rewrite in_map_iff.
  intros [[k' v'] [E I]]. simpl in E. subst k'.
  apply filter_In in I. destruct I as [_ I]. simpl in I.
  rewrite key_eqb_refl in I. discriminate.
Qed.

Lemma Map_has_delete m k : Map_has (Map_delete m k) k = false.
Proof. apply Map_has_false, Map_delete_notin. Qed.

Lemma Map_delete_absent m k : Map_has m k = false -> Map_delete m k = m.
Proof.
  rewrite Map_has_false.
  induction m as [|[k' v'] m IH]; simpl; intros Hn; [reflexivity|].
  rewrite key_eqb_neq by tauto. simpl. rewrite IH by tauto. reflexivity.
Qed.

Lemma Map_delete_length m k :
  (List.length (Map_delete m k) <= List.length m)%nat.
Proof. apply filter_length_le. Qed.

Lemma Map_delete_length_present m k :
  Map_has m k = true -> (List.length (Map_delete m k) < List.length m)%nat.
Proof.
  rewrite Map_has_true.
  induction m as [|[k' v'] m IH]; simpl; [tauto|].
  destruct (key_eqb_spec k' k) as [->|Hne]; simpl.
  - intros _. pose proof (Map_delete_length m k). lia.
  - intros [E|I]; [congruence|]. specialize (IH I). lia.
Qed.

(** On a map without repeated keys, deleting the first key drops the first
    entry: what the eviction loop does. *)
Lemma Map_delete_first m k v :
  NoDup (Map_keys ((k, v) :: m)) -> Map_delete ((k, v) :: m) k = m.
Proof.
  simpl. intros Hnd. inversion Hnd as [|? ? Hn _]; subst.
  rewrite key_eqb_refl. simpl. apply Map_delete_absent, Map_has_false, Hn.
Qed.

Lemma Map_get_app_fresh m k v :
  Map_has m k = false -> Map_get (m ++ [(k, v)]) k = Some v.
Proof.
  rewrite Map_has_false.
  induction m as [|[k' v'] m IH]; simpl; intros Hn.
  - now rewrite key_eqb_refl.
  - rewrite key_eqb_neq by tauto. apply IH. tauto.
Qed.

Lemma Map_get_app_other m k k' v :
  k' <> k -> Map_get (m ++ [(k', v)]) k = Map_get m k.
Proof.
  intros Hne. induction m as [|[k2 v2] m IH]; simpl.
  - now rewrite key_eqb_neq.
  - now rewrite IH.
Qed.

Lemma evict_fits (max : Z) m : Map_size m <= max -> evict max m = Some m.
Proof.
  intros Hle. destruct m as [|[k v] m]; simpl.
  - destruct (Z.gtb_spec (Map_size (@nil (K * V))) max) as [Hgt|_];
      [lia | reflexivity].
  - destruct (Z.gtb_spec (Map_size ((k, v) :: m)) max) as [Hgt|_];
      [lia | reflexivity].
Qed.

Lemma evict_one (max : Z) m k v :
  Map_size m = max -> evict max ((k, v) :: m) = Some m.
Proof.
  intros Hsz. simpl.
  destruct (Z.gtb_spec (Map_size ((k, v) :: m)) max) as [_|Hle].
  - apply evict_fits. lia.
  - unfold Map_size in *. simpl List.length in Hle. lia.
Qed.

(** With a capacity that is not negative the eviction loop returns, and
    what it leaves fits the capacity. *)
Lemma evict_total (max : Z) m :
  0 <= max -> exists m', evict max m = Some m' /\ Map_size m' <= max.
Proof.
  intros Hmax. induction m as [|[k v] m IH].
  - exists []. split; [apply evict_fits|]; unfold Map_size; simpl; lia.
  - simpl. destruct (Z.gtb_spec (Map_size ((k, v) :: m)) max) as [Hgt|Hle].
    + exact IH.
    + eauto.
Qed.
End CacheFacts.

(** ** Histories: last accesses and the order of the entries *)

Section HistoryFacts.
Context {K V : Type} `{EqKey K}.
Implicit Types (m : Map K V) (k : K) (v : V) (o : cache_op K V)
  (ops : list (cache_op K V)).
Local Open Scope list_scope.

Lemma LruCache_set_eq (max : Z) m k v :
  LruCache_set max m k v = evict max (Map_delete m k ++ [(k, v)]).
Proof.
  unfold LruCache_set. destruct (Map_has m k) eqn:E.
  - now rewrite Map_set_fresh by apply Map_has_delete.
  - rewrite Map_delete_absent by exact E. now rewrite Map_set_fresh.
Qed.

Lemma LruCache_get_hit m k v :
  Map_get m k = Some v ->
  LruCache_get m k = (Some v, Map_delete m k ++ [(k, v)]).
Proof.
  intros E. unfold LruCache_get. rewrite E.
  now rewrite Map_set_fresh by apply Map_has_delete.
Qed.

Lemma LruCache_get_miss m k :
  Map_get m k = None -> LruCache_get m k = (None, m).
Proof. intros E. unfold LruCache_get. now rewrite E. Qed.

Lemma run_snoc (max : Z) m ops o :
  run max m (ops ++ [o]) =
  match run max m ops with Some m' => step max m' o | None => None end.
Proof.
  revert m. induction ops as [|o' ops IH]; intros m; simpl.
  - destruct (step max m o); reflexivity.
  - destruct (step max m o'); [apply IH | reflexivity].
Qed.

Lemma last_access_from_bound t ops k t' :
  last_access_from t ops k = Some t' -> (t <= t' < t + List.length ops)%nat.
Proof.
  revert t. induction ops as [|o ops IH]; intros t; simpl; [discriminate|].
  destruct (last_access_from (S t) ops k) eqn:E.
  - intros [= ->]. apply IH in E. lia.
  - destruct (key_eqb (op_key o) k); [intros [= ->]; lia | discriminate].
Qed.

Lemma last_access_from_snoc t ops o k :
  last_access_from t (ops ++ [o]) k =
  if key_eqb (op_key o) k then Some (t + List.length ops)%nat
  else last_access_from t ops k.
Proof.
  revert t. induction ops as [|o' ops IH]; intros t; simpl.
  - rewrite Nat.add_0_r. reflexivity.
  - rewrite IH. destruct (key_eqb (op_key o) k).
    + f_equal. lia.
    + reflexivity.
Qed.

Lemma last_access_snoc_same ops o :
  last_access (ops ++ [o]) (op_key o) = Some (List.length ops).
Proof.
  unfold last_access. now rewrite last_access_from_snoc, key_eqb_refl.
Qed.

Lemma last_access_snoc_other ops o k :
  op_key o <> k -> last_access (ops ++ [o]) k = last_access ops k.
Proof.
  intros Hne. unfold last_access.
  now rewrite last_access_from_snoc, key_eqb_neq.
Qed.

Lemma accessed_before_snoc_other ops o k k' :
  op_key o <> k -> op_key o <> k' ->
  accessed_before ops k k' -> accessed_before (ops ++ [o]) k k'.
Proof.
  intros Hk Hk' (t & t' & E & E' & Hlt). exists t, t'.
  rewrite !last_access_snoc_other by assumption. auto.
Qed.

Lemma accessed_before_newest ops o k t :
  op_key o <> k -> last_access ops k = Some t ->
  accessed_before (ops ++ [o]) k (op_key o).
Proof.
  intros Hk E. exists t, (List.length ops).
  rewrite last_access_snoc_other by assumption.
  rewrite last_access_snoc_same. repeat split; auto.
  apply last_access_from_bound in E. lia.
Qed.

Lemma StronglySorted_snoc {A} (R : A -> A -> Prop) (l : list A) (x : A) :
  StronglySorted R l -> Forall (fun a => R a x) l -> StronglySorted R (l ++ [x]).
Proof.
  induction 1 as [|a l Hs IH Ha]; intros Hx; simpl.
  - repeat constructor.
  - inversion Hx; subst. constructor; [auto|].
    apply Forall_app. split; [exact Ha | repeat constructor; assumption].
Qed.

(** Entries that the newest call does not touch keep their order. *)
Lemma recency_keep ops m o :
  recency_ordered ops m ->
  recency_ordered (ops ++ [o]) (Map_delete m (op_key o)).
Proof.
  intros [Hacc Hsort]. unfold Map_delete. split.
  - apply Forall_forall. intros [k v] Hin. apply filter_In in Hin.
    destruct Hin as [Hin Hne]. simpl in *.
    rewrite Forall_forall in Hacc. destruct (Hacc _ Hin) as [t Ht].
    exists t. rewrite last_access_snoc_other; [exact Ht|].
    intros E. rewrite E, key_eqb_refl in Hne. discriminate.
  - clear Hacc. induction Hsort as [|[k v] m Hs IH Ha]; simpl; [constructor|].
    destruct (key_eqb_spec k (op_key o)) as [E|Hne]; simpl; [exact IH|].
    constructor; [exact IH|].
    apply Forall_forall. intros [k' v'] Hin. apply filter_In in Hin.
    destruct Hin as [Hin Hne']. simpl in *.
    rewrite Forall_forall in Ha. specialize (Ha _ Hin). simpl in Ha.
    apply accessed_before_snoc_other; [congruence| |exact Ha].
    intros E. rewrite <- E, key_eqb_refl in Hne'. discriminate.
Qed.

(** The entry that the newest call touches goes to the young end. *)
Lemma recency_touch ops m o v :
  recency_ordered ops m ->
  recency_ordered (ops ++ [o]) (Map_delete m (op_key o) ++ [(op_key o, v)]).
Proof.
  intros Hord. pose proof (recency_keep ops m o Hord) as [Hacc Hsort].
  assert (Hyoung : Forall (fun a => accessed_before (ops ++ [o]) (fst a) (op_key o))
                     (Map_delete m (op_key o))).
  { destruct Hord as [Hacc0 _]. rewrite Forall_forall in Hacc0.
    apply Forall_forall. intros [k w] Hin. apply filter_In in Hin.
    destruct Hin as [Hin Hne]. simpl in *.
    destruct (Hacc0 _ Hin) as [t Ht]. simpl in Ht.
    apply accessed_before_newest with t; [|exact Ht].
    intros E. rewrite E, key_eqb_refl in Hne. discriminate. }
  split.
  - apply Forall_app. split; [exact Hacc|].
    repeat constructor. simpl. eexists. apply last_access_snoc_same.
  - apply StronglySorted_snoc; assumption.
Qed.

Lemma recency_tail ops m :
  recency_ordered ops m -> recency_ordered ops (tl m).
Proof.
  intros [Hacc Hsort]. destruct m as [|a m]; simpl; [split; constructor|].
  inversion Hacc; inversion Hsort; subst. split; assumption.
Qed.

Lemma evict_at_most_one (max : Z) m :
  0 <= max -> Map_size m <= max + 1 ->
  evict max m = Some (if Map_size m >? max then tl m else m).
Proof.
  intros Hmax Hsz. destruct (Z.gtb_spec (Map_size m) max) as [Hgt|Hle].
  - destruct m as [|[k v] m]; [unfold Map_size in Hgt; simpl in Hgt; lia|].
    apply evict_one. unfold Map_size in *. simpl List.length in *. lia.
  - now apply evict_fits.
Qed.

Lemma Map_size_tl m : Map_size (tl m) <= Map_size m.
Proof. destruct m; unfold Map_size; simpl; lia. Qed.

Lemma Map_size_touch m k v :
  Map_size (Map_delete m k ++ [(k, v)]) <= Map_size m + 1.
Proof.
  unfold Map_size. rewrite length_app. simpl.
  pose proof (Map_delete_length m k). lia.
Qed.

Lemma Map_size_touch_present m k v :
  Map_has m k = true -> Map_size (Map_delete m k ++ [(k, v)]) <= Map_size m.
Proof.
  intros Hin. unfold Map_size. rewrite length_app. simpl.
  pose proof (Map_delete_length_present m k Hin). lia.
Qed.

(** Every history leaves a cache: within capacity, ordered by last access. *)
Lemma run_invariant (C : Z) ops :
  0 <= C ->
  exists m, run C [] ops = Some m /\ Map_size m <= C /\ recency_ordered ops m.
Proof.
  intros HC. induction ops as [|o ops IH] using rev_ind.
  - exists []. simpl. repeat split; try constructor. unfold Map_size; simpl; lia.
  - destruct IH as (m & Hrun & Hsz & Hord). rewrite run_snoc, Hrun.
    destruct o as [k|k v]; simpl.
    + destruct (Map_get m k) as [v|] eqn:E.
      * rewrite (LruCache_get_hit m k v E). simpl. eexists. split; [reflexivity|].
        split; [|apply (recency_touch ops m (OpGet k) v Hord)].
        assert (Hin : Map_has m k = true) by (unfold Map_has; now rewrite E).
        pose proof (Map_size_touch_present m k v Hin). lia.
      * rewrite (LruCache_get_miss m k E). simpl. exists m.
        split; [reflexivity|]. split; [assumption|].
        assert (Hout : Map_delete m k = m).
        { apply Map_delete_absent. unfold Map_has. now rewrite E. }
        rewrite <- Hout. apply (recency_keep ops m (OpGet k) Hord).
    + rewrite LruCache_set_eq.
      pose proof (Map_size_touch m k v) as Hsz'.
      rewrite evict_at_most_one by lia. eexists. split; [reflexivity|].
      pose proof (recency_touch ops m (OpSet k v) v Hord) as Hord'.
      simpl in Hord'.
      destruct (Z.gtb_spec (Map_size (Map_delete m k ++ [(k, v)])) C).
      * split; [|now apply recency_tail].
        pose proof (Map_size_tl (Map_delete m k ++ [(k, v)])).
        destruct (Map_delete m k ++ [(k, v)]); unfold Map_size in *;
          simpl in *; lia.
      * split; assumption.
Qed.
End HistoryFacts.

Section LruClaim.
Context {K V : Type} `{EqKey K}.
Local Open Scope list_scope.

(** C1. For every capacity [C > 0] and every sequence of [get] and [set]
    calls made on an empty cache: the calls return; after them the cache
    holds at most [C] entries; a [set] on a key that is already there removes
    no other entry; a [set] on a new key below capacity removes nothing; and
    a [set] on a new key at capacity removes exactly one entry, the first
    one, whose last access (by [get] or by [set]) is earlier than the last
    access of every other entry. *)
Theorem lru_bounded_and_evicts_least_recent (C : Z) (ops : list (cache_op K V)) :
  0 < C ->
  exists m : Map K V,
    run C [] ops = Some m
    /\ Map_size m <= C
    /\ forall (k : K) (v : V),
         (Map_has m k = true ->
            LruCache_set C m k v = Some (Map_delete m k ++ [(k, v)]))
         /\ (Map_has m k = false -> Map_size m < C ->
            LruCache_set C m k v = Some (m ++ [(k, v)]))
         /\ (Map_has m k = false -> Map_size m = C ->
            exists k0 v0 rest,
              m = (k0, v0) :: rest
              /\ LruCache_set C m k v = Some (rest ++ [(k, v)])
              /\ forall k', In k' (Map_keys rest) -> accessed_before ops k0 k').
Proof.
  intros HC. destruct (run_invariant C ops) as (m & Hrun & Hsz & Hord); [lia|].
  exists m. split; [exact Hrun|]. split; [exact Hsz|]. intros k v.
  rewrite LruCache_set_eq. split; [|split].
  - intros Hin. apply evict_fits.
    pose proof (Map_size_touch_present m k v Hin). lia.
  - intros Hout Hlt. rewrite Map_delete_absent by exact Hout.
    apply evict_fits. unfold Map_size in *. rewrite length_app. simpl. lia.
  - intros Hout Hfull. rewrite Map_delete_absent by exact Hout.
    destruct m as [|[k0 v0] rest];
      [unfold Map_size in Hfull; simpl in Hfull; lia|].
    exists k0, v0, rest. split; [reflexivity|]. split.
    + simpl. apply evict_one. unfold Map_size in *.
      rewrite length_app. simpl in *. lia.
    + intros k' Hin. destruct Hord as [_ Hsort].
      inversion Hsort as [|? ? _ Hall]; subst.
      unfold Map_keys in Hin. apply in_map_iff in Hin.
      destruct Hin as ([k2 v2] & E & Hin). simpl in E. subst k2.
      rewrite Forall_forall in Hall. apply (Hall _ Hin).
Qed.
End LruClaim.

Lemma lru_bounded_and_evicts_least_recent_witness :
  exists m : Map string Z,
    run 2 [] [OpSet "a" 1; OpSet "b" 2; OpGet "a"] = Some m
    /\ Map_size m <= 2
    /\ forall (k : string) (v : Z),
         (Map_has m k = true ->
            LruCache_set 2 m k v = Some (Map_delete m k ++ [(k, v)])%list)
         /\ (Map_has m k = false -> Map_size m < 2 ->
            LruCache_set 2 m k v = Some (m ++ [(k, v)])%list)
         /\ (Map_has m k = false -> Map_size m = 2 ->
            exists k0 v0 rest,
              m = (k0, v0) :: rest
              /\ LruCache_set 2 m k v = Some (rest ++ [(k, v)])%list
              /\ forall k', In k' (Map_keys rest) ->
                   accessed_before [OpSet "a" 1; OpSet "b" 2; OpGet "a"] k0 k').
Proof.
  apply (lru_bounded_and_evicts_least_recent 2
           [OpSet "a" 1; OpSet "b" 2; OpGet "a"]).
  lia.
Defined.

(** The same history, run: the entry of ["b"] is the first to go. *)
Example lru_example :
  run 2 [] [OpSet "a" 1; OpSet "b" 2; OpGet "a"; OpSet "c" 3]
  = Some [("a", 1); ("c", 3)].
Proof. reflexivity. Qed.

(** A negative capacity makes [set] loop for ever. *)
Example lru_negative_capacity :
  LruCache_set (-1) ([] : Map string Z) "a" 1 = None.
Proof. reflexivity. Qed.

(** ** Strings *)

Section StringFacts.
Implicit Types (s t p : string) (c : ascii).

Lemma append_nil_r s : s ++ "" = s.
Proof. induction s; simpl; congruence. Qed.

Lemma append_assoc s t u : (s ++ t) ++ u = s ++ (t ++ u).
Proof. induction s; simpl; congruence. Qed.

Lemma length_append s t :
  String.length (s ++ t) = (String.length s + String.length t)%nat.
Proof. induction s; simpl; congruence. Qed.

Lemma append_inv_head s t u : s ++ t = s ++ u -> t = u.
Proof. induction s; simpl; intros E; [exact E | injection E; auto]. Qed.

Lemma startsWith_app p t : startsWith (p ++ t) p = true.
Proof.
  induction p as [|c p IH]; simpl; [reflexivity|].
  now rewrite Ascii.eqb_refl, IH.
Qed.

Lemma startsWith_inv s p : startsWith s p = true -> exists t, s = p ++ t.
Proof.
  revert s. induction p as [|c p IH]; intros s; simpl.
  - exists s. reflexivity.
  - destruct s as [|c' s]; [intros Hp; discriminate Hp|].
    intros Hp. apply andb_true_iff in Hp. destruct Hp as [Hc Hp].
    apply Ascii.eqb_eq in Hc. subst c'.
    destruct (IH _ Hp) as [t ->]. exists t. reflexivity.
Qed.

Lemma slice_app p t : slice (String.length p) (p ++ t) = t.
Proof. induction p; simpl; auto. Qed.

Lemma substring0_all n s : (String.length s <= n)%nat -> substring0 n s = s.
Proof.
  unfold substring0. revert n. induction s as [|c s IH]; intros [|n]; simpl;
    intros Hle; try reflexivity; try lia.
  rewrite IH by lia. reflexivity.
Qed.

Lemma substring0_slice n s : s = substring0 n s ++ slice n s.
Proof.
  unfold substring0. revert n. induction s as [|c s IH]; intros [|n]; simpl;
    try reflexivity.
  now rewrite <- IH.
Qed.

End StringFacts.

(** ** The label *)



Example formatBlameLabel_example :
  formatBlameLabel (P := example_platform)
    {| commit := "abc"; author := Some "Bob"; authorTime := Some (Int 100);
       summary := Some "fix" |} 160000
  = "⎇ Bob, 1 min ago · fix ↗".
Proof. reflexivity. Qed.

(** ** Relative time *)

(** C4. Elapsed 360 days, which is less than a year: the code has left the
    months (it counts 12 of them in 360 days) and counts the years in days of
    365, so the phrase is neither in months nor a positive count of years. *)
Theorem relativeFromUnixSeconds_360_days :
  relativeFromUnixSeconds 0 (360 * 86400 * 1000) = "0 year ago"
  /\ relativeFromUnixSeconds 0 (364 * 86400 * 1000) = "0 year ago"
  /\ relativeFromUnixSeconds 0 (359 * 86400 * 1000) = "11 months ago"
  /\ relativeFromUnixSeconds 0 (365 * 86400 * 1000) = "1 year ago".
Proof. repeat split; vm_compute; reflexivity. Qed.

(** The boundaries listed with the buckets. *)
Example relativeFromUnixSeconds_boundaries :
  map (fun d => relativeFromUnixSeconds 0 (d * 1000)) [9; 10; 59; 60; 3599; 3600]
  = ["just now"; "10 secs ago"; "59 secs ago"; "1 min ago"; "59 mins ago";
     "1 hour ago"].
Proof. vm_compute. reflexivity. Qed.

(** ** Splitting, joining and trimming *)

Section SplitFacts.
Implicit Types (s t : string) (c sep : ascii).

Lemma forallb_string_impl (p q : ascii -> bool) s :
  (forall c, p c = true -> q c = true) ->
  forallb_string p s = true -> forallb_string q s = true.
Proof.
  intros Hpq. induction s as [|c s IH]; simpl; [reflexivity|].
  rewrite !andb_true_iff. intros [Hc Hs]. auto.
Qed.

Lemma forallb_string_app (p : ascii -> bool) s t :
  forallb_string p (s ++ t) = forallb_string p s && forallb_string p t.
Proof.
  induction s as [|c s IH]; simpl; [reflexivity|].
  now rewrite IH, andb_assoc.
Qed.

Lemma split_free sep s : free sep s -> split sep s = [s].
Proof.
  induction s as [|c s IH]; simpl; [reflexivity|].
  rewrite andb_true_iff, negb_true_iff. intros [Hc Hs].
  now rewrite Hc, IH.
Qed.

Lemma split_app_sep sep s t :
  free sep s -> split sep (s ++ String sep t) = s :: split sep t.
Proof.
  induction s as [|c s IH]; simpl.
  - intros _. now rewrite Ascii.eqb_refl.
  - rewrite andb_true_iff, negb_true_iff. intros [Hc Hs].
    now rewrite Hc, IH.
Qed.

Lemma split_join sep (parts : list string) :
  parts <> [] -> Forall (fun s => free sep s) parts ->
  split sep (join (String sep "") parts) = parts.
Proof.
  induction parts as [|s parts IH]; [congruence|]. intros _ Hall.
  inversion Hall as [|? ? Hs Hrest]; subst.
  destruct parts as [|s' parts].
  - simpl. now apply split_free.
  - change (join (String sep "") (s :: s' :: parts))
      with (s ++ String sep (join (String sep "") (s' :: parts))).
    rewrite split_app_sep by exact Hs. f_equal. apply IH; [discriminate|exact Hrest].
Qed.

Lemma split_hd_free sep s : free sep (hd "" (split sep s)).
Proof.
  induction s as [|c s IH]; simpl; [reflexivity|].
  destruct (Ascii.eqb c sep) eqn:E; simpl; [reflexivity|].
  destruct (split sep s) as [|w ws]; simpl in *; now rewrite E.
Qed.

Lemma split_hd_forallb (p : ascii -> bool) sep s :
  forallb_string p s = true -> forallb_string p (hd "" (split sep s)) = true.
Proof.
  induction s as [|c s IH]; simpl; [reflexivity|].
  rewrite andb_true_iff. intros [Hc Hs].
  destruct (Ascii.eqb c sep); simpl; [reflexivity|].
  specialize (IH Hs). destruct (split sep s) as [|w ws]; simpl in *.
  - now rewrite Hc.
  - now rewrite Hc, IH.
Qed.

Lemma trimStart_ws s : forallb_string is_ws s = true -> trimStart s = "".
Proof.
  induction s as [|c s IH]; simpl; [reflexivity|].
  rewrite andb_true_iff. intros [-> Hs]. auto.
Qed.

Lemma trim_ws s : forallb_string is_ws s = true -> trim s = "".
Proof. intros Hs. unfold trim. now rewrite trimStart_ws. Qed.

Lemma trimStart_head c s : is_ws c = false -> trimStart (String c s) = String c s.
Proof. intros Hc. simpl. now rewrite Hc. Qed.

Lemma trimEnd_app s t : ws_free s -> trimEnd (s ++ t) = s ++ trimEnd t.
Proof.
  induction s as [|c s IH]; simpl; [reflexivity|].
  rewrite andb_true_iff, negb_true_iff. intros [Hc Hs].
  rewrite IH by exact Hs. destruct (s ++ trimEnd t); [now rewrite Hc | reflexivity].
Qed.

Lemma trim_ws_free s : ws_free s -> trim s = s.
Proof.
  intros Hs. unfold trim. destruct s as [|c s]; [reflexivity|].
  pose proof Hs as Hs'. simpl in Hs'.
  rewrite andb_true_iff, negb_true_iff in Hs'. destruct Hs' as [Hc _].
  rewrite trimStart_head by exact Hc.
  rewrite <- (append_nil_r (String c s)) at 1.
  rewrite trimEnd_app by exact Hs. apply append_nil_r.
Qed.

(** A token followed by nothing, or by a space and more: trimming leaves
    the token in front, and the first space-separated field is the token. *)
Lemma first_field token rest :
  token <> "" -> ws_free token ->
  (rest = "" \/ exists r, rest = " " ++ r) ->
  exists t, trim (token ++ rest) = token ++ t
            /\ hd "" (split " " (token ++ t)) = token.
Proof.
  intros Hne Hfree Hrest.
  assert (Hsp : free " " token).
  { revert Hfree. apply forallb_string_impl. intros c Hc.
    destruct (Ascii.eqb_spec c " ") as [->|]; [discriminate Hc | reflexivity]. }
  assert (Htrim : trim (token ++ rest) = token ++ trimEnd rest).
  { unfold trim. destruct token as [|c token]; [congruence|].
    pose proof Hfree as Hc. simpl in Hc.
    rewrite andb_true_iff, negb_true_iff in Hc. destruct Hc as [Hc _].
    change (String c token ++ rest) with (String c (token ++ rest)).
    rewrite trimStart_head by exact Hc.
    change (String c (token ++ rest)) with (String c token ++ rest).
    now apply trimEnd_app. }
  exists (trimEnd rest). split; [exact Htrim|].
  destruct Hrest as [->|[r ->]].
  - simpl. rewrite append_nil_r. now rewrite split_free.
  - simpl. destruct (trimEnd r) as [|c t].
    + rewrite append_nil_r. now rewrite split_free.
    + now rewrite split_app_sep.
Qed.
End SplitFacts.

(** ** Decimal numerals *)

Section NumberFacts.

Lemma string_of_uint_digits (d : Decimal.uint) :
  forallb_string is_digit (NilEmpty.string_of_uint d) = true.
Proof. induction d; simpl; auto. Qed.

Lemma NilZero_string_of_uint_digits (d : Decimal.uint) :
  forallb_string is_digit (NilZero.string_of_uint d) = true
  /\ NilZero.string_of_uint d <> "".
Proof.
  destruct d; simpl; (split; [|discriminate]);
    try reflexivity; apply string_of_uint_digits.
Qed.

(** The text of an integer: digits, after a minus sign when negative. *)
Lemma Number_toString_shape (z : Z) :
  exists digits,
    forallb_string is_digit digits = true /\ digits <> ""
    /\ (Number_toString z = digits \/ Number_toString z = String "-" digits).
Proof.
  unfold Number_toString.
  destruct (Z.to_int z) as [d|d]; simpl;
    exists (NilZero.string_of_uint d);
    destruct (NilZero_string_of_uint_digits d); auto.
Qed.

(** Every code unit of the text of an integer passes a test that the
    digits and the minus sign pass. *)
Lemma Number_toString_forallb (p : ascii -> bool) (z : Z) :
  (forall c, is_digit c = true -> p c = true) -> p "-"%char = true ->
  forallb_string p (Number_toString z) = true.
Proof.
  intros Hd Hm. destruct (Number_toString_shape z) as (ds & Hds & _ & [->| ->]).
  - revert Hds. now apply forallb_string_impl.
  - simpl. rewrite Hm. revert Hds. now apply forallb_string_impl.
Qed.

Lemma is_digit_cases (p : ascii -> bool) :
  forallb p ["0"; "1"; "2"; "3"; "4"; "5"; "6"; "7"; "8"; "9"]%char = true ->
  forall c, is_digit c = true -> p c = true.
Proof.
  intros Hp c Hc.
  assert (Hin : In c ["0"; "1"; "2"; "3"; "4"; "5"; "6"; "7"; "8"; "9"]%char).
  { destruct c as [[] [] [] [] [] [] [] []]; try discriminate Hc;
      simpl; tauto. }
  rewrite forallb_forall in Hp. auto.
Qed.

Lemma Number_toString_ws_free (z : Z) : ws_free (Number_toString z).
Proof.
  apply Number_toString_forallb; [|reflexivity].
  apply is_digit_cases. reflexivity.
Qed.

Lemma Number_toString_free (c : ascii) (z : Z) :
  is_digit c = false -> c <> "-"%char -> free c (Number_toString z).
Proof.
  intros Hc Hm. apply Number_toString_forallb.
  - intros x Hx. destruct (Ascii.eqb_spec x c) as [->|]; [congruence|reflexivity].
  - destruct (Ascii.eqb_spec "-"%char c); [congruence|reflexivity].
Qed.

Lemma Number_toString_nonempty (z : Z) : Number_toString z <> "".
Proof.
  destruct (Number_toString_shape z) as (ds & _ & Hne & [->| ->]);
    [exact Hne | discriminate].
Qed.

Lemma Number_toString_no_plus (z : Z) : startsWith (Number_toString z) "+" = false.
Proof.
  assert (Hfree : free "+" (Number_toString z))
    by (apply Number_toString_free; [reflexivity | discriminate]).
  destruct (Number_toString z) as [|c s]; [reflexivity|].
  cbn [forallb_string] in Hfree. rewrite andb_true_iff, negb_true_iff in Hfree.
  destruct Hfree as [Hc _]. cbn [startsWith]. rewrite Ascii.eqb_sym, Hc.
  reflexivity.
Qed.

(** [Number] reads back the text of an integer. *)
Lemma Number_of_toString (z : Z) : Number (Number_toString z) = Int z.
Proof.
  unfold Number. rewrite trim_ws_free by apply Number_toString_ws_free.
  destruct (String.eqb_spec (Number_toString z) "") as [E|_];
    [now apply Number_toString_nonempty in E|].
  rewrite Number_toString_no_plus. simpl.
  unfold Number_toString. rewrite NilZero.isi.
  - now rewrite DecimalZ.of_to.
  - destruct z; simpl; try discriminate.
    intros [= E]. now apply DecimalPos.Unsigned.to_uint_nonnil in E.
  - destruct z; simpl; try discriminate.
    intros [= E]. now apply DecimalPos.Unsigned.to_uint_nonnil in E.
Qed.
End NumberFacts.

(** ** The blame parser *)

Section ParserFacts.
Local Open Scope list_scope.

Lemma parseLine_author (info : BlameInfo) (X : string) :
  parseLine info ("author " ++ X)%string = set_author info (trim X).
Proof.
  unfold parseLine. rewrite (startsWith_app "author " X).
  now rewrite (slice_app "author " X).
Qed.

Lemma parseLine_authorTime (info : BlameInfo) (T : Z) :
  parseLine info ("author-time " ++ Number_toString T)%string
  = set_authorTime info (Int T).
Proof.
  unfold parseLine.
  replace (startsWith ("author-time " ++ Number_toString T) "author ")
    with false by reflexivity.
  rewrite (startsWith_app "author-time " (Number_toString T)).
  rewrite (slice_app "author-time " (Number_toString T)).
  rewrite trim_ws_free by apply Number_toString_ws_free.
  now rewrite Number_of_toString.
Qed.

Lemma parseLine_summary (info : BlameInfo) (S : string) :
  parseLine info ("summary " ++ S)%string = set_summary info (trim S).
Proof.
  unfold parseLine.
  replace (startsWith ("summary " ++ S) "author ") with false by reflexivity.
  replace (startsWith ("summary " ++ S) "author-time ") with false by reflexivity.
  rewrite (startsWith_app "summary " S).
  now rewrite (slice_app "summary " S).
Qed.

Lemma parseLine_unrecognised (info : BlameInfo) (line : string) :
  unrecognised line = true -> parseLine info line = info.
Proof.
  unfold unrecognised, parseLine. rewrite !andb_true_iff, !negb_true_iff.
  now intros [[-> ->] ->].
Qed.

Lemma parseLine_commit (info : BlameInfo) (line : string) :
  commit (parseLine info line) = commit info.
Proof.
  unfold parseLine.
  repeat match goal with |- context [if ?b then _ else _] => destruct b end;
    reflexivity.
Qed.

(** Folding a step over a list gives the same result in any order of the
    list, when the steps of its elements commute. *)
Lemma fold_left_permutation {A B} (f : A -> B -> A) (l l' : list B) :
  Permutation l l' ->
  (forall x y a, In x l -> In y l -> f (f a x) y = f (f a y) x) ->
  forall a, fold_left f l a = fold_left f l' a.
Proof.
  induction 1 as [|x l l' Hp IH|x y l|l l' l'' Hp1 IH1 Hp2 IH2];
    intros Hcomm a; simpl.
  - reflexivity.
  - apply IH. intros; apply Hcomm; now right.
  - rewrite (Hcomm y x a); [reflexivity | now left | right; now left].
  - rewrite IH1 by exact Hcomm. apply IH2.
    intros x y b Hx Hy.
    apply Hcomm; apply (Permutation_in _ (Permutation_sym Hp1)); assumption.
Qed.

Lemma fold_left_parse_unrecognised (extra : list string) (info : BlameInfo) :
  Forall (fun l => unrecognised l = true) extra ->
  fold_left parseLine extra info = info.
Proof.
  induction 1 as [|l extra Hl _ IH]; simpl; [reflexivity|].
  now rewrite parseLine_unrecognised.
Qed.

(** C5. A commit identifier (not empty, free of white space), alone on the
    first line or followed by a space and more, and then, in any order, the
    lines [author X], [author-time T] for an integer [T] and [summary S],
    among lines with other keys: the parser returns the record of that
    identifier with author [X], time [T] and summary [S].  [X] and [S] are
    values as the line format carries them, in one line and without white
    space around them.  And an input of white space only, the empty input
    included, gives no record. *)
Theorem parseBlamePorcelain_round_trip :
  (forall (id rest X S : string) (T : Z) (extra lines : list string),
      id <> ""%string -> ws_free id ->
      (rest = ""%string \/ exists r, rest = (" " ++ r)%string /\ free LF r) ->
      free LF X -> trim X = X ->
      free LF S -> trim S = S ->
      Forall (fun l => free LF l /\ unrecognised l = true) extra ->
      Permutation lines
        (["author " ++ X; "author-time " ++ Number_toString T; "summary " ++ S]%string
           ++ extra) ->
      parseBlamePorcelain (join (String LF "") ((id ++ rest)%string :: lines))
      = Some {| commit := id; author := Some X;
                authorTime := Some (Int T); summary := Some S |})
  /\ (forall s, forallb_string is_ws s = true -> parseBlamePorcelain s = None).
Proof.
  split.
  - intros id rest X S T extra lines Hne Hid Hrest HX HXt HS HSt Hextra Hperm.
    set (canon := ["author " ++ X; "author-time " ++ Number_toString T;
                   "summary " ++ S]%string) in *.
    assert (Hfirst : free LF (id ++ rest)).
    { rewrite forallb_string_app. apply andb_true_iff. split.
      - revert Hid. apply forallb_string_impl. intros c Hc.
        destruct (Ascii.eqb_spec c LF) as [->|]; [discriminate Hc|reflexivity].
      - destruct Hrest as [->|(r & -> & Hr)]; [reflexivity|exact Hr]. }
    assert (Hcanon : Forall (fun s => free LF s) (canon ++ extra)).
    { apply Forall_app. split.
      - repeat constructor; simpl; try assumption.
        apply Number_toString_free; [reflexivity|discriminate].
      - revert Hextra. apply Forall_impl. tauto. }
    assert (Hlines : Forall (fun s => free LF s) ((id ++ rest)%string :: lines)).
    { constructor; [exact Hfirst|].
      eapply Permutation_Forall; [apply Permutation_sym; exact Hperm|exact Hcanon]. }
    unfold parseBlamePorcelain.
    rewrite split_join by (exact Hlines || discriminate).
    cbn [hd].
    destruct (first_field id rest Hne Hid) as (t & -> & ->).
    { destruct Hrest as [->|(r & -> & _)]; eauto. }
    destruct (String.eqb_spec (id ++ t) "") as [E|_];
      [destruct id; [congruence|discriminate E]|].
    destruct (String.eqb_spec id "") as [E|_]; [congruence|].
    f_equal. cbn [fold_left].
    set (info0 := parseLine _ (id ++ rest)%string).
    assert (Hkind : forall x, In x (canon ++ extra) ->
               (forall i, parseLine i x = set_author i X)
               \/ (forall i, parseLine i x = set_authorTime i (Int T))
               \/ (forall i, parseLine i x = set_summary i S)
               \/ (forall i, parseLine i x = i)).
    { intros x Hx. apply in_app_or in Hx. destruct Hx as [Hx|Hx].
      - destruct Hx as [<-|[<-|[<-|[]]]].
        + left. intros i. now rewrite parseLine_author, HXt.
        + right; left. intros i. apply parseLine_authorTime.
        + right; right; left. intros i. now rewrite parseLine_summary, HSt.
      - right; right; right. intros i. apply parseLine_unrecognised.
        rewrite Forall_forall in Hextra. now apply Hextra. }
    rewrite <- (fold_left_permutation parseLine (canon ++ extra) lines).
    + rewrite fold_left_app. rewrite fold_left_parse_unrecognised.
      * unfold canon. cbn [fold_left].
        rewrite parseLine_author, parseLine_authorTime, parseLine_summary.
        rewrite HXt, HSt. unfold set_summary, set_authorTime, set_author.
        cbn [commit author authorTime summary].
        unfold info0. now rewrite parseLine_commit.
      * revert Hextra. apply Forall_impl. tauto.
    + now apply Permutation_sym.
    + intros x y a Hx Hy.
      destruct (Hkind x Hx) as [Ex|[Ex|[Ex|Ex]]],
               (Hkind y Hy) as [Ey|[Ey|[Ey|Ey]]];
        rewrite ?Ex, ?Ey; reflexivity.
  - intros s Hs. unfold parseBlamePorcelain.
    rewrite trim_ws by (apply split_hd_forallb; exact Hs). reflexivity.
Qed.
End ParserFacts.

Lemma parseBlamePorcelain_round_trip_witness :
  parseBlamePorcelain
    (join (String LF "")
       ["0123abcd 7 7 1"; "summary fix the parser"; "author Ada Lovelace";
        "committer Nobody"; "author-time 1700000000"; ""])
  = Some {| commit := "0123abcd"; author := Some "Ada Lovelace";
            authorTime := Some (Int 1700000000);
            summary := Some "fix the parser" |}.
Proof.
  apply (proj1 parseBlamePorcelain_round_trip
           "0123abcd" " 7 7 1" "Ada Lovelace" "fix the parser" 1700000000
           ["committer Nobody"; ""]).
  - discriminate.
  - reflexivity.
  - right. exists "7 7 1". split; reflexivity.
  - reflexivity.
  - reflexivity.
  - reflexivity.
  - reflexivity.
  - repeat constructor.
  - change ("author-time " ++ Number_toString 1700000000)%string
      with "author-time 1700000000".
    simpl. apply perm_trans with
      ["author Ada Lovelace"; "summary fix the parser"; "committer Nobody";
       "author-time 1700000000"; ""].
    + apply perm_swap.
    + apply perm_skip. apply perm_trans with
        ["summary fix the parser"; "author-time 1700000000"; "committer Nobody"; ""].
      * apply perm_skip. apply perm_swap.
      * apply perm_swap.
Defined.

(** ** Suffixes and delimiters *)

Section SuffixFacts.
Implicit Types (s t suffix : string) (c : ascii).

Lemma eqb_length_neq s t :
  String.length s <> String.length t -> String.eqb s t = false.
Proof. intros Hne. apply String.eqb_neq. congruence. Qed.

Lemma stripSuffix_app suffix s : stripSuffix suffix (s ++ suffix) = s.
Proof.
  induction s as [|c s IH].
  - cbn [append]. destruct suffix as [|a t]; [reflexivity|].
    cbn [stripSuffix]. now rewrite String.eqb_refl.
  - change (String c s ++ suffix) with (String c (s ++ suffix)).
    cbn [stripSuffix]. rewrite eqb_length_neq.
    + now rewrite IH.
    + simpl. rewrite length_append. lia.
Qed.

Lemma stripSuffix_keep suffix s :
  (forall t, s <> t ++ suffix) -> stripSuffix suffix s = s.
Proof.
  induction s as [|c s IH]; intros Hno.
  - destruct suffix; [exfalso; now apply (Hno "")|reflexivity].
  - cbn [stripSuffix]. destruct (String.eqb_spec (String c s) suffix) as [E|_].
    + exfalso. now apply (Hno "").
    + rewrite IH; [reflexivity|]. intros t ->. now apply (Hno (String c t)).
Qed.

Lemma stripSuffix_cons suffix c s :
  String c s <> suffix ->
  stripSuffix suffix (String c s) = String c (stripSuffix suffix s).
Proof.
  intros Hne. cbn [stripSuffix].
  now destruct (String.eqb_spec (String c s) suffix).
Qed.

Lemma break_app stop s t :
  free stop s -> break stop (s ++ String stop t) = (s, String stop t).
Proof.
  induction s as [|c s IH]; simpl.
  - intros _. now rewrite Ascii.eqb_refl.
  - rewrite andb_true_iff, negb_true_iff. intros [Hc Hs].
    now rewrite Hc, IH.
Qed.

Lemma nonempty_true s : s <> "" -> nonempty s = true.
Proof.
  intros Hne. unfold nonempty. now destruct (String.eqb_spec s "").
Qed.
End SuffixFacts.

(** ** Remote normalisation *)

Section RemoteFacts.
Implicit Types (remote r host path : string).

Lemma match_scpLike_form host path :
  host <> "" -> free ":" host -> path <> "" -> one_line path ->
  match_scpLike ("git@" ++ host ++ ":" ++ path) = Some (host, path).
Proof.
  intros Hh Hfree Hp Hline. unfold match_scpLike.
  rewrite (startsWith_app "git@" (host ++ ":" ++ path)).
  change 4%nat with (String.length "git@").
  rewrite (slice_app "git@" (host ++ ":" ++ path)).
  change (":" ++ path) with (String ":" path).
  rewrite break_app by exact Hfree.
  now rewrite !nonempty_true, Hline by assumption.
Qed.

Lemma match_sshLike_form host path :
  host <> "" -> free "/" host -> path <> "" -> one_line path ->
  match_sshLike ("ssh://git@" ++ host ++ "/" ++ path) = Some (host, path).
Proof.
  intros Hh Hfree Hp Hline. unfold match_sshLike.
  rewrite (startsWith_app "ssh://git@" (host ++ "/" ++ path)).
  change 10%nat with (String.length "ssh://git@").
  rewrite (slice_app "ssh://git@" (host ++ "/" ++ path)).
  change ("/" ++ path) with (String "/" path).
  rewrite break_app by exact Hfree.
  now rewrite !nonempty_true, Hline by assumption.
Qed.

Lemma break_spec (stop : ascii) s a b :
  break stop s = (a, b) ->
  s = a ++ b /\ free stop a /\ (b = "" \/ exists t, b = String stop t).
Proof.
  revert a b. induction s as [|c s IH]; intros a b; cbn [break].
  - intros [= <- <-]. repeat split. now left.
  - destruct (Ascii.eqb_spec c stop) as [->|Hc].
    + intros [= <- <-]. repeat split. right. eauto.
    + destruct (break stop s) as [a' b'] eqn:E. intros [= <- <-].
      destruct (IH a' b' eq_refl) as (-> & Hfree & Hrest).
      split; [reflexivity|]. split; [|exact Hrest].
      cbn [forallb_string]. rewrite Hfree.
      now destruct (Ascii.eqb_spec c stop).
Qed.

Lemma nonempty_inv s : nonempty s = true -> s <> "".
Proof. unfold nonempty. now destruct (String.eqb_spec s ""). Qed.

(** What the two regular expressions accept, read backwards: a match gives
    the remote its form. *)
Lemma match_scpLike_inv r host path :
  match_scpLike r = Some (host, path) ->
  r = "git@" ++ host ++ ":" ++ path
  /\ host <> "" /\ free ":" host /\ path <> "" /\ one_line path.
Proof.
  unfold match_scpLike. destruct (startsWith r "git@") eqn:Hp; [|discriminate].
  apply startsWith_inv in Hp. destruct Hp as [t ->].
  change 4%nat with (String.length "git@"). rewrite (slice_app "git@" t).
  destruct (break ":" t) as [h rest] eqn:Hb.
  destruct (break_spec ":" t h rest Hb) as (-> & Hfree & Hrest).
  destruct rest as [|c p]; [discriminate|].
  destruct Hrest as [|[u [= -> ->]]]; [discriminate|].
  destruct (nonempty h) eqn:Hh; [|discriminate].
  destruct (nonempty u) eqn:Hu; [|discriminate].
  destruct (forallb_string (fun c => negb (is_line_terminator c)) u) eqn:Hl;
    [|discriminate].
  intros [= <- <-]. repeat split; auto using nonempty_inv.
Qed.

Lemma match_sshLike_inv r host path :
  match_sshLike r = Some (host, path) ->
  r = "ssh://git@" ++ host ++ "/" ++ path
  /\ host <> "" /\ free "/" host /\ path <> "" /\ one_line path.
Proof.
  unfold match_sshLike. destruct (startsWith r "ssh://git@") eqn:Hp; [|discriminate].
  apply startsWith_inv in Hp. destruct Hp as [t ->].
  change 10%nat with (String.length "ssh://git@"). rewrite (slice_app "ssh://git@" t).
  destruct (break "/" t) as [h rest] eqn:Hb.
  destruct (break_spec "/" t h rest Hb) as (-> & Hfree & Hrest).
  destruct rest as [|c p]; [discriminate|].
  destruct Hrest as [|[u [= -> ->]]]; [discriminate|].
  destruct (nonempty h) eqn:Hh; [|discriminate].
  destruct (nonempty u) eqn:Hu; [|discriminate].
  destruct (forallb_string (fun c => negb (is_line_terminator c)) u) eqn:Hl;
    [|discriminate].
  intros [= <- <-]. repeat split; auto using nonempty_inv.
Qed.

(** The claim of C6 as it stands fails twice: a trailing slash of an HTTPS
    remote is kept, and an SCP-like remote of a user other than [git] is not
    supported. *)
Lemma normaliseRemoteToHttps_counterexample :
  normaliseRemoteToHttps "https://github.com/org/repo/"
    <> Some "https://github.com/org/repo"
  /\ normaliseRemoteToHttps "alice@github.com:org/repo.git"
    <> Some "https://github.com/org/repo".
Proof. split; vm_compute; discriminate. Qed.

(** C6, amended.  With [r] the remote after trimming and after removing one
    trailing [.git]: an [http://] or [https://] form is returned as [r], a
    trailing slash included; [git@host:path] and [ssh://git@host/path], with
    a host that is not empty and a path that is not empty and in one line,
    become [https://host/path]; and every other remote is not supported,
    whether it has none of the four prefixes or begins with [git@] or
    [ssh://git@] without being of that form.  The listed examples hold. *)
Theorem normaliseRemoteToHttps_forms (remote : string) :
  let r := stripSuffix ".git" (trim remote) in
  (startsWith r "http://" = true \/ startsWith r "https://" = true ->
     normaliseRemoteToHttps remote = Some r)
  /\ (forall host path,
        r = "git@" ++ host ++ ":" ++ path ->
        host <> "" -> free ":" host -> path <> "" -> one_line path ->
        normaliseRemoteToHttps remote = Some ("https://" ++ host ++ "/" ++ path))
  /\ (forall host path,
        r = "ssh://git@" ++ host ++ "/" ++ path ->
        host <> "" -> free "/" host -> path <> "" -> one_line path ->
        normaliseRemoteToHttps remote = Some ("https://" ++ host ++ "/" ++ path))
  /\ (startsWith r "http://" = false -> startsWith r "https://" = false ->
      (forall host path,
         host <> "" -> free ":" host -> path <> "" -> one_line path ->
         r <> "git@" ++ host ++ ":" ++ path) ->
      (forall host path,
         host <> "" -> free "/" host -> path <> "" -> one_line path ->
         r <> "ssh://git@" ++ host ++ "/" ++ path) ->
      normaliseRemoteToHttps remote = None)
  /\ (startsWith r "http://" = false -> startsWith r "https://" = false ->
      startsWith r "git@" = false -> startsWith r "ssh://git@" = false ->
      normaliseRemoteToHttps remote = None)
  /\ normaliseRemoteToHttps "git@github.com:org/repo.git"
       = Some "https://github.com/org/repo"
  /\ normaliseRemoteToHttps "https://gitlab.com/org/repo.git"
       = Some "https://gitlab.com/org/repo"
  /\ normaliseRemoteToHttps "ftp://example.com/x" = None
  /\ normaliseRemoteToHttps "https://github.com/org/repo/"
       = Some "https://github.com/org/repo/"
  /\ normaliseRemoteToHttps "git@github.com" = None
  /\ normaliseRemoteToHttps "git@github.com:" = None
  /\ normaliseRemoteToHttps "git@:org/repo" = None
  /\ normaliseRemoteToHttps "ssh://git@github.com" = None
  /\ normaliseRemoteToHttps "ssh://git@/org/repo" = None.
Proof.
  intros r. unfold normaliseRemoteToHttps. fold r.
  split; [|split; [|split; [|split; [|split]]]].
  - intros [-> | ->]; [reflexivity|]. now rewrite orb_true_r.
  - intros host path E Hh Hfree Hp Hline. rewrite E.
    replace (startsWith ("git@" ++ host ++ ":" ++ path) "http://")
      with false by reflexivity.
    replace (startsWith ("git@" ++ host ++ ":" ++ path) "https://")
      with false by reflexivity.
    cbn [orb]. now rewrite match_scpLike_form.
  - intros host path E Hh Hfree Hp Hline. rewrite E.
    replace (startsWith ("ssh://git@" ++ host ++ "/" ++ path) "http://")
      with false by reflexivity.
    replace (startsWith ("ssh://git@" ++ host ++ "/" ++ path) "https://")
      with false by reflexivity.
    cbn [orb].
    replace (match_scpLike ("ssh://git@" ++ host ++ "/" ++ path))
      with (@None (string * string)) by reflexivity.
    now rewrite match_sshLike_form.
  - intros -> -> Hscp Hssh. cbn [orb].
    destruct (match_scpLike r) as [[host path]|] eqn:Escp.
    { apply match_scpLike_inv in Escp. destruct Escp as (E & Hh & Hf & Hp & Hl).
      now destruct (Hscp host path Hh Hf Hp Hl). }
    destruct (match_sshLike r) as [[host path]|] eqn:Essh; [|reflexivity].
    apply match_sshLike_inv in Essh. destruct Essh as (E & Hh & Hf & Hp & Hl).
    now destruct (Hssh host path Hh Hf Hp Hl).
  - intros -> -> Hscp Hssh. cbn [orb].
    unfold match_scpLike, match_sshLike. now rewrite Hscp, Hssh.
  - repeat split; vm_compute; reflexivity.
Qed.

Lemma normaliseRemoteToHttps_forms_witness :
  normaliseRemoteToHttps "ssh://git@example.org/team/tool.git"
  = Some ("https://" ++ "example.org" ++ "/" ++ "team/tool")
  /\ normaliseRemoteToHttps "git@github.com" = None.
Proof.
  split.
  - apply (proj1 (proj2 (proj2
             (normaliseRemoteToHttps_forms "ssh://git@example.org/team/tool.git")))
             "example.org" "team/tool").
    + reflexivity.
    + discriminate.
    + reflexivity.
    + discriminate.
    + reflexivity.
  - apply (proj1 (proj2 (proj2 (proj2
             (normaliseRemoteToHttps_forms "git@github.com"))))).
    + reflexivity.
    + reflexivity.
    + intros host path _ _ _ _ E.
      change (stripSuffix ".git" (trim "git@github.com")) with "git@github.com" in E.
      apply (append_inv_head "git@" "github.com") in E.
      apply (f_equal (forallb_string (fun x => negb (Ascii.eqb x ":")))) in E.
      rewrite forallb_string_app in E.
      replace (forallb_string (fun x => negb (Ascii.eqb x ":")) "github.com")
        with true in E by reflexivity.
      cbn [append forallb_string] in E. rewrite Ascii.eqb_refl in E.
      cbn [negb andb] in E. rewrite andb_false_r in E. discriminate E.
    + intros host path _ _ _ _ E. discriminate E.
Defined.

Lemma plain_http_normal_form (t : string) :
  stripSuffix ".git" (trim ("http://" ++ t))
  = "http://" ++ stripSuffix ".git" (trimEnd t).
Proof.
  unfold trim. change ("http://" ++ t) with (String "h" ("ttp://" ++ t)).
  rewrite trimStart_head by reflexivity.
  change (String "h" ("ttp://" ++ t)) with ("http://" ++ t).
  rewrite trimEnd_app by reflexivity.
  cbn [append]. now rewrite !stripSuffix_cons by discriminate.
Qed.

(** C10. A remote that begins with [http://] is accepted: the result is the
    remote, trimmed, without one trailing [.git]; it still begins with
    [http://] and not with [https://]; and for a remote without white space
    around it, as [getOriginRemote] hands it over, the result is the remote
    itself but for that suffix. *)
Theorem normaliseRemoteToHttps_plain_http (remote : string) :
  startsWith remote "http://" = true ->
  exists r,
    normaliseRemoteToHttps remote = Some r
    /\ r = stripSuffix ".git" (trim remote)
    /\ startsWith r "http://" = true
    /\ startsWith r "https://" = false
    /\ (trim remote = remote ->
          (forall t, remote = t ++ ".git" -> r = t)
          /\ ((forall t, remote <> t ++ ".git") -> r = remote)).
Proof.
  intros Hp. apply startsWith_inv in Hp. destruct Hp as [t ->].
  exists (stripSuffix ".git" (trim ("http://" ++ t))).
  assert (Hhttp : startsWith (stripSuffix ".git" (trim ("http://" ++ t))) "http://"
                  = true).
  { rewrite plain_http_normal_form. apply startsWith_app. }
  split; [|split; [reflexivity|split; [exact Hhttp|split]]].
  - unfold normaliseRemoteToHttps. now rewrite Hhttp.
  - rewrite plain_http_normal_form. reflexivity.
  - intros ->. split.
    + intros u ->. apply stripSuffix_app.
    + apply stripSuffix_keep.
Qed.
End RemoteFacts.

Lemma normaliseRemoteToHttps_plain_http_witness :
  exists r,
    normaliseRemoteToHttps "http://example.org/team/tool.git" = Some r
    /\ r = stripSuffix ".git" (trim "http://example.org/team/tool.git")
    /\ startsWith r "http://" = true
    /\ startsWith r "https://" = false
    /\ (trim "http://example.org/team/tool.git" = "http://example.org/team/tool.git" ->
          (forall t, "http://example.org/team/tool.git" = t ++ ".git" -> r = t)
          /\ ((forall t, "http://example.org/team/tool.git" <> t ++ ".git") ->
              r = "http://example.org/team/tool.git")).
Proof.
  apply (normaliseRemoteToHttps_plain_http "http://example.org/team/tool.git").
  reflexivity.
Defined.

Example normaliseRemoteToHttps_plain_http_example :
  normaliseRemoteToHttps "http://example.org/team/tool.git"
  = Some "http://example.org/team/tool".
Proof. reflexivity. Qed.

(** ** The permalink *)

Section PermalinkFacts.
Local Open Scope list_scope.

Lemma encodeURIComponent_unit_free_slash (c : ascii) :
  free "/" (encodeURIComponent_unit c).
Proof. destruct c as [[] [] [] [] [] [] [] []]; vm_compute; reflexivity. Qed.

(** No slash survives the encoding of a segment. *)
Lemma encodeURIComponent_free_slash (s : string) :
  free "/" (encodeURIComponent s).
Proof.
  induction s as [|c s IH]; simpl; [reflexivity|].
  rewrite forallb_string_app, IH, encodeURIComponent_unit_free_slash.
  reflexivity.
Qed.

(** The claim of C7 as it stands fails for a base that ends in a slash: the
    result is not the concatenation that starts with the base itself. *)
Lemma buildFileUrl_counterexample :
  buildFileUrl "/" "https://github.com/org/repo/" "src/a b.ts" "abc123" 42
  <> ("https://github.com/org/repo/" ++ "/blob/" ++ encodeURIComponent "abc123"
        ++ "/" ++ join "/" (map encodeURIComponent ["src"; "a b.ts"])
        ++ "#L" ++ Number_toString 42)%string.
Proof. vm_compute. discriminate. Qed.

(** C7, amended.  For a path made of segments held together by the
    platform's separator, the permalink is the base without one trailing
    slash, then [/blob/], the encoded commit, a slash, the segments encoded
    one by one and joined by slashes (no encoded segment holds a slash), then
    [#L] and the line.  A base that does not end in a slash is used as it
    is.  The listed example holds. *)
Theorem buildFileUrl_concatenation
    (sep : ascii) (remoteHttps commit : string) (segments : list string)
    (oneBasedLine : Z) :
  segments <> [] ->
  Forall (fun s => free sep s /\ free "/" s) segments ->
  buildFileUrl sep remoteHttps (join (String sep "") segments) commit oneBasedLine
  = (stripSuffix "/" remoteHttps ++ "/blob/" ++ encodeURIComponent commit ++ "/"
       ++ join "/" (map encodeURIComponent segments)
       ++ "#L" ++ Number_toString oneBasedLine)%string
  /\ Forall (fun s => free "/" s) (map encodeURIComponent segments)
  /\ ((forall t, remoteHttps <> (t ++ "/")%string) ->
      stripSuffix "/" remoteHttps = remoteHttps)
  /\ (forall t, stripSuffix "/" (t ++ "/") = t)
  /\ buildFileUrl "/" "https://github.com/org/repo" "src/a b.ts" "abc123..." 42
     = "https://github.com/org/repo/blob/abc123.../src/a%20b.ts#L42"%string.
Proof.
  intros Hne Hall. split; [|split; [|split; [|split]]].
  - unfold buildFileUrl. cbv zeta. rewrite (split_join sep segments).
    + rewrite (split_join "/" segments); [reflexivity|exact Hne|].
      revert Hall. apply Forall_impl. tauto.
    + exact Hne.
    + revert Hall. apply Forall_impl. tauto.
  - apply Forall_forall. intros s Hin. apply in_map_iff in Hin.
    destruct Hin as (s0 & <- & _). apply encodeURIComponent_free_slash.
  - apply stripSuffix_keep.
  - intros t. apply stripSuffix_app.
  - vm_compute. reflexivity.
Qed.
End PermalinkFacts.

Lemma buildFileUrl_concatenation_witness :
  buildFileUrl "\" "https://example.org/team/tool/"
    (join "\" ["lib"; "my file.ts"]) "0123abcd" 7
  = (stripSuffix "/" "https://example.org/team/tool/" ++ "/blob/"
       ++ encodeURIComponent "0123abcd" ++ "/"
       ++ join "/" (map encodeURIComponent ["lib"; "my file.ts"])
       ++ "#L" ++ Number_toString 7)%string.
Proof.
  apply (buildFileUrl_concatenation "\" "https://example.org/team/tool/"
           "0123abcd" ["lib"; "my file.ts"] 7).
  - discriminate.
  - repeat constructor.
Defined.

(** ** Running the handlers *)

Section ServerFacts.
Context {P : Platform}.
Local Open Scope list_scope.

Lemma blame_invocations_app (a b : list effect) :
  blame_invocations (a ++ b) = (blame_invocations a + blame_invocations b)%nat.
Proof. unfold blame_invocations. now rewrite filter_app, length_app. Qed.

Lemma warnings_app (a b : list effect) : warnings (a ++ b) = warnings a ++ warnings b.
Proof. apply flat_map_app. Qed.

Lemma open_requests_app (a b : list effect) :
  open_requests (a ++ b) = open_requests a ++ open_requests b.
Proof. apply flat_map_app. Qed.

(** [computeKey] leaves the cache alone, and its result and effects are
    those of the world. *)
Lemma computeKey_run (w : World) (filePath : string) (s : Server) :
  computeKey w filePath s
  = Some (keyOf w filePath,
          {| lineCache := lineCache s;
             trace := trace s ++ computeKey_effects w filePath |}).
Proof.
  unfold keyOf, computeKey_effects, computeKey, gitRootForFile, gitHead,
    execFileAsync, bind, ret, emit, fresh. cbn [lineCache trace app].
  destruct (git w ["-C"; path_dirname filePath; "rev-parse"; "--show-toplevel"])
    as [out|]; cbn [lineCache trace app].
  - destruct (trimmed_or_null out) as [r|]; cbn [lineCache trace app].
    + rewrite <- !app_assoc. reflexivity.
    + reflexivity.
  - reflexivity.
Qed.

(** [computeKey] runs no blame and shows nothing. *)
Lemma computeKey_effects_quiet (w : World) (filePath : string) :
  blame_invocations (computeKey_effects w filePath) = 0%nat
  /\ warnings (computeKey_effects w filePath) = []
  /\ open_requests (computeKey_effects w filePath) = [].
Proof.
  unfold computeKey_effects, computeKey, gitRootForFile, gitHead,
    execFileAsync, bind, ret, emit, fresh. cbn [lineCache trace app].
  destruct (git w ["-C"; path_dirname filePath; "rev-parse"; "--show-toplevel"])
    as [out|]; cbn [lineCache trace app].
  - destruct (trimmed_or_null out) as [r|]; cbn [lineCache trace app];
      repeat split; reflexivity.
  - repeat split; reflexivity.
Qed.

Lemma getOriginRemote_run (w : World) (ck : Key) (s : Server) :
  getOriginRemote w (root ck) s
  = Some (remoteOf w ck,
          {| lineCache := lineCache s;
             trace := trace s ++ [ExecGit ["-C"; root ck; "remote"; "get-url"; "origin"]] |}).
Proof. reflexivity. Qed.

(** When the capacity is positive the eviction loop returns and keeps the
    youngest entry; what it leaves is an end of the map. *)
Lemma evict_keeps_last {K V : Type} (max : Z) (m : Map K V) (x : K * V) :
  0 < max ->
  exists older kept, m = older ++ kept /\ evict max (m ++ [x]) = Some (kept ++ [x]).
Proof.
  intros Hmax. induction m as [|[k v] m IH].
  - exists [], []. split; [reflexivity|]. apply evict_fits.
    unfold Map_size. simpl. lia.
  - destruct IH as (older & kept & -> & Hev).
    cbn [app evict]. fold (@app (K * V)).
    destruct (Map_size ((k, v) :: (older ++ kept) ++ [x]) >? max).
    + exists ((k, v) :: older), kept. split; [reflexivity|exact Hev].
    + exists [], ((k, v) :: older ++ kept). split; reflexivity.
Qed.

Lemma Map_has_app_r {K V : Type} `{EqKey K} (a b : Map K V) (k : K) :
  Map_has (a ++ b) k = false -> Map_has b k = false.
Proof.
  rewrite !Map_has_false. unfold Map_keys. rewrite map_app, in_app_iff. tauto.
Qed.

Lemma Map_has_delete_other {K V : Type} `{EqKey K} (m : Map K V) (k k' : K) :
  Map_has m k' = false -> Map_has (Map_delete m k) k' = false.
Proof.
  rewrite !Map_has_false. unfold Map_keys, Map_delete. rewrite !in_map_iff.
  intros Hn ([k2 v2] & E & Hin). apply filter_In in Hin.
  apply Hn. exists (k2, v2). tauto.
Qed.

(** A [set] with a positive capacity returns; the key then holds the value,
    and no other key has appeared. *)
Lemma LruCache_set_spec {K V : Type} `{EqKey K} (max : Z) (m : Map K V) (k : K) (v : V) :
  0 < max ->
  exists m', LruCache_set max m k v = Some m'
    /\ Map_get m' k = Some v
    /\ (forall k', k' <> k -> Map_has m k' = false -> Map_has m' k' = false).
Proof.
  intros Hmax. rewrite LruCache_set_eq.
  destruct (evict_keeps_last max (Map_delete m k) (k, v) Hmax)
    as (older & kept & Hsplit & ->).
  exists (kept ++ [(k, v)]). split; [reflexivity|].
  assert (Hk : Map_has kept k = false).
  { apply (Map_has_app_r older). rewrite <- Hsplit. apply Map_has_delete. }
  split; [now apply Map_get_app_fresh|].
  intros k' Hne Hout. unfold Map_has. rewrite Map_get_app_other by congruence.
  fold (Map_has kept k'). apply (Map_has_app_r older). rewrite <- Hsplit.
  now apply Map_has_delete_other.
Qed.

(** A hit of [get] keeps the value under the key and brings no other key. *)
Lemma LruCache_get_spec {K V : Type} `{EqKey K} (m : Map K V) (k : K) (v : V) :
  Map_get m k = Some v ->
  exists m', LruCache_get m k = (Some v, m')
    /\ Map_get m' k = Some v
    /\ (forall k', k' <> k -> Map_has m k' = false -> Map_has m' k' = false).
Proof.
  intros Hget. rewrite (LruCache_get_hit m k v Hget). eexists.
  split; [reflexivity|].
  split; [apply Map_get_app_fresh, Map_has_delete|].
  intros k' Hne Hout. unfold Map_has. rewrite Map_get_app_other by congruence.
  fold (Map_has (Map_delete m k) k'). now apply Map_has_delete_other.
Qed.

Lemma evict_keeps_suffix {K V : Type} (max : Z) (m rest : Map K V) :
  Map_size rest <= max ->
  exists older kept, m = older ++ kept /\ evict max (m ++ rest) = Some (kept ++ rest).
Proof.
  intros Hfit. induction m as [|[k v] m IH].
  - exists [], []. split; [reflexivity|]. now apply evict_fits.
  - destruct IH as (older & kept & -> & Hev).
    cbn [app evict]. fold (@app (K * V)).
    destruct (Map_size ((k, v) :: (older ++ kept) ++ rest) >? max).
    + exists ((k, v) :: older), kept. split; [reflexivity|exact Hev].
    + exists [], ((k, v) :: older ++ kept). split; reflexivity.
Qed.

Section HeldFacts.
Context {K V : Type} `{EqKey K}.
Implicit Types (m : Map K V) (k : K) (v : V).

Lemma held_weaken m k v n n' : (n <= n')%nat -> held m k v n -> held m k v n'.
Proof.
  intros Hle (older & younger & E & Hout & Hlen).
  exists older, younger. repeat split; auto. lia.
Qed.

Lemma held_get m k v n : held m k v n -> Map_get m k = Some v.
Proof.
  intros (older & younger & -> & Hout & _).
  induction older as [|[k' v'] older IH]; simpl.
  - now rewrite key_eqb_refl.
  - simpl in Hout. rewrite key_eqb_neq by tauto. apply IH. tauto.
Qed.

Lemma Map_delete_keys m k k' :
  In k' (Map_keys (Map_delete m k)) -> In k' (Map_keys m).
Proof.
  unfold Map_keys, Map_delete. rewrite !in_map_iff.
  intros (kv & E & Hin). apply filter_In in Hin. exists kv. tauto.
Qed.

(** The entry that was touched last is held with nothing younger. *)
Lemma held_touched m k v : held (Map_delete m k ++ [(k, v)]) k v 0.
Proof.
  exists (Map_delete m k), []. split; [reflexivity|].
  split; [apply Map_delete_notin | simpl; lia].
Qed.

(** Touching another key leaves the entry, with one more younger entry. *)
Lemma held_delete_other m k v n k' v' :
  k' <> k -> held m k v n ->
  exists older younger,
    Map_delete m k' ++ [(k', v')] = older ++ (k, v) :: younger ++ [(k', v')]
    /\ ~ In k (Map_keys older) /\ (List.length younger <= n)%nat.
Proof.
  intros Hne (older & younger & -> & Hout & Hlen).
  exists (Map_delete older k'), (Map_delete younger k'). split; [|split].
  - unfold Map_delete. rewrite filter_app. cbn [filter fst].
    rewrite key_eqb_neq by congruence. cbn [negb].
    now rewrite <- app_assoc.
  - intros Hin. apply Hout. now apply Map_delete_keys in Hin.
  - pose proof (Map_delete_length younger k'). lia.
Qed.

Lemma held_after_get m k v n k' :
  k' <> k -> held m k v n -> held (snd (LruCache_get m k')) k v (S n).
Proof.
  intros Hne Hheld. destruct (Map_get m k') as [v'|] eqn:Hget.
  - rewrite (LruCache_get_hit m k' v' Hget). cbn [snd].
    destruct (held_delete_other m k v n k' v' Hne Hheld)
      as (older & younger & -> & Hout & Hlen).
    exists older, (younger ++ [(k', v')]). repeat split; auto.
    rewrite length_app. simpl. lia.
  - rewrite (LruCache_get_miss m k' Hget). cbn [snd].
    now apply (held_weaken m k v n (S n)); [lia|].
Qed.

Lemma held_after_set (max : Z) m k v n k' v' :
  k' <> k -> Z.of_nat n + 2 <= max -> held m k v n ->
  exists m', LruCache_set max m k' v' = Some m' /\ held m' k v (S n).
Proof.
  intros Hne Hroom Hheld. rewrite LruCache_set_eq.
  destruct (held_delete_other m k v n k' v' Hne Hheld)
    as (older & younger & -> & Hout & Hlen).
  destruct (evict_keeps_suffix max older ((k, v) :: younger ++ [(k', v')]))
    as (gone & kept & -> & ->).
  { unfold Map_size. cbn [List.length]. rewrite length_app. simpl. lia. }
  eexists. split; [reflexivity|].
  exists kept, (younger ++ [(k', v')]). split; [reflexivity|]. split.
  - intros Hin. apply Hout. unfold Map_keys. rewrite map_app, in_app_iff. now right.
  - rewrite length_app. simpl. lia.
Qed.

(** A [set] with a positive capacity leaves its entry held. *)
Lemma held_set (max : Z) m k v :
  0 < max -> exists m', LruCache_set max m k v = Some m' /\ held m' k v 0.
Proof.
  intros Hmax. rewrite LruCache_set_eq.
  destruct (evict_keeps_last max (Map_delete m k) (k, v) Hmax)
    as (older & kept & Hsplit & ->).
  eexists. split; [reflexivity|]. exists kept, []. split; [reflexivity|].
  split; [|simpl; lia]. intros Hin.
  apply (Map_delete_notin m k). rewrite Hsplit.
  unfold Map_keys. rewrite map_app, in_app_iff. now right.
Qed.
End HeldFacts.

(** Outside a repository the cached query answers nothing and runs no blame. *)
Lemma blameSingleLineCached_no_key (w : World) (filePath : string) (line : Z) (s : Server) :
  keyOf w filePath = None ->
  blameSingleLineCached w filePath line s
  = Some (None, {| lineCache := lineCache s;
                   trace := trace s ++ computeKey_effects w filePath |}).
Proof.
  intros Hkey. unfold blameSingleLineCached, bind.
  now rewrite computeKey_run, Hkey.
Qed.

(** The cached query inside a repository: it returns; on a hit it answers
    the cached value with no effect beyond those of [computeKey]; on a miss
    it answers what one blame gives; in both cases the key then holds the
    answer, and no other key has appeared. *)
Lemma blameSingleLineCached_key (w : World) (filePath : string) (line : Z)
    (ck : Key) (s : Server) :
  keyOf w filePath = Some ck ->
  let k := cacheKeyOf filePath line (key ck) in
  exists (answer : option BlameInfo) (m : Map string (option BlameInfo))
         (blames : list effect),
    blameSingleLineCached w filePath line s
    = Some (answer, {| lineCache := m;
                       trace := trace s ++ computeKey_effects w filePath ++ blames |})
    /\ held m k answer 0
    /\ (forall k', k' <> k -> Map_has (lineCache s) k' = false -> Map_has m k' = false)
    /\ (forall hit, Map_get (lineCache s) k = Some hit -> answer = hit /\ blames = [])
    /\ (Map_get (lineCache s) k = None ->
          answer = blameOf w ck line
          /\ blames = [ExecGit (blameArgs (root ck) (rel ck) line)]).
Proof.
  intros Hkey k. unfold blameSingleLineCached, bind.
  rewrite computeKey_run, Hkey. fold k.
  unfold lineCache_get. cbn [lineCache trace].
  destruct (Map_get (lineCache s) k) as [hit|] eqn:Hget.
  - destruct (LruCache_get_spec (lineCache s) k hit Hget) as (m & Hm & _ & Hothers).
    rewrite Hm. exists hit, m, []. unfold ret. rewrite app_nil_r.
    split; [reflexivity|]. split.
    { rewrite (LruCache_get_hit _ _ _ Hget) in Hm. injection Hm as <-.
      apply held_touched. }
    split; [exact Hothers|].
    split; [intros ? [= <-]; auto | discriminate].
  - rewrite (LruCache_get_miss (lineCache s) k Hget).
    unfold blameSingleLineUncached, execFileAsync, bind, ret, emit, lineCache_set.
    cbn [lineCache trace]. fold (blameOf w ck line).
    destruct (LruCache_set_spec lineCache_max (lineCache s) k (blameOf w ck line))
      as (m & Hm & _ & Hothers); [reflexivity|].
    destruct (held_set lineCache_max (lineCache s) k (blameOf w ck line))
      as (m' & Hm' & Hheld); [reflexivity|].
    rewrite Hm in Hm'. injection Hm' as <-. rewrite Hm.
    exists (blameOf w ck line), m, [ExecGit (blameArgs (root ck) (rel ck) line)].
    rewrite <- app_assoc.
    split; [reflexivity|]. split; [exact Hheld|]. split; [exact Hothers|].
    split; [discriminate | auto].
Qed.

(** A query leaves an entry of the cache where it is, behind at most one
    more entry, as long as the capacity is not reached. *)
Lemma blameSingleLineCached_keeps (w : World) (filePath : string) (line : Z)
    (s : Server) (k : string) (v : option BlameInfo) (n : nat) :
  held (lineCache s) k v n -> Z.of_nat n + 2 <= lineCache_max ->
  exists answer s',
    blameSingleLineCached w filePath line s = Some (answer, s')
    /\ held (lineCache s') k v (S n).
Proof.
  intros Hheld Hroom. destruct (keyOf w filePath) as [ck|] eqn:Hkey.
  - unfold blameSingleLineCached, bind. rewrite computeKey_run, Hkey.
    set (k' := cacheKeyOf filePath line (key ck)).
    unfold lineCache_get. cbn [lineCache trace].
    destruct (String.eqb_spec k' k) as [->|Hne].
    + pose proof (held_get _ _ _ _ Hheld) as Hget.
      rewrite (LruCache_get_hit _ _ _ Hget). unfold ret.
      eexists; eexists. split; [reflexivity|]. cbn [lineCache].
      apply (held_weaken _ _ _ 0); [lia | apply held_touched].
    + pose proof (held_after_get (lineCache s) k v n k' Hne Hheld) as Hafter.
      destruct (Map_get (lineCache s) k') as [hit|] eqn:Hget.
      * rewrite (LruCache_get_hit _ _ _ Hget) in *. unfold ret.
        eexists; eexists. split; [reflexivity|]. exact Hafter.
      * rewrite (LruCache_get_miss _ _ Hget).
        unfold blameSingleLineUncached, execFileAsync, bind, ret, emit,
          lineCache_set. cbn [lineCache trace].
        destruct (held_after_set lineCache_max (lineCache s) k v n k'
                    (blameOf w ck line) Hne Hroom Hheld) as (m' & Hset & Hheld').
        fold (blameOf w ck line). rewrite Hset.
        eexists; eexists. split; [reflexivity|]. exact Hheld'.
  - rewrite (blameSingleLineCached_no_key w filePath line s Hkey).
    eexists; eexists. split; [reflexivity|]. cbn [lineCache].
    now apply (held_weaken _ _ _ n); [lia|].
Qed.

(** Fewer queries than the capacity do not push an entry out. *)
Lemma blameQueries_keep (queries : list (World * string * Z)) (s : Server)
    (k : string) (v : option BlameInfo) (n : nat) :
  held (lineCache s) k v n ->
  Z.of_nat (n + List.length queries) < lineCache_max ->
  exists s',
    blameQueries queries s = Some (tt, s')
    /\ held (lineCache s') k v (n + List.length queries).
Proof.
  revert s n. induction queries as [|[[w filePath] line] queries IH];
    intros s n Hheld Hroom.
  - exists s. split; [reflexivity|]. now rewrite Nat.add_0_r.
  - cbn [blameQueries List.length] in *. unfold bind.
    destruct (blameSingleLineCached_keeps w filePath line s k v n Hheld)
      as (answer & s1 & -> & Hheld1); [lia|].
    destruct (IH s1 (S n) Hheld1) as (s' & -> & Hheld'); [lia|].
    exists s'. split; [reflexivity|].
    now replace (n + S (List.length queries))%nat
      with (S n + List.length queries)%nat by lia.
Qed.
End ServerFacts.

(** ** Saving, and the follow-up command *)

Section HandlerClaims.
Context {P : Platform}.
Local Open Scope list_scope.



Lemma blameSingleLineCached_returns (w : World) (filePath : string) (line : Z)
    (s : Server) :
  exists answer s', blameSingleLineCached w filePath line s = Some (answer, s').
Proof.
  destruct (keyOf w filePath) as [ck|] eqn:Hkey.
  - destruct (blameSingleLineCached_key w filePath line ck s Hkey)
      as (answer & m & blames & Hrun & _). eauto.
  - rewrite (blameSingleLineCached_no_key w filePath line s Hkey). eauto.
Qed.

(** The code action handler returns, with no action or with one; the
    command of an action it offers is the open command, on the URI that was
    asked about, which is not empty and resolves to a file path, and on a
    line that is not zero. *)
Lemma onCodeAction_offers (w : World) (uri : string) (startLine : Z) (s : Server) :
  0 <= startLine ->
  exists actions s',
    onCodeAction w uri startLine s = Some (actions, s')
    /\ (List.length actions <= 1)%nat
    /\ forall a, In a actions ->
         action_command a
         = {| command := CMD_OPEN; arg_uri := Some uri;
              arg_line := Some (startLine + 1) |}
         /\ uri <> ""%string /\ startLine + 1 <> 0
         /\ exists filePath, uriToFsPath uri = Some filePath.
Proof.
  intros Hline. unfold onCodeAction.
  destruct (document_open w uri); cbn [negb];
    [|exists [], s; split; [reflexivity|split; [simpl; lia | intros a []]]].
  destruct (uriToFsPath uri) as [filePath|] eqn:Hpath;
    [|exists [], s; split; [reflexivity|split; [simpl; lia | intros a []]]].
  assert (Huri : uri <> ""%string).
  { intros ->. unfold uriToFsPath in Hpath.
    rewrite URL_protocol_empty in Hpath. discriminate. }
  unfold bind.
  destruct (blameSingleLineCached_returns w filePath (startLine + 1) s)
    as (answer & s' & ->).
  destruct answer as [info|]; unfold ret.
  - eexists; eexists. split; [reflexivity|]. split; [simpl; lia|].
    intros a [<-|[]]. cbn [action_command].
    split; [reflexivity|]. split; [exact Huri|]. split; [lia|]. eauto.
  - exists [], s'. split; [reflexivity|split; [simpl; lia | intros a []]].
Qed.

(** The follow-up command, run step by step. *)
Lemma onExecuteCommand_run
    (w : World) (uri filePath : string) (line : Z) (s : Server) :
  uri <> ""%string -> line <> 0 -> uriToFsPath uri = Some filePath ->
  exists s' shown,
    onExecuteCommand w
      {| command := CMD_OPEN; arg_uri := Some uri; arg_line := Some line |} s
    = Some (tt, s')
    /\ trace s' = trace s ++ shown
    /\ match keyOf w filePath with
       | None =>
           warnings shown = ["Not in a git repo (or git not available)."%string]
           /\ open_requests shown = []
       | Some ck =>
           match remoteOf w ck,
                 match Map_get (lineCache s) (cacheKeyOf filePath line (key ck)) with
                 | Some hit => hit
                 | None => blameOf w ck line
                 end
           with
           | None, _ =>
               warnings shown = ["No 'origin' remote found."%string]
               /\ open_requests shown = []
           | Some _, None =>
               warnings shown = ["No blame info for that line."%string]
               /\ open_requests shown = []
           | Some remote, Some i =>
               match normaliseRemoteToHttps remote with
               | None =>
                   warnings shown = [("Unsupported remote URL: " ++ remote)%string]
                   /\ open_requests shown = []
               | Some base =>
                   warnings shown = []
                   /\ open_requests shown
                      = [buildFileUrl path_sep base (rel ck) (commit i) line]
               end
           end
       end.
Proof.
  intros Huri Hline Hpath. unfold onExecuteCommand. cbn [command arg_uri arg_line].
  rewrite String.eqb_refl. cbn [negb].
  destruct (String.eqb_spec uri "") as [E|_]; [congruence|].
  destruct (Z.eqb_spec line 0) as [E|_]; [congruence|]. cbn [orb].
  rewrite Hpath. unfold bind at 1. rewrite computeKey_run.
  destruct (computeKey_effects_quiet w filePath) as (_ & Hkw & Hko).
  destruct (keyOf w filePath) as [ck|] eqn:Hkey.
  - unfold bind at 1. rewrite getOriginRemote_run. cbn [lineCache trace].
    unfold bind at 1.
    destruct (blameSingleLineCached_key w filePath line ck
                {| lineCache := lineCache s;
                   trace := (trace s ++ computeKey_effects w filePath)
                              ++ [ExecGit ["-C"; root ck; "remote"; "get-url"; "origin"]] |}
                Hkey)
      as (answer & m & blames & -> & _ & _ & Hhit & Hmiss).
    cbn [lineCache trace] in *.
    assert (Hanswer :
              answer = match Map_get (lineCache s) (cacheKeyOf filePath line (key ck)) with
                       | Some hit => hit
                       | None => blameOf w ck line
                       end
              /\ warnings blames = [] /\ open_requests blames = []).
    { destruct (Map_get (lineCache s) (cacheKeyOf filePath line (key ck))) as [hit|].
      - destruct (Hhit hit eq_refl) as [-> ->]. auto.
      - destruct (Hmiss eq_refl) as [-> ->]. auto. }
    destruct Hanswer as (<- & Hbw & Hbo). clear Hhit Hmiss.
    assert (Hquiet : forall tail : list effect,
               warnings (computeKey_effects w filePath
                         ++ [ExecGit ["-C"; root ck; "remote"; "get-url"; "origin"]]
                         ++ computeKey_effects w filePath ++ blames ++ tail)
               = warnings tail
               /\ open_requests (computeKey_effects w filePath
                         ++ [ExecGit ["-C"; root ck; "remote"; "get-url"; "origin"]]
                         ++ computeKey_effects w filePath ++ blames ++ tail)
                  = open_requests tail).
    { intros tail.
      rewrite !warnings_app, !open_requests_app, Hkw, Hko, Hbw, Hbo. auto. }
    destruct (remoteOf w ck) as [remote|].
    + destruct answer as [i|].
      * destruct (normaliseRemoteToHttps remote) as [base|].
        -- unfold openUrlOrShow, bind, emit, ret. cbn [lineCache trace].
           destruct (showDocument w _); cbn [lineCache trace];
             eexists; eexists;
             (split; [reflexivity|]);
             (split; [cbn [trace]; rewrite <- ?app_assoc; reflexivity|]);
             match goal with
             | |- warnings (_ ++ _ ++ _ ++ _ ++ ?tail) = _ /\ _ =>
                 destruct (Hquiet tail) as [-> ->]
             end; split; reflexivity.
        -- unfold emit. cbn [lineCache trace]. eexists; eexists.
           split; [reflexivity|].
           split; [cbn [trace]; rewrite <- ?app_assoc; reflexivity|].
           destruct (Hquiet [ShowWarning ("Unsupported remote URL: " ++ remote)%string])
             as [-> ->].
           split; reflexivity.
      * unfold emit. cbn [lineCache trace]. eexists; eexists.
        split; [reflexivity|].
        split; [cbn [trace]; rewrite <- ?app_assoc; reflexivity|].
        destruct (Hquiet [ShowWarning "No blame info for that line."]) as [-> ->].
        split; reflexivity.
    + unfold emit. cbn [lineCache trace]. eexists; eexists.
      split; [reflexivity|].
      split; [cbn [trace]; rewrite <- ?app_assoc; reflexivity|].
      destruct (Hquiet [ShowWarning "No 'origin' remote found."]) as [-> ->].
      split; reflexivity.
  - unfold emit. cbn [lineCache trace]. eexists; eexists.
    split; [reflexivity|].
    split; [cbn [trace]; rewrite <- ?app_assoc; reflexivity|].
    rewrite !warnings_app, !open_requests_app, Hkw, Hko.
    split; reflexivity.
Qed.

(** C9. The follow-up command with a file URI and a line: the handler
    returns, and what it shows is decided by the first of four checks that
    fails, in this order: no repository, no remote, no attribution for the
    line, remote not supported (its warning carries the raw remote); each
    failure shows exactly that one warning and asks to open nothing; when
    no check fails no warning is shown and one request to open the
    permalink is made. *)
Theorem onExecuteCommand_outcomes
    (w : World) (uri filePath : string) (line : Z) (s : Server) :
  uri <> ""%string -> line <> 0 -> uriToFsPath uri = Some filePath ->
  exists s' shown,
    onExecuteCommand w
      {| command := CMD_OPEN; arg_uri := Some uri; arg_line := Some line |} s
    = Some (tt, s')
    /\ trace s' = trace s ++ shown
    /\ (keyOf w filePath = None ->
        warnings shown = ["Not in a git repo (or git not available)."%string]
        /\ open_requests shown = [])
    /\ (forall ck, keyOf w filePath = Some ck ->
        let info :=
          match Map_get (lineCache s) (cacheKeyOf filePath line (key ck)) with
          | Some hit => hit
          | None => blameOf w ck line
          end in
        (remoteOf w ck = None ->
           warnings shown = ["No 'origin' remote found."%string]
           /\ open_requests shown = [])
        /\ (forall remote, remoteOf w ck = Some remote ->
            (info = None ->
               warnings shown = ["No blame info for that line."%string]
               /\ open_requests shown = [])
            /\ (forall i, info = Some i ->
                (normaliseRemoteToHttps remote = None ->
                   warnings shown = [("Unsupported remote URL: " ++ remote)%string]
                   /\ open_requests shown = [])
                /\ (forall base, normaliseRemoteToHttps remote = Some base ->
                    warnings shown = []
                    /\ open_requests shown
                       = [buildFileUrl path_sep base (rel ck) (commit i) line])))).
Proof.
  intros Huri Hline Hpath.
  destruct (onExecuteCommand_run w uri filePath line s Huri Hline Hpath)
    as (s' & shown & Hrun & Htrace & Hcases).
  exists s', shown. split; [exact Hrun|]. split; [exact Htrace|]. split.
  - intros Hkey. now rewrite Hkey in Hcases.
  - intros ck Hkey info. rewrite Hkey in Hcases. fold info in Hcases. split.
    + intros Hremote. now rewrite Hremote in Hcases.
    + intros remote Hremote. rewrite Hremote in Hcases. split.
      * intros Hinfo. now rewrite Hinfo in Hcases.
      * intros i Hinfo. rewrite Hinfo in Hcases. split.
        -- intros Hnorm. now rewrite Hnorm in Hcases.
        -- intros base Hnorm. now rewrite Hnorm in Hcases.
Qed.
End HandlerClaims.



(** The same query before and after a save, in a world that has not
    changed: the second one runs blame again. *)
Example save_forces_fresh_query_example :
  match (blameSingleLineCached example_world "/repo/a.ts" 3 ;;;
         blameSingleLineCached example_world "/repo/a.ts" 3 ;;;
         onDidSave ;;;
         blameSingleLineCached example_world "/repo/a.ts" 3) fresh with
  | Some (answer, s) =>
      option_map author answer = Some (Some "Ada")
      /\ blame_invocations (trace s) = 2%nat
  | None => False
  end.
Proof. vm_compute. split; reflexivity. Qed.

Lemma onExecuteCommand_outcomes_witness :
  exists s' shown,
    onExecuteCommand (P := example_platform) example_world
      {| command := CMD_OPEN; arg_uri := Some "file:///repo/a.ts";
         arg_line := Some 3 |} fresh
    = Some (tt, s')
    /\ trace s' = (trace fresh ++ shown)%list
    /\ warnings shown = ["No 'origin' remote found."]
    /\ open_requests shown = [].
Proof.
  destruct (onExecuteCommand_outcomes (P := example_platform) example_world
              "file:///repo/a.ts" "/repo/a.ts" 3 fresh)
    as (s' & shown & Hrun & Htrace & _ & Hkey).
  - discriminate.
  - discriminate.
  - reflexivity.
  - exists s', shown. split; [exact Hrun|]. split; [exact Htrace|].
    exact (proj1 (Hkey _ eq_refl) eq_refl).
Defined.

(** A trigger that is not the open command on a file URI with a line is
    passed over in silence. *)
Lemma onExecuteCommand_ignored {P : Platform} (w : World)
    (params : ExecuteCommandParams) (s : Server) :
  command params <> CMD_OPEN
  \/ arg_uri params = None \/ arg_uri params = Some ""
  \/ arg_line params = None \/ arg_line params = Some 0
  \/ (exists uri, arg_uri params = Some uri /\ uriToFsPath uri = None) ->
  onExecuteCommand w params s = Some (tt, s).
Proof.
  unfold onExecuteCommand. intros Hbad.
  destruct (String.eqb_spec (command params) CMD_OPEN) as [Hcmd|]; [|reflexivity].
  cbn [negb]. destruct (arg_uri params) as [uri|]; [|reflexivity].
  destruct (arg_line params) as [line|]; [|reflexivity].
  destruct (String.eqb_spec uri "") as [->|Huri]; [reflexivity|].
  destruct (Z.eqb_spec line 0) as [->|Hline]; [reflexivity|]. cbn [orb].
  destruct (uriToFsPath uri) eqn:Hpath; [|reflexivity].
  destruct Hbad as [H|[H|[H|[H|[H|(u & H & Hu)]]]]]; try congruence.
Qed.

(** ** Cache keys *)

Section KeyFacts.
Implicit Types (s t u x : string) (c : ascii).

Lemma append_eq_split s t u x :
  s ++ t = u ++ x ->
  exists y, (s = u ++ y /\ x = y ++ t) \/ (u = s ++ y /\ t = y ++ x).
Proof.
  revert u. induction s as [|c s IH]; intros u E.
  - exists u. right. auto.
  - destruct u as [|c' u].
    + exists (String c s). left. auto.
    + injection E as <- E. destruct (IH u E) as [y [[-> ->]|[-> ->]]];
        exists y; [left|right]; auto.
Qed.

Lemma append_snoc_inv s c u x :
  s ++ String c "" = u ++ x -> x = "" \/ exists y, x = y ++ String c "".
Proof.
  revert u. induction s as [|a s IH]; intros u E.
  - destruct u as [|a' u].
    + right. exists "". simpl in E. now rewrite <- E.
    + simpl in E. injection E as _ E.
      destruct u; [|discriminate E]. simpl in E. now left.
  - destruct u as [|a' u].
    + right. exists (String a s). simpl in E. now rewrite <- E.
    + simpl in E. injection E as _ E. exact (IH u E).
Qed.

Lemma append_inv_tail s u t : s ++ t = u ++ t -> s = u.
Proof.
  intros E. destruct (append_eq_split s t u t E) as [y [[-> Ey]|[-> Ey]]];
    (assert (y = "");
     [ apply (f_equal String.length) in Ey; rewrite length_append in Ey;
       destruct y; [reflexivity | simpl in Ey; lia]
     | subst y; now rewrite append_nil_r ]).
Qed.

(** The path and the line are read off a key prefix: the text of a line
    holds no colon. *)
Lemma path_line_inj s u (l l' : Z) :
  s ++ "::" ++ Number_toString l = u ++ "::" ++ Number_toString l' ->
  s = u /\ l = l'.
Proof.
  intros E.
  assert (Hcolon : forall z, free ":" (Number_toString z))
    by (intros z; apply Number_toString_free; [reflexivity|discriminate]).
  assert (Hsame : Number_toString l = Number_toString l' -> l = l').
  { intros El. apply (f_equal Number) in El.
    rewrite !Number_of_toString in El. now injection El. }
  rewrite <- !append_assoc in E.
  destruct (append_eq_split _ _ _ _ E) as [y [[Ey El]|[Ey El]]].
  - destruct (append_snoc_inv (s ++ ":") ":" (u ++ "::") y) as [->|[y' ->]].
    + now rewrite append_assoc.
    + rewrite append_nil_r in Ey. apply append_inv_tail in Ey. auto.
    + specialize (Hcolon l'). rewrite El, !forallb_string_app in Hcolon.
      simpl in Hcolon. rewrite andb_false_r in Hcolon. discriminate.
  - destruct (append_snoc_inv (u ++ ":") ":" (s ++ "::") y) as [->|[y' ->]].
    + now rewrite append_assoc.
    + rewrite append_nil_r in Ey. apply append_inv_tail in Ey. auto.
    + specialize (Hcolon l). rewrite El, !forallb_string_app in Hcolon.
      simpl in Hcolon. rewrite andb_false_r in Hcolon. discriminate.
Qed.

Lemma scan_app q s t : scan q (s ++ t) = scan (scan q s) t.
Proof. revert q. induction s as [|c s IH]; intros q; simpl; auto. Qed.

Lemma scan_3 s : scan 3 s = 3%nat.
Proof. induction s; simpl; auto. Qed.

(** Wherever the three opening code units of a token stand, the scanner
    ends in state 3. *)
Lemma scan_finds q s t :
  scan q (s ++ String "{" (String DQUOTE (String "h" t))) = 3%nat.
Proof.
  rewrite scan_app. generalize (scan q s) as q'. intros q'. simpl.
  destruct q' as [|[|[|[|q']]]]; simpl; apply scan_3.
Qed.

Lemma scan_step_low q c : (q < 2)%nat -> c <> DQUOTE -> (scan_step q c < 2)%nat.
Proof.
  intros Hq Hc. destruct q as [|[|q]]; [| |lia]; unfold scan_step;
    destruct (Ascii.eqb c "{"); try lia;
    destruct (Ascii.eqb_spec c DQUOTE); try congruence; simpl; lia.
Qed.

(** Without a double quote the scanner stays below state 2. *)
Lemma scan_unquoted q s : (q < 2)%nat -> free DQUOTE s -> (scan q s < 2)%nat.
Proof.
  revert q. induction s as [|c s IH]; intros q Hq; simpl; [auto|].
  rewrite andb_true_iff, negb_true_iff. intros [Hc Hs].
  apply IH; [|exact Hs]. apply scan_step_low; [exact Hq|].
  intros ->. discriminate Hc.
Qed.

Lemma scan_JSON_escape_unit q c :
  (q < 2)%nat -> (scan q (JSON_escape_unit c) < 2)%nat.
Proof.
  intros Hq.
  assert (Hq' : q = 0%nat \/ q = 1%nat) by lia.
  destruct Hq' as [-> | ->];
    destruct c as [[] [] [] [] [] [] [] []]; vm_compute; lia.
Qed.

(** Inside an escaped string every double quote follows a backslash, so
    the scanner stays below state 2 there as well. *)
Lemma scan_JSON_escape q s : (q < 2)%nat -> (scan q (JSON_escape s) < 2)%nat.
Proof.
  revert q. induction s as [|c s IH]; intros q Hq; simpl; [auto|].
  rewrite scan_app. apply IH. now apply scan_JSON_escape_unit.
Qed.
End KeyFacts.

Section TokenFacts.
Context {P : Platform}.
Local Open Scope list_scope.

Lemma scan_comma q : (q < 3)%nat -> scan q "," = 0%nat.
Proof. intros Hq. destruct q as [|[|[|q]]]; [reflexivity..|lia]. Qed.

Lemma scan_head_value (head : option string) :
  (scan 0 match head with Some h => JSON_string h | None => "null"%string end < 3)%nat.
Proof.
  destruct head as [h|]; [|cbn; lia].
  unfold JSON_string. cbn [scan]. change (scan_step 0 DQUOTE) with 0%nat.
  rewrite scan_app.
  pose proof (scan_JSON_escape 0 h ltac:(lia)) as Hq.
  destruct (scan 0 (JSON_escape h)) as [|[|q]]; cbn; lia.
Qed.

Lemma scan_number_value (d : option double) :
  (scan 0 match d with Some n => JSON_number n | None => "null"%string end < 2)%nat.
Proof.
  destruct d as [n|].
  - apply scan_unquoted; [lia | apply JSON_number_unquoted].
  - cbn. lia.
Qed.

(** A token opens with a brace, a double quote and [h], and these three do
    not stand together anywhere further inside it. *)
Lemma volatilityToken_shape (head : option string) (st : option (double * double)) :
  exists body,
    volatilityToken head st = String "{" (String DQUOTE (String "h" body))
    /\ (scan 0 (String DQUOTE (String "h" body)) < 3)%nat.
Proof.
  unfold volatilityToken, quoted.
  pose proof (scan_head_value head) as Hhead.
  pose proof (scan_number_value (option_map fst st)) as Hmtime.
  pose proof (scan_number_value (option_map snd st)) as Hsize.
  replace (match option_map fst st with
           | Some n => JSON_number n | None => "null"%string end)
    with (match st with
          | Some (mtimeMs, _) => JSON_number mtimeMs | None => "null"%string end)
    in Hmtime by (destruct st as [[m z]|]; reflexivity).
  replace (match option_map snd st with
           | Some n => JSON_number n | None => "null"%string end)
    with (match st with
          | Some (_, size) => JSON_number size | None => "null"%string end)
    in Hsize by (destruct st as [[m z]|]; reflexivity).
  set (vh := match head with Some h => JSON_string h | None => "null"%string end) in *.
  set (vm := match st with
             | Some (mtimeMs, _) => JSON_number mtimeMs | None => "null"%string end) in *.
  set (vs := match st with
             | Some (_, size) => JSON_number size | None => "null"%string end) in *.
  exists (("ead" ++ String DQUOTE "") ++ ":" ++ vh ++ ","
            ++ String DQUOTE ("mtimeMs" ++ String DQUOTE "") ++ ":" ++ vm ++ ","
            ++ String DQUOTE ("size" ++ String DQUOTE "") ++ ":" ++ vs ++ "}")%string.
  split; [reflexivity|].
  cbn [scan]. change (scan_step (scan_step 0 DQUOTE) "h") with 0%nat.
  rewrite !scan_app.
  change (scan (scan 0 "ead") (String DQUOTE "")) with 0%nat.
  change (scan 0 ":") with 0%nat.
  rewrite (scan_comma (scan 0 vh)) by exact Hhead.
  change (scan 0 (String DQUOTE ("mtimeMs" ++ String DQUOTE ""))) with 0%nat.
  change (scan 0 ":") with 0%nat.
  rewrite (scan_comma (scan 0 vm)) by lia.
  change (scan 0 (String DQUOTE ("size" ++ String DQUOTE ""))) with 0%nat.
  change (scan 0 ":") with 0%nat.
  destruct (scan 0 vs) as [|[|q]]; cbn; lia.
Qed.

(** No token ends in another token. *)
Lemma volatilityToken_no_inner (head head' : option string)
    (st st' : option (double * double)) (x : string) :
  volatilityToken head st = (x ++ volatilityToken head' st')%string -> x = ""%string.
Proof.
  destruct (volatilityToken_shape head st) as (body & -> & Hscan).
  destruct (volatilityToken_shape head' st') as (body' & -> & _).
  destruct x as [|c x]; [reflexivity|]. intros E. exfalso.
  cbn [append] in E. injection E as _ E.
  rewrite E, scan_finds in Hscan. lia.
Qed.

(** Distinct triples of path, line and token have distinct cache keys. *)
Lemma cacheKeyOf_inj (p p' : string) (l l' : Z) (head head' : option string)
    (st st' : option (double * double)) :
  cacheKeyOf p l (volatilityToken head st)
  = cacheKeyOf p' l' (volatilityToken head' st') ->
  p = p' /\ l = l' /\ volatilityToken head st = volatilityToken head' st'.
Proof.
  unfold cacheKeyOf. intros E.
  assert (E' : (((p ++ "::" ++ Number_toString l) ++ "::") ++ volatilityToken head st
                = ((p' ++ "::" ++ Number_toString l') ++ "::")
                    ++ volatilityToken head' st')%string).
  { now rewrite !append_assoc. }
  clear E. destruct (append_eq_split _ _ _ _ E') as [y [[Ey Et]|[Ey Et]]];
    apply volatilityToken_no_inner in Et as Hy; subst y;
    rewrite append_nil_r in Ey; cbn [append] in Et;
    apply append_inv_tail in Ey; apply path_line_inj in Ey;
    destruct Ey as [-> ->]; auto.
Qed.

Lemma keyOf_token (w : World) (filePath : string) (ck : Key) :
  keyOf w filePath = Some ck ->
  exists head st, key ck = volatilityToken head st.
Proof.
  unfold keyOf, computeKey, gitRootForFile, gitHead, execFileAsync, bind, ret,
    emit, fresh. cbn [lineCache trace app].
  destruct (git w ["-C"; path_dirname filePath; "rev-parse"; "--show-toplevel"])
    as [out|]; cbn [lineCache trace app]; [|discriminate].
  destruct (trimmed_or_null out) as [r|]; cbn [lineCache trace app]; [|discriminate].
  intros [= <-]. cbn [key]. eauto.
Qed.

Lemma blame_invocations_one (ck : Key) (line : Z) :
  blame_invocations [ExecGit (blameArgs (root ck) (rel ck) line)] = 1%nat.
Proof. reflexivity. Qed.

(** C2, amended.  Two blame queries in a repository.  When path, line and
    volatility token agree, and the second query comes after the first with
    no save in between and with fewer other queries in between than the
    cache has room for, the second query runs no blame and answers what the
    first answered.  When they differ in any of the three, the cache keys differ,
    so neither query is answered from the entry of the other: each of them
    whose own key is not yet in the cache runs one blame and answers what
    that blame gives. *)
Theorem cache_correctness
    (w1 w2 : World) (p1 p2 : string) (l1 l2 : Z) (ck1 ck2 : Key)
    (between : list (World * string * Z)) (s : Server) :
  keyOf w1 p1 = Some ck1 -> keyOf w2 p2 = Some ck2 ->
  let k1 := cacheKeyOf p1 l1 (key ck1) in
  let k2 := cacheKeyOf p2 l2 (key ck2) in
  exists r1 s1,
    blameSingleLineCached w1 p1 l1 s = Some (r1, s1)
    /\ ((p1, l1, key ck1) = (p2, l2, key ck2) ->
        Z.of_nat (List.length between) < lineCache_max ->
        exists s1' s2,
          blameQueries between s1 = Some (tt, s1')
          /\ blameSingleLineCached w2 p2 l2 s1' = Some (r1, s2)
          /\ blame_invocations (trace s2) = blame_invocations (trace s1'))
    /\ ((p1, l1, key ck1) <> (p2, l2, key ck2) ->
        k1 <> k2
        /\ exists r2 s2,
            blameSingleLineCached w2 p2 l2 s1 = Some (r2, s2)
            /\ (Map_has (lineCache s) k1 = false ->
                r1 = blameOf w1 ck1 l1
                /\ blame_invocations (trace s1) = S (blame_invocations (trace s)))
            /\ (Map_has (lineCache s) k2 = false ->
                r2 = blameOf w2 ck2 l2
                /\ blame_invocations (trace s2) = S (blame_invocations (trace s1)))).
Proof.
  intros Hkey1 Hkey2 k1 k2.
  destruct (blameSingleLineCached_key w1 p1 l1 ck1 s Hkey1)
    as (r1 & m1 & b1 & Hrun1 & Hheld1 & Hothers1 & Hhit1 & Hmiss1).
  fold k1 in Hheld1, Hothers1, Hhit1, Hmiss1.
  set (s1 := {| lineCache := m1;
                trace := trace s ++ computeKey_effects w1 p1 ++ b1 |}) in *.
  exists r1, s1. split; [exact Hrun1|].
  destruct (computeKey_effects_quiet w1 p1) as [Hq1 _].
  destruct (computeKey_effects_quiet w2 p2) as [Hq2 _].
  split.
  - intros [= -> -> Ekey] Hroom.
    assert (Ek : k2 = k1) by (unfold k1, k2; now rewrite Ekey).
    destruct (blameQueries_keep between s1 k1 r1 0 Hheld1 Hroom)
      as (s1' & Hbetween & Hheld).
    destruct (blameSingleLineCached_key w2 p2 l2 ck2 s1' Hkey2)
      as (r2 & m2 & b2 & Hrun2 & _ & _ & Hhit2 & _).
    fold k2 in Hhit2. rewrite Ek in Hhit2.
    destruct (Hhit2 r1 (held_get _ _ _ _ Hheld)) as [-> ->].
    eexists; eexists. split; [exact Hbetween|]. split; [exact Hrun2|].
    cbn [trace]. rewrite !blame_invocations_app, Hq2. cbn. lia.
  - intros Hdiff.
    assert (Hk : k1 <> k2).
    { unfold k1, k2. intros E.
      destruct (keyOf_token w1 p1 ck1 Hkey1) as (h1 & st1 & E1).
      destruct (keyOf_token w2 p2 ck2 Hkey2) as (h2 & st2 & E2).
      rewrite E1, E2 in E. apply cacheKeyOf_inj in E.
      destruct E as (-> & -> & E). apply Hdiff. now rewrite E1, E2, E. }
    split; [exact Hk|].
    destruct (blameSingleLineCached_key w2 p2 l2 ck2 s1 Hkey2)
      as (r2 & m2 & b2 & Hrun2 & _ & _ & _ & Hmiss2).
    fold k2 in Hmiss2.
    eexists; eexists. split; [exact Hrun2|]. split.
    + intros Hout. destruct Hmiss1 as [-> ->].
      { unfold Map_has in Hout. now destruct (Map_get (lineCache s) k1). }
      split; [reflexivity|]. unfold s1. cbn [trace].
      rewrite !blame_invocations_app, Hq1, blame_invocations_one. lia.
    + intros Hout. destruct Hmiss2 as [-> ->].
      { unfold s1. cbn [lineCache].
        specialize (Hothers1 k2 (not_eq_sym Hk) Hout).
        unfold Map_has in Hothers1. now destruct (Map_get m1 k2). }
      split; [reflexivity|]. cbn [trace].
      rewrite !blame_invocations_app, Hq2, blame_invocations_one. lia.
Qed.
End TokenFacts.

Lemma cache_correctness_witness :
  exists r1 s1,
    blameSingleLineCached example_world "/repo/a.ts" 3 fresh = Some (r1, s1)
    /\ exists s1' s2,
         blameQueries [(example_world, "/repo/b.ts", 3)] s1 = Some (tt, s1')
         /\ blameSingleLineCached example_world "/repo/a.ts" 3 s1' = Some (r1, s2)
         /\ blame_invocations (trace s2) = blame_invocations (trace s1').
Proof.
  destruct (cache_correctness (P := example_platform) example_world example_world
              "/repo/a.ts" "/repo/a.ts" 3 3 _ _
              [(example_world, "/repo/b.ts", 3)] fresh eq_refl eq_refl)
    as (r1 & s1 & Hrun1 & Hsame & _).
  exists r1, s1. split; [exact Hrun1|].
  apply Hsame; reflexivity.
Defined.

(** Two files, then the first one again: two blames in all. *)
Example cache_correctness_example :
  match (blameSingleLineCached example_world "/repo/a.ts" 3 ;;;
         blameSingleLineCached example_world "/repo/b.ts" 3 ;;;
         blameSingleLineCached example_world "/repo/a.ts" 3) fresh with
  | Some (_, s) => blame_invocations (trace s) = 2%nat
  | None => False
  end.
Proof. vm_compute. reflexivity. Qed.

(** The claim of C2 as it stands fails twice in the example world, where the
    token of a file never changes.  A save between two queries of the same
    path and line makes the second one run blame again; and of two queries
    that differ in their paths, the second runs no blame when its own key
    was cached by an earlier query. *)
Lemma cache_correctness_counterexample :
  match (blameSingleLineCached example_world "/repo/a.ts" 3 ;;; onDidSave) fresh with
  | Some (_, s1) =>
      match blameSingleLineCached example_world "/repo/a.ts" 3 s1 with
      | Some (_, s2) => blame_invocations (trace s2) <> blame_invocations (trace s1)
      | None => False
      end
  | None => False
  end
  /\ match (blameSingleLineCached example_world "/repo/b.ts" 3 ;;;
           blameSingleLineCached example_world "/repo/a.ts" 3) fresh with
     | Some (_, s1) =>
         match blameSingleLineCached example_world "/repo/b.ts" 3 s1 with
         | Some (_, s2) =>
             blame_invocations (trace s2) <> S (blame_invocations (trace s1))
         | None => False
         end
     | None => False
     end.
Proof. split; vm_compute; discriminate. Qed.

(** ** Further facts about the model *)

Section ModelFacts.
Local Open Scope list_scope.

(** A cache reached from the empty one never repeats a key, so dropping the
    first entry is deleting the oldest key. *)
Lemma recency_ordered_NoDup {K V : Type} `{EqKey K}
    (ops : list (cache_op K V)) (m : Map K V) :
  recency_ordered ops m -> NoDup (Map_keys m).
Proof.
  intros [_ Hsort]. induction Hsort as [|[k v] m Hs IH Hall]; simpl.
  - constructor.
  - constructor; [|exact IH]. intros Hin.
    unfold Map_keys in Hin. apply in_map_iff in Hin.
    destruct Hin as ([k' v'] & E & Hin). simpl in E. subst k'.
    rewrite Forall_forall in Hall. destruct (Hall _ Hin) as (t & t' & Et & Et' & Hlt).
    simpl in *. rewrite Et in Et'. injection Et' as <-. lia.
Qed.

Lemma run_NoDup {K V : Type} `{EqKey K} (C : Z) (ops : list (cache_op K V)) (m : Map K V) :
  0 <= C -> run C [] ops = Some m -> NoDup (Map_keys m).
Proof.
  intros HC Hrun. destruct (run_invariant C ops HC) as (m' & Hrun' & _ & Hord).
  rewrite Hrun in Hrun'. injection Hrun' as <-.
  now apply recency_ordered_NoDup with ops.
Qed.

(** X12. The phrases of [relativeFromUnixSeconds] by elapsed seconds [d]: below
    360 days they are the buckets of seconds, minutes, hours, days and
    months of 30 days; from 360 days on the count is of years of 365 days. *)
Lemma relativeFromUnixSeconds_buckets (sec nowMs : Z) :
  let d := Z.max 0 ((nowMs - sec * 1000) / 1000) in
  let phrase (n : Z) (word : string) :=
    (Number_toString n ++ " " ++ word ++ plural n ++ " ago")%string in
  (d < 10 -> relativeFromUnixSeconds sec nowMs = "just now"%string)
  /\ (10 <= d < 60 -> relativeFromUnixSeconds sec nowMs = phrase d "sec")
  /\ (60 <= d < 3600 -> relativeFromUnixSeconds sec nowMs = phrase (d / 60) "min")
  /\ (3600 <= d < 86400 ->
      relativeFromUnixSeconds sec nowMs = phrase (d / 3600) "hour")
  /\ (86400 <= d < 30 * 86400 ->
      relativeFromUnixSeconds sec nowMs = phrase (d / 86400) "day")
  /\ (30 * 86400 <= d < 360 * 86400 ->
      relativeFromUnixSeconds sec nowMs = phrase (d / (30 * 86400)) "month")
  /\ (360 * 86400 <= d ->
      relativeFromUnixSeconds sec nowMs = phrase (d / (365 * 86400)) "year").
Proof.
  intros d phrase. unfold relativeFromUnixSeconds. fold d.
  assert (Hd : 0 <= d) by (unfold d; lia).
  assert (Hh : d / 60 / 60 = d / 3600) by (rewrite Z.div_div by lia; reflexivity).
  assert (Hday : d / 60 / 60 / 24 = d / 86400)
    by (rewrite !Z.div_div by lia; reflexivity).
  assert (Hmon : d / 60 / 60 / 24 / 30 = d / (30 * 86400))
    by (rewrite !Z.div_div by lia; reflexivity).
  assert (Hyear : d / 60 / 60 / 24 / 365 = d / (365 * 86400))
    by (rewrite !Z.div_div by lia; reflexivity).
  rewrite Hyear, Hmon, Hday, Hh. unfold phrase.
  destruct (Z.ltb_spec d 10);
    [repeat split; intros; try (Z.to_euclidean_division_equations; lia); reflexivity|].
  destruct (Z.ltb_spec d 60);
    [repeat split; intros; try (Z.to_euclidean_division_equations; lia); reflexivity|].
  destruct (Z.ltb_spec (d / 60) 60);
    [repeat split; intros; try (Z.to_euclidean_division_equations; lia); reflexivity|].
  destruct (Z.ltb_spec (d / 3600) 24);
    [repeat split; intros; try (Z.to_euclidean_division_equations; lia); reflexivity|].
  destruct (Z.ltb_spec (d / 86400) 30);
    [repeat split; intros; try (Z.to_euclidean_division_equations; lia); reflexivity|].
  destruct (Z.ltb_spec (d / (30 * 86400)) 12);
    repeat split; intros; try (Z.to_euclidean_division_equations; lia); reflexivity.
Qed.

(** The plural suffix stands exactly when the count exceeds 1. *)
Lemma plural_spec (n : Z) :
  (1 < n -> plural n = "s"%string) /\ (n <= 1 -> plural n = ""%string).
Proof. unfold plural. destruct (Z.gtb_spec n 1); split; intros; try lia; reflexivity. Qed.
End ModelFacts.

(** The code action on line 3 of a file, and then its command: one request
    to open the permalink, and no warning. *)
Example follow_up_example :
  match (actions <- onCodeAction example_world_with_remote "file:///repo/src/a b.ts" 2 ;;
         match actions with
         | [a] => onExecuteCommand example_world_with_remote (action_command a)
         | _ => ret tt
         end) fresh with
  | Some (_, s) =>
      open_requests (trace s)
      = ["https://github.com/org/repo/blob/0123abcd/src/a%20b.ts#L3"]
      /\ warnings (trace s) = []
      /\ blame_invocations (trace s) = 1%nat
  | None => False
  end.
Proof. vm_compute. repeat split; reflexivity. Qed.

(* ================================================================= *)
(** * Further properties of the code *)

(** ** The cache class at its edges *)

Section LruEdges.
Context {K V : Type} `{EqKey K}.
Implicit Types (m : Map K V) (k : K) (v : V).
Local Open Scope list_scope.

Lemma evict_negative (max : Z) m : max < 0 -> evict max m = None.
Proof.
  intros Hmax. induction m as [|[k v] m IH]; cbn [evict].
  - destruct (Z.gtb_spec (Map_size (@nil (K * V))) max) as [_|Hle]; [reflexivity|].
    unfold Map_size in Hle. simpl in Hle. lia.
  - destruct (Z.gtb_spec (Map_size ((k, v) :: m)) max) as [_|Hle]; [exact IH|].
    unfold Map_size in Hle. simpl in Hle. lia.
Qed.

Lemma evict_zero m : evict 0 m = Some [].
Proof.
  induction m as [|[k v] m IH]; cbn [evict].
  - reflexivity.
  - destruct (Z.gtb_spec (Map_size ((k, v) :: m)) 0) as [_|Hle]; [exact IH|].
    unfold Map_size in Hle. simpl in Hle. lia.
Qed.

Lemma Map_get_delete_other m k k' :
  k' <> k -> Map_get (Map_delete m k) k' = Map_get m k'.
Proof.
  intros Hne. induction m as [|[k2 v2] m IH]; [reflexivity|].
  cbn [Map_delete filter fst Map_get].
  destruct (key_eqb_spec k2 k) as [->|Hk2]; cbn [negb].
  - rewrite key_eqb_neq by congruence. exact IH.
  - cbn [Map_get]. destruct (key_eqb k2 k'); [reflexivity | exact IH].
Qed.

Lemma Map_delete_permutation m k v :
  NoDup (Map_keys m) -> Map_get m k = Some v ->
  Permutation (Map_delete m k ++ [(k, v)]) m.
Proof.
  induction m as [|[k2 v2] m IH]; [discriminate|].
  intros Hnd Hget. pose proof Hnd as Hnd'.
  inversion Hnd as [|? ? Hout Hrest]; subst.
  cbn [Map_get] in Hget.
  destruct (key_eqb_spec k2 k) as [->|Hk2].
  - injection Hget as ->. rewrite (Map_delete_first m k v Hnd').
    apply Permutation_sym, Permutation_cons_append.
  - cbn [Map_delete filter fst]. rewrite key_eqb_neq by exact Hk2. cbn [negb app].
    apply perm_skip. now apply IH.
Qed.

(** X1. A cache whose capacity is below 1 holds nothing: with capacity 0
    every [set] leaves the cache empty, and with a negative capacity the
    eviction loop of [set] never exits, whatever the cache held. *)
Theorem LruCache_set_capacity_below_one (max : Z) m k v :
  max <= 0 ->
  LruCache_set max m k v = if max =? 0 then Some [] else None.
Proof.
  intros Hmax. rewrite LruCache_set_eq. destruct (Z.eqb_spec max 0) as [->|Hne].
  - apply evict_zero.
  - apply evict_negative. lia.
Qed.

(** X2. With a positive capacity, [set] returns, the cache stays within
    the capacity, and a [get] of the key just set answers the value just
    set (whatever the key held before) and leaves the cache as it is. *)
Theorem LruCache_set_then_get (max : Z) m k v :
  0 < max ->
  exists m', LruCache_set max m k v = Some m'
    /\ Map_size m' <= max
    /\ LruCache_get m' k = (Some v, m').
Proof.
  intros Hmax. rewrite LruCache_set_eq.
  destruct (evict_keeps_last max (Map_delete m k) (k, v) Hmax)
    as (older & kept & Hsplit & Hev).
  exists (kept ++ [(k, v)]). split; [exact Hev|].
  assert (Hk : Map_has kept k = false).
  { apply (Map_has_app_r older). rewrite <- Hsplit. apply Map_has_delete. }
  split.
  - destruct (evict_total max (Map_delete m k ++ [(k, v)])) as (m' & Hm' & Hsz); [lia|].
    rewrite Hev in Hm'. now injection Hm' as <-.
  - rewrite (LruCache_get_hit _ k v) by now apply Map_get_app_fresh.
    f_equal. f_equal. unfold Map_delete. rewrite filter_app. cbn [filter fst].
    rewrite key_eqb_refl. cbn [negb]. rewrite app_nil_r.
    now apply Map_delete_absent.
Qed.

(** X3. [get] answers what the map holds under the key and changes no
    lookup: every key holds afterwards what it held before.  On a map
    without repeated keys it only reorders the entries. *)
Theorem LruCache_get_keeps_contents m k :
  fst (LruCache_get m k) = Map_get m k
  /\ (forall k', Map_get (snd (LruCache_get m k)) k' = Map_get m k')
  /\ (NoDup (Map_keys m) -> Permutation (snd (LruCache_get m k)) m).
Proof.
  destruct (Map_get m k) as [v|] eqn:Hget.
  - rewrite (LruCache_get_hit m k v Hget). cbn [fst snd].
    split; [reflexivity|]. split.
    + intros k'. destruct (key_eqb_spec k k') as [<-|Hne].
      * rewrite Hget. apply Map_get_app_fresh, Map_has_delete.
      * rewrite Map_get_app_other by exact Hne.
        apply Map_get_delete_other. congruence.
    + intros Hnd. now apply Map_delete_permutation.
  - rewrite (LruCache_get_miss m k Hget). cbn [fst snd].
    split; [reflexivity|]. split; [reflexivity|]. intros _. apply Permutation_refl.
Qed.

Lemma run_keeps_held (C : Z) (ops : list (cache_op K V)) m k v (n : nat) :
  held m k v n ->
  Z.of_nat (n + List.length ops) < C ->
  Forall (fun o => forall v', o <> OpSet k v') ops ->
  exists m', run C m ops = Some m' /\ held m' k v (n + List.length ops).
Proof.
  revert m n. induction ops as [|o ops IH]; intros m n Hheld Hroom Hops.
  - exists m. split; [reflexivity|]. now rewrite Nat.add_0_r.
  - inversion Hops as [|? ? Ho Hrest]; subst.
    cbn [List.length] in Hroom.
    replace (n + List.length (o :: ops))%nat with (S n + List.length ops)%nat
      by (cbn [List.length]; lia).
    cbn [run]. destruct o as [k'|k' v']; cbn [step].
    + apply IH; [|lia|exact Hrest].
      destruct (key_eqb_spec k' k) as [->|Hne].
      * rewrite (LruCache_get_hit m k v (held_get m k v n Hheld)). cbn [snd].
        apply (held_weaken _ _ _ 0); [lia | apply held_touched].
      * now apply held_after_get.
    + assert (Hne : k' <> k) by (intros ->; now apply (Ho v')).
      destruct (held_after_set C m k v n k' v' Hne) as (m1 & -> & Hheld1);
        [lia | exact Hheld|].
      apply IH; [exact Hheld1 | lia | exact Hrest].
Qed.

(** X4. An entry that was just set outlives the next calls as long as they
    are fewer than the capacity: after [set(k, v)] and then fewer than [C]
    calls of [get] and [set], none of them a [set] on [k], the key [k]
    still holds [v]. *)
Theorem LruCache_recent_entry_survives (C : Z) m k v (ops : list (cache_op K V)) :
  Z.of_nat (List.length ops) < C ->
  Forall (fun o => forall v', o <> OpSet k v') ops ->
  exists m', run C m (OpSet k v :: ops) = Some m' /\ Map_get m' k = Some v.
Proof.
  intros Hroom Hops. cbn [run step].
  destruct (held_set C m k v) as (m1 & -> & Hheld); [lia|].
  destruct (run_keeps_held C ops m1 k v 0 Hheld) as (m' & Hrun & Hheld');
    [simpl; lia | exact Hops|].
  exists m'. split; [exact Hrun|]. now apply held_get in Hheld'.
Qed.
End LruEdges.

Lemma LruCache_set_capacity_below_one_witness :
  LruCache_set (-1) [("a", 1)] "b" 2 = None
  /\ LruCache_set 0 [("a", 1)] "b" 2 = Some [].
Proof.
  split.
  - apply (LruCache_set_capacity_below_one (-1) [("a", 1)] "b" 2). lia.
  - apply (LruCache_set_capacity_below_one 0 [("a", 1)] "b" 2). lia.
Defined.

Lemma LruCache_set_then_get_witness :
  exists m', LruCache_set 2 [("a", 1); ("b", 2)] "a" 3 = Some m'
    /\ Map_size m' <= 2
    /\ LruCache_get m' "a" = (Some 3, m').
Proof. apply (LruCache_set_then_get 2 [("a", 1); ("b", 2)] "a" 3). lia. Defined.

Lemma LruCache_recent_entry_survives_witness :
  exists m',
    run 3 [("a", 1); ("b", 2); ("c", 3)] [OpSet "d" 4; OpSet "e" 5; OpGet "a"] = Some m'
    /\ Map_get m' "d" = Some 4.
Proof.
  apply (LruCache_recent_entry_survives 3 [("a", 1); ("b", 2); ("c", 3)] "d" 4
           [OpSet "e" 5; OpGet "a"]).
  - simpl. lia.
  - repeat constructor; intros v'; discriminate.
Defined.

(** ** Trimming *)

Section TrimFacts.

Lemma trimStart_shape s :
  trimStart s = "" \/ exists c t, trimStart s = String c t /\ is_ws c = false.
Proof.
  induction s as [|c s IH]; [now left|]. cbn [trimStart].
  destruct (is_ws c) eqn:Hc; [exact IH|]. right. eauto.
Qed.

Lemma trimEnd_head c s :
  is_ws c = false -> exists t, trimEnd (String c s) = String c t.
Proof.
  intros Hc. cbn [trimEnd]. destruct (trimEnd s); [rewrite Hc|]; eauto.
Qed.

Lemma trimEnd_idem s : trimEnd (trimEnd s) = trimEnd s.
Proof.
  induction s as [|c s IH]; [reflexivity|]. cbn [trimEnd].
  destruct (trimEnd s) as [|c' t] eqn:E.
  - destruct (is_ws c) eqn:Hc; [reflexivity|]. cbn [trimEnd]. now rewrite Hc.
  - cbn [trimEnd] in *. now rewrite IH.
Qed.

Lemma trim_shape s :
  trim s = "" \/ exists c t, trim s = String c t /\ is_ws c = false.
Proof.
  unfold trim. destruct (trimStart_shape s) as [->|(c & t & -> & Hc)]; [now left|].
  right. destruct (trimEnd_head c t Hc) as (t' & ->). eauto.
Qed.

Lemma trim_idem s : trim (trim s) = trim s.
Proof.
  destruct (trim_shape s) as [->|(c & t & E & Hc)]; [reflexivity|].
  unfold trim at 1. rewrite E, trimStart_head by exact Hc.
  rewrite <- E. unfold trim. apply trimEnd_idem.
Qed.

Lemma trimStart_forallb (p : ascii -> bool) s :
  forallb_string p s = true -> forallb_string p (trimStart s) = true.
Proof.
  induction s as [|c s IH]; [reflexivity|]. intros Hs. cbn [trimStart].
  destruct (is_ws c); [|exact Hs].
  cbn [forallb_string] in Hs. apply andb_true_iff in Hs. now apply IH.
Qed.

Lemma trimEnd_forallb (p : ascii -> bool) s :
  forallb_string p s = true -> forallb_string p (trimEnd s) = true.
Proof.
  induction s as [|c s IH]; [reflexivity|]. cbn [forallb_string trimEnd].
  rewrite andb_true_iff. intros [Hc Hs]. specialize (IH Hs).
  destruct (trimEnd s) as [|c' t].
  - destruct (is_ws c); [reflexivity|]. cbn [forallb_string]. now rewrite Hc.
  - cbn [forallb_string] in *. now rewrite Hc, IH.
Qed.

Lemma trim_forallb (p : ascii -> bool) s :
  forallb_string p s = true -> forallb_string p (trim s) = true.
Proof. intros Hs. now apply trimEnd_forallb, trimStart_forallb. Qed.

Lemma trimEnd_ws s : forallb_string is_ws s = true -> trimEnd s = "".
Proof.
  induction s as [|c s IH]; [reflexivity|]. cbn [forallb_string trimEnd].
  rewrite andb_true_iff. intros [Hc Hs]. now rewrite IH, Hc.
Qed.

Lemma trimEnd_app_ws s b :
  forallb_string is_ws b = true -> trimEnd (s ++ b) = trimEnd s.
Proof.
  intros Hb. induction s as [|c s IH]; [now apply trimEnd_ws|].
  cbn [append trimEnd]. now rewrite IH.
Qed.

Lemma trim_app_ws s b :
  forallb_string is_ws b = true -> trim (s ++ b) = trim s.
Proof.
  intros Hb. unfold trim. induction s as [|c s IH].
  - cbn [append trimStart trimEnd]. now rewrite trimStart_ws.
  - cbn [append trimStart]. destruct (is_ws c); [exact IH|].
    now apply (trimEnd_app_ws (String c s)).
Qed.

Lemma trim_ws_app a s :
  forallb_string is_ws a = true -> trim (a ++ s) = trim s.
Proof.
  unfold trim. induction a as [|c a IH]; [reflexivity|].
  cbn [forallb_string append trimStart]. rewrite andb_true_iff.
  intros [-> Ha]. now apply IH.
Qed.

Lemma trim_pad a s b :
  forallb_string is_ws a = true -> forallb_string is_ws b = true ->
  trim (a ++ s ++ b) = trim s.
Proof. intros Ha Hb. now rewrite trim_ws_app, trim_app_ws. Qed.

Lemma trimmed_or_null_trimmed stdout t :
  trimmed_or_null stdout = Some t -> t <> "" /\ trim t = t.
Proof.
  unfold trimmed_or_null. destruct (String.eqb_spec (trim stdout) "") as [|Hne];
    [discriminate|].
  intros [= <-]. split; [exact Hne | apply trim_idem].
Qed.

Lemma trimmed_or_null_blank stdout :
  forallb_string is_ws stdout = true -> trimmed_or_null stdout = None.
Proof. intros Hws. unfold trimmed_or_null. now rewrite trim_ws. Qed.
End TrimFacts.

(** ** What the git wrappers answer *)

Section Wrappers.
Context {P : Platform}.
Local Open Scope list_scope.

(** X5. The three wrappers around git ([gitRootForFile], [gitHead] and
    [getOriginRemote]) each run one git command and return; what they
    answer is never the empty string and has no white space around it
    (trimming it again changes nothing); and when git fails or prints white
    space only they answer nothing. *)
Theorem git_wrappers_answer_trimmed (w : World) (filePath dir : string) (s : Server) :
  let answers (args : list string) (run : M (option string)) :=
    exists r,
      run s = Some (r, {| lineCache := lineCache s; trace := trace s ++ [ExecGit args] |})
      /\ (forall t, r = Some t -> t <> ""%string /\ trim t = t)
      /\ (git w args = None -> r = None)
      /\ (forall out, git w args = Some out ->
            forallb_string is_ws out = true -> r = None) in
  answers ["-C"; path_dirname filePath; "rev-parse"; "--show-toplevel"]
          (gitRootForFile w filePath)
  /\ answers ["-C"; dir; "rev-parse"; "HEAD"] (gitHead w dir)
  /\ answers ["-C"; dir; "remote"; "get-url"; "origin"] (getOriginRemote w dir).
Proof.
  assert (Hgen : forall args,
            exists r,
              (out <- execFileAsync w args ;;
               ret (match out with
                    | Some stdout => trimmed_or_null stdout
                    | None => None
                    end)) s
              = Some (r, {| lineCache := lineCache s;
                            trace := trace s ++ [ExecGit args] |})
              /\ (forall t, r = Some t -> t <> ""%string /\ trim t = t)
              /\ (git w args = None -> r = None)
              /\ (forall out, git w args = Some out ->
                    forallb_string is_ws out = true -> r = None)).
  { intros args. unfold execFileAsync, bind, emit, ret. cbn [lineCache trace].
    eexists. split; [reflexivity|]. destruct (git w args) as [out|].
    - split; [apply trimmed_or_null_trimmed|]. split; [discriminate|].
      intros out' [= <-]. apply trimmed_or_null_blank.
    - split; [discriminate|]. split; [reflexivity|]. discriminate. }
  cbv zeta. split; [apply Hgen|]. split; apply Hgen.
Qed.
End Wrappers.

(** ** The parser, line by line *)

Section ParserLines.
Local Open Scope list_scope.

Lemma split_not_nil sep s : split sep s <> [].
Proof.
  destruct s as [|c s]; cbn [split]; [discriminate|].
  destruct (Ascii.eqb c sep); [discriminate|].
  destruct (split sep s); discriminate.
Qed.

Lemma split_app sep s t :
  split sep (s ++ String sep t)%string = split sep s ++ split sep t.
Proof.
  induction s as [|c s IH]; cbn [append split].
  - now rewrite Ascii.eqb_refl.
  - destruct (Ascii.eqb c sep); [now rewrite IH|].
    rewrite IH. pose proof (split_not_nil sep s) as Hne.
    destruct (split sep s) as [|x xs]; [congruence | reflexivity].
Qed.

Lemma hd_app_not_nil {A} (d : A) (l l' : list A) : l <> [] -> hd d (l ++ l') = hd d l.
Proof. destruct l; [congruence | reflexivity]. Qed.

(** One more line at the end of the text is one more step of the loop. *)
Lemma parseBlamePorcelain_append (p line : string) :
  free LF line ->
  parseBlamePorcelain (p ++ String LF line)
  = option_map (fun info => parseLine info line) (parseBlamePorcelain p).
Proof.
  intros Hline. unfold parseBlamePorcelain. cbv zeta.
  rewrite split_app, (split_free LF line Hline).
  rewrite hd_app_not_nil by apply split_not_nil.
  destruct (String.eqb (trim (hd ""%string (split LF p))) ""); [reflexivity|].
  destruct (String.eqb (hd ""%string (split " " (trim (hd ""%string (split LF p))))) "");
    [reflexivity|].
  cbn [option_map]. now rewrite fold_left_app.
Qed.

Lemma parseBlamePorcelain_first_field (p : string) :
  trim (hd ""%string (split LF p)) <> ""%string ->
  hd ""%string (split " " (trim (hd ""%string (split LF p)))) <> ""%string.
Proof.
  intros Hne. destruct (trim_shape (hd ""%string (split LF p)))
    as [E|(c & t & E & Hc)]; [congruence|].
  rewrite E. cbn [split].
  destruct (Ascii.eqb_spec c " ") as [->|_]; [discriminate Hc|].
  destruct (split " " t); discriminate.
Qed.

(** X6. The parser gives no record exactly when the first line of the text
    is blank (empty or white space only): the second guard of the function,
    on an empty commit field, never fires. *)
Theorem parseBlamePorcelain_none_iff (porcelain : string) :
  parseBlamePorcelain porcelain = None
  <-> trim (hd ""%string (split LF porcelain)) = ""%string.
Proof.
  unfold parseBlamePorcelain. cbv zeta.
  destruct (String.eqb_spec (trim (hd ""%string (split LF porcelain))) "") as [E|Hne].
  - tauto.
  - pose proof (parseBlamePorcelain_first_field porcelain Hne) as Hc.
    destruct (String.eqb_spec
                (hd ""%string (split " " (trim (hd ""%string (split LF porcelain))))) "")
      as [E|_]; [congruence|].
    split; [discriminate | congruence].
Qed.

Lemma fold_left_parseLine_commit (lines : list string) (info : BlameInfo) :
  commit (fold_left parseLine lines info) = commit info.
Proof.
  revert info. induction lines as [|l lines IH]; intros info; [reflexivity|].
  cbn [fold_left]. now rewrite IH, parseLine_commit.
Qed.

Lemma parseLine_keeps (info : BlameInfo) (line : string) :
  let good (i : BlameInfo) :=
    authorTime i <> Some NaN
    /\ (forall a, author i = Some a -> trim a = a)
    /\ (forall s, summary i = Some s -> trim s = s) in
  good info -> good (parseLine info line).
Proof.
  cbv zeta. intros (Ht & Ha & Hs). unfold parseLine.
  destruct (startsWith line "author ").
  { cbn [set_author authorTime author summary]. split; [exact Ht|].
    split; [|exact Hs]. intros a [= <-]. apply trim_idem. }
  destruct (startsWith line "author-time ").
  { destruct (Number (trim (slice (String.length "author-time ") line))) eqn:E;
      cbn [Number_isNaN negb set_authorTime authorTime author summary];
      (split; [|split; assumption]); congruence. }
  destruct (startsWith line "summary ").
  { cbn [set_summary authorTime author summary]. split; [exact Ht|].
    split; [exact Ha|]. intros s [= <-]. apply trim_idem. }
  auto.
Qed.

(** X7. Every record the parser returns is well formed: its commit field is
    not empty, has no space and no line feed, and opens the trimmed first
    line; its time is never [NaN]; its author and summary, when present,
    have no white space around them. *)
Theorem parseBlamePorcelain_well_formed (porcelain : string) (info : BlameInfo) :
  parseBlamePorcelain porcelain = Some info ->
  commit info <> ""%string
  /\ free " " (commit info) /\ free LF (commit info)
  /\ startsWith (trim (hd ""%string (split LF porcelain))) (commit info) = true
  /\ authorTime info <> Some NaN
  /\ (forall a, author info = Some a -> trim a = a)
  /\ (forall s, summary info = Some s -> trim s = s).
Proof.
  unfold parseBlamePorcelain. cbv zeta.
  set (first := trim (hd ""%string (split LF porcelain))).
  destruct (String.eqb first ""); [discriminate|].
  destruct (String.eqb_spec (hd ""%string (split " " first)) "") as [|Hne];
    [discriminate|].
  intros [= <-]. rewrite fold_left_parseLine_commit. cbn [commit].
  split; [exact Hne|]. split; [apply split_hd_free|]. split.
  { apply split_hd_forallb. unfold first. apply trim_forallb, split_hd_free. }
  split.
  { clear Hne. generalize first. intros s. induction s as [|c s IH]; [reflexivity|].
    cbn [split]. destruct (Ascii.eqb c " "); [reflexivity|].
    destruct (split " " s) as [|x xs]; cbn [hd startsWith] in *.
    - now rewrite Ascii.eqb_refl.
    - now rewrite Ascii.eqb_refl, IH. }
  generalize (split LF porcelain). intros lines.
  assert (Hinit : authorTime {| commit := hd ""%string (split " " first);
                                author := None; authorTime := None; summary := None |}
                  <> Some NaN
                  /\ (forall a, author {| commit := hd ""%string (split " " first);
                                author := None; authorTime := None; summary := None |}
                                = Some a -> trim a = a)
                  /\ (forall s, summary {| commit := hd ""%string (split " " first);
                                author := None; authorTime := None; summary := None |}
                                = Some s -> trim s = s)).
  { cbn. repeat split; discriminate. }
  revert Hinit.
  generalize {| commit := hd ""%string (split " " first);
                author := None; authorTime := None; summary := None |}.
  induction lines as [|l lines IH]; intros i Hi; [exact Hi|].
  cbn [fold_left]. apply IH. now apply parseLine_keeps.
Qed.

(** X8. The last line of a key wins: a further [author X] line at the end
    of the text gives the same record with author [X] trimmed, whatever
    authors the earlier lines named, and likewise for [summary]; a text
    that gave no record still gives none. *)
Theorem parseBlamePorcelain_last_line_wins (porcelain X : string) :
  free LF X ->
  parseBlamePorcelain (porcelain ++ String LF ("author " ++ X))
  = option_map (fun info => set_author info (trim X)) (parseBlamePorcelain porcelain)
  /\ parseBlamePorcelain (porcelain ++ String LF ("summary " ++ X))
     = option_map (fun info => set_summary info (trim X)) (parseBlamePorcelain porcelain).
Proof.
  intros HX. split.
  - rewrite parseBlamePorcelain_append by exact HX.
    destruct (parseBlamePorcelain porcelain); [|reflexivity].
    cbn [option_map]. now rewrite parseLine_author.
  - rewrite parseBlamePorcelain_append by exact HX.
    destruct (parseBlamePorcelain porcelain); [|reflexivity].
    cbn [option_map]. now rewrite parseLine_summary.
Qed.

(** X9. An [author-time] line whose value is not a number is passed over:
    the record is the one of the text without that line.  But a blank value
    is the number 0: an [author-time] line with nothing but white space
    after the key sets the time to 0. *)
Theorem parseBlamePorcelain_author_time_edges (porcelain t : string) :
  free LF t ->
  (Number (trim t) = NaN ->
   parseBlamePorcelain (porcelain ++ String LF ("author-time " ++ t))
   = parseBlamePorcelain porcelain)
  /\ (forallb_string is_ws t = true ->
      parseBlamePorcelain (porcelain ++ String LF ("author-time " ++ t))
      = option_map (fun info => set_authorTime info (Int 0))
                   (parseBlamePorcelain porcelain)).
Proof.
  intros Ht.
  assert (Hline : forall info,
            parseLine info ("author-time " ++ t)%string
            = if negb (Number_isNaN (Number (trim t)))
              then set_authorTime info (Number (trim t)) else info).
  { intros info. unfold parseLine.
    replace (startsWith ("author-time " ++ t) "author ") with false by reflexivity.
    rewrite (startsWith_app "author-time " t).
    now rewrite (slice_app "author-time " t). }
  split; intros H; rewrite parseBlamePorcelain_append by exact Ht;
    destruct (parseBlamePorcelain porcelain) as [info|]; try reflexivity;
    cbn [option_map]; rewrite Hline.
  - rewrite H. destruct info; reflexivity.
  - rewrite (trim_ws t H). reflexivity.
Qed.

(** X10. A line that starts with none of the three keys changes nothing,
    wherever it stands after the first line: the text with the line and the
    text without it give the same record. *)
Theorem parseBlamePorcelain_skips_other_lines (before line after : string) :
  free LF line -> unrecognised line = true ->
  parseBlamePorcelain (before ++ String LF (line ++ String LF after))
  = parseBlamePorcelain (before ++ String LF after)
  /\ parseBlamePorcelain (before ++ String LF line) = parseBlamePorcelain before.
Proof.
  intros Hfree Hline. split.
  - unfold parseBlamePorcelain. cbv zeta.
    rewrite !split_app, (split_free LF line Hfree).
    rewrite !hd_app_not_nil by apply split_not_nil.
    destruct (String.eqb (trim (hd ""%string (split LF before))) ""); [reflexivity|].
    destruct (String.eqb
                (hd ""%string (split " " (trim (hd ""%string (split LF before))))) "");
      [reflexivity|].
    f_equal. rewrite !fold_left_app. cbn [fold_left].
    now rewrite parseLine_unrecognised.
  - rewrite parseBlamePorcelain_append by exact Hfree.
    destruct (parseBlamePorcelain before); [|reflexivity].
    cbn [option_map]. now rewrite parseLine_unrecognised.
Qed.
End ParserLines.

Lemma parseBlamePorcelain_well_formed_witness :
  let info := {| commit := "0123abcd"; author := Some "Ada Lovelace";
                 authorTime := Some (Int 1700000000); summary := None |} in
  commit info <> ""
  /\ free " " (commit info) /\ free LF (commit info)
  /\ startsWith (trim (hd "" (split LF
        ("0123abcd 3 3 1" ++ String LF ("author  Ada Lovelace "
           ++ String LF "author-time 1700000000"))))) (commit info) = true
  /\ authorTime info <> Some NaN
  /\ (forall a, author info = Some a -> trim a = a)
  /\ (forall s, summary info = Some s -> trim s = s).
Proof.
  apply (parseBlamePorcelain_well_formed
           ("0123abcd 3 3 1" ++ String LF ("author  Ada Lovelace "
              ++ String LF "author-time 1700000000"))).
  vm_compute. reflexivity.
Defined.

Lemma parseBlamePorcelain_last_line_wins_witness :
  parseBlamePorcelain
    (("0123abcd 3 3 1" ++ String LF "author Ada") ++ String LF ("author " ++ " Grace "))
  = option_map (fun info => set_author info (trim " Grace "))
      (parseBlamePorcelain ("0123abcd 3 3 1" ++ String LF "author Ada"))
  /\ parseBlamePorcelain
       (("0123abcd 3 3 1" ++ String LF "author Ada") ++ String LF ("summary " ++ " Grace "))
     = option_map (fun info => set_summary info (trim " Grace "))
         (parseBlamePorcelain ("0123abcd 3 3 1" ++ String LF "author Ada")).
Proof.
  apply (parseBlamePorcelain_last_line_wins
           ("0123abcd 3 3 1" ++ String LF "author Ada") " Grace ").
  reflexivity.
Defined.

Lemma parseBlamePorcelain_author_time_edges_witness :
  parseBlamePorcelain ("0123abcd 3 3 1" ++ String LF ("author-time " ++ "soon"))
  = parseBlamePorcelain "0123abcd 3 3 1"
  /\ parseBlamePorcelain ("0123abcd 3 3 1" ++ String LF ("author-time " ++ " "))
     = option_map (fun info => set_authorTime info (Int 0))
         (parseBlamePorcelain "0123abcd 3 3 1").
Proof.
  split.
  - apply (parseBlamePorcelain_author_time_edges "0123abcd 3 3 1" "soon");
      reflexivity.
  - apply (parseBlamePorcelain_author_time_edges "0123abcd 3 3 1" " ");
      reflexivity.
Defined.

Lemma parseBlamePorcelain_skips_other_lines_witness :
  parseBlamePorcelain
    ("0123abcd 3 3 1" ++ String LF ("committer Bob" ++ String LF "author Ada"))
  = parseBlamePorcelain ("0123abcd 3 3 1" ++ String LF "author Ada")
  /\ parseBlamePorcelain ("0123abcd 3 3 1" ++ String LF "committer Bob")
     = parseBlamePorcelain "0123abcd 3 3 1".
Proof.
  apply (parseBlamePorcelain_skips_other_lines "0123abcd 3 3 1" "committer Bob"
           "author Ada"); reflexivity.
Defined.

(** ** Relative time at its lower edge *)

Section RelativeEdges.

(** X11. A time stamp in the future, or less than ten seconds old, reads
    [just now]: the elapsed time is never negative. *)
Theorem relativeFromUnixSeconds_just_now (sec nowMs : Z) :
  nowMs < sec * 1000 + 10000 ->
  relativeFromUnixSeconds sec nowMs = "just now".
Proof.
  intros Hnear. unfold relativeFromUnixSeconds. cbv zeta.
  destruct (Z.ltb_spec (Z.max 0 ((nowMs - sec * 1000) / 1000)) 10) as [_|Hge];
    [reflexivity|].
  exfalso. revert Hge. Z.to_euclidean_division_equations. lia.
Qed.

(** No phrase of [relativeFromUnixSeconds] is empty, has a line feed, or
    has white space at either end. *)
Lemma relativeFromUnixSeconds_phrase (sec nowMs : Z) :
  relativeFromUnixSeconds sec nowMs <> ""
  /\ free LF (relativeFromUnixSeconds sec nowMs)
  /\ trim (relativeFromUnixSeconds sec nowMs) = relativeFromUnixSeconds sec nowMs.
Proof.
  assert (Hphrase : forall n word,
            free LF word -> forallb_string is_ws word = false ->
            trimEnd word = word ->
            (Number_toString n ++ word)%string <> ""
            /\ free LF (Number_toString n ++ word)
            /\ trim (Number_toString n ++ word) = (Number_toString n ++ word)%string).
  { intros n word Hlf Hnws Hend. split; [|split].
    - pose proof (Number_toString_nonempty n).
      destruct (Number_toString n); [congruence | discriminate].
    - rewrite forallb_string_app, Hlf, andb_true_r.
      apply Number_toString_free; [reflexivity | discriminate].
    - unfold trim. pose proof (Number_toString_ws_free n) as Hfree.
      pose proof (Number_toString_nonempty n) as Hne.
      destruct (Number_toString n) as [|c t] eqn:E; [congruence|].
      pose proof Hfree as Hc. cbn [forallb_string] in Hc.
      rewrite andb_true_iff, negb_true_iff in Hc. destruct Hc as [Hc _].
      change (String c t ++ word)%string with (String c (t ++ word)).
      rewrite trimStart_head by exact Hc.
      change (String c (t ++ word)) with (String c t ++ word)%string.
      rewrite trimEnd_app by exact Hfree. now rewrite Hend. }
  unfold relativeFromUnixSeconds, plural. cbv zeta.
  repeat match goal with
         | |- context [if ?b then _ else _] => destruct b
         end;
    try (split; [discriminate | split; reflexivity]);
    apply Hphrase; reflexivity.
Qed.
End RelativeEdges.

Lemma relativeFromUnixSeconds_just_now_witness :
  relativeFromUnixSeconds 1700000100 1700000000000 = "just now".
Proof. apply (relativeFromUnixSeconds_just_now 1700000100 1700000000000). lia. Defined.

(** ** Remote normalisation, whatever the remote *)

Section RemoteEdges.

(** X13. Whatever the remote, a base that [normaliseRemoteToHttps] returns
    begins with [http://] or [https://], and the remote, trimmed and without
    its [.git] suffix, began with one of [http://], [https://], [git@] and
    [ssh://git@]: a remote of any other form is refused. *)
Theorem normaliseRemoteToHttps_scheme (remote base : string) :
  normaliseRemoteToHttps remote = Some base ->
  (startsWith base "http://" || startsWith base "https://" = true)
  /\ (let r := stripSuffix ".git" (trim remote) in
      startsWith r "http://" || startsWith r "https://"
      || startsWith r "git@" || startsWith r "ssh://git@" = true).
Proof.
  unfold normaliseRemoteToHttps, match_scpLike, match_sshLike. cbv zeta.
  destruct (startsWith (stripSuffix ".git" (trim remote)) "http://"
            || startsWith (stripSuffix ".git" (trim remote)) "https://") eqn:Hweb.
  { intros [= <-]. split; [exact Hweb | reflexivity]. }
  cbn [orb].
  destruct (startsWith (stripSuffix ".git" (trim remote)) "git@").
  - destruct (break ":" (slice 4 (stripSuffix ".git" (trim remote)))) as [host rest].
    destruct rest as [|c path].
    + destruct (startsWith (stripSuffix ".git" (trim remote)) "ssh://git@");
        [|discriminate].
      destruct (break "/" (slice 10 (stripSuffix ".git" (trim remote)))) as [h r].
      destruct r as [|c p]; [discriminate|].
      destruct (nonempty h && nonempty p
                && forallb_string (fun c => negb (is_line_terminator c)) p);
        [|discriminate].
      intros [= <-]. split; reflexivity.
    + destruct (nonempty host && nonempty path
                && forallb_string (fun c => negb (is_line_terminator c)) path).
      * intros [= <-]. split; reflexivity.
      * destruct (startsWith (stripSuffix ".git" (trim remote)) "ssh://git@");
          [|discriminate].
        destruct (break "/" (slice 10 (stripSuffix ".git" (trim remote)))) as [h r].
        destruct r as [|c' p]; [discriminate|].
        destruct (nonempty h && nonempty p
                  && forallb_string (fun c => negb (is_line_terminator c)) p);
          [|discriminate].
        intros [= <-]. split; reflexivity.
  - destruct (startsWith (stripSuffix ".git" (trim remote)) "ssh://git@");
      [|discriminate].
    destruct (break "/" (slice 10 (stripSuffix ".git" (trim remote)))) as [h r].
    destruct r as [|c p]; [discriminate|].
    destruct (nonempty h && nonempty p
              && forallb_string (fun c => negb (is_line_terminator c)) p);
      [|discriminate].
    intros [= <-]. split; reflexivity.
Qed.

(** X14. White space around the remote does not count: the remote with
    any white space before and after it is normalised as the remote
    itself. *)
Theorem normaliseRemoteToHttps_ignores_padding (before remote after : string) :
  forallb_string is_ws before = true -> forallb_string is_ws after = true ->
  normaliseRemoteToHttps (before ++ remote ++ after) = normaliseRemoteToHttps remote.
Proof.
  intros Hb Ha. unfold normaliseRemoteToHttps. now rewrite trim_pad.
Qed.
End RemoteEdges.

Lemma normaliseRemoteToHttps_scheme_witness :
  (startsWith "https://github.com/org/repo" "http://"
   || startsWith "https://github.com/org/repo" "https://" = true)
  /\ (let r := stripSuffix ".git" (trim "git@github.com:org/repo.git") in
      startsWith r "http://" || startsWith r "https://"
      || startsWith r "git@" || startsWith r "ssh://git@" = true).
Proof.
  apply (normaliseRemoteToHttps_scheme "git@github.com:org/repo.git"
           "https://github.com/org/repo").
  reflexivity.
Defined.

Lemma normaliseRemoteToHttps_ignores_padding_witness :
  normaliseRemoteToHttps ("  " ++ "git@github.com:org/repo.git" ++ String LF "")
  = normaliseRemoteToHttps "git@github.com:org/repo.git".
Proof.
  apply (normaliseRemoteToHttps_ignores_padding "  " "git@github.com:org/repo.git"
           (String LF "")); reflexivity.
Defined.

(** ** The permalink, whatever the path *)

Section PermalinkEdges.
Local Open Scope list_scope.

Lemma percent_decode_unit (c : ascii) (t : string) :
  percent_decode (encodeURIComponent_unit c ++ t) = String c (percent_decode t).
Proof. destruct c as [[] [] [] [] [] [] [] []]; reflexivity. Qed.

(** What was encoded can be read back. *)
Lemma percent_decode_encode (s t : string) :
  percent_decode (encodeURIComponent s ++ t) = (s ++ percent_decode t)%string.
Proof.
  induction s as [|c s IH]; [reflexivity|].
  cbn [encodeURIComponent]. rewrite append_assoc, percent_decode_unit, IH.
  reflexivity.
Qed.

Lemma encodeURIComponent_inj (s s' : string) :
  encodeURIComponent s = encodeURIComponent s' -> s = s'.
Proof.
  intros E. pose proof (percent_decode_encode s "") as H1.
  pose proof (percent_decode_encode s' "") as H2.
  cbn [percent_decode] in H1, H2. rewrite !append_nil_r in H1, H2. congruence.
Qed.

Lemma map_encodeURIComponent_inj (l l' : list string) :
  map encodeURIComponent l = map encodeURIComponent l' -> l = l'.
Proof.
  revert l'. induction l as [|s l IH]; intros [|s' l']; try discriminate;
    [reflexivity|].
  cbn [map]. intros [= Hs Hl]. f_equal; [now apply encodeURIComponent_inj | auto].
Qed.

Lemma encodeURIComponent_unit_safe (c : ascii) :
  forallb_string (fun x => is_unreserved x || Ascii.eqb x "%")
    (encodeURIComponent_unit c) = true.
Proof. destruct c as [[] [] [] [] [] [] [] []]; vm_compute; reflexivity. Qed.

Lemma encodeURIComponent_safe (s : string) :
  forallb_string (fun x => is_unreserved x || Ascii.eqb x "%")
    (encodeURIComponent s) = true.
Proof.
  induction s as [|c s IH]; [reflexivity|]. cbn [encodeURIComponent].
  now rewrite forallb_string_app, encodeURIComponent_unit_safe, IH.
Qed.

Lemma forallb_string_join (p : ascii -> bool) (sep : string) (parts : list string) :
  forallb_string p sep = true ->
  Forall (fun s => forallb_string p s = true) parts ->
  forallb_string p (join sep parts) = true.
Proof.
  intros Hsep. induction 1 as [|s parts Hs Hparts IH]; [reflexivity|].
  unfold join in *. cbn [concat]. destruct parts as [|s' parts]; [exact Hs|].
  now rewrite !forallb_string_app, Hs, Hsep, IH.
Qed.

Lemma join_split (sep : ascii) (s : string) :
  join (String sep "") (split sep s) = s.
Proof.
  induction s as [|c s IH]; [reflexivity|]. cbn [split].
  pose proof (split_not_nil sep s) as Hne.
  destruct (Ascii.eqb_spec c sep) as [->|_].
  - destruct (split sep s) as [|x xs]; [congruence|]. unfold join in *.
    change (concat (String sep "") (""%string :: x :: xs))
      with (String sep (concat (String sep "") (x :: xs))).
    now rewrite IH.
  - destruct (split sep s) as [|x xs]; [congruence|]. unfold join in *.
    destruct xs as [|y ys].
    + cbn [concat] in *. now rewrite IH.
    + change (concat (String sep "") (String c x :: y :: ys))
        with (String c (concat (String sep "") (x :: y :: ys))).
      now rewrite IH.
Qed.

Lemma break_free (stop : ascii) (s t u v : string) :
  free stop s -> free stop u ->
  (s ++ String stop t = u ++ String stop v)%string -> s = u /\ t = v.
Proof.
  intros Hs Hu E.
  assert (Hb : break stop (s ++ String stop t) = break stop (u ++ String stop v))
    by now rewrite E.
  rewrite !break_app in Hb by assumption. now injection Hb.
Qed.

Lemma encPath_safe (p : string) :
  forallb_string (fun x => is_unreserved x || Ascii.eqb x "%" || Ascii.eqb x "/")
    (join "/" (map encodeURIComponent (split "/" p))) = true.
Proof.
  apply forallb_string_join; [reflexivity|].
  apply Forall_forall. intros s Hin. apply in_map_iff in Hin.
  destruct Hin as (s0 & <- & _).
  generalize (encodeURIComponent_safe s0). apply forallb_string_impl.
  intros c ->. reflexivity.
Qed.

(** X15. Whatever the path, the commit and the line, what the permalink
    adds to the base is safe in a URL: it is made of letters, digits, the
    marks that [encodeURIComponent] keeps, percent signs, slashes, and after
    them one [#L] with the line number in decimal. *)
Theorem buildFileUrl_url_safe
    (sep : ascii) (remoteHttps relPath commit : string) (oneBasedLine : Z) :
  exists location,
    buildFileUrl sep remoteHttps relPath commit oneBasedLine
    = (stripSuffix "/" remoteHttps ++ location ++ "#L"
         ++ Number_toString oneBasedLine)%string
    /\ forallb_string
         (fun x => is_unreserved x || Ascii.eqb x "%" || Ascii.eqb x "/") location = true
    /\ forallb_string (fun x => is_digit x || Ascii.eqb x "-")
         (Number_toString oneBasedLine) = true.
Proof.
  exists ("/blob/" ++ encodeURIComponent commit ++ "/"
          ++ join "/" (map encodeURIComponent
                         (split "/" (join "/" (split sep relPath)))))%string.
  split; [|split].
  - unfold buildFileUrl. cbv zeta. now rewrite !append_assoc.
  - rewrite !forallb_string_app, encPath_safe.
    replace (forallb_string _ (encodeURIComponent commit)) with true; [reflexivity|].
    symmetry. generalize (encodeURIComponent_safe commit).
    apply forallb_string_impl. intros c ->. reflexivity.
  - apply Number_toString_forallb; [|reflexivity].
    intros c ->. reflexivity.
Qed.

(** X16. A permalink tells what it points at: two permalinks on the same
    base are equal only for the same commit, the same line, and the same
    path once its separators are slashes (so, where the separator is the
    slash, the same path). *)
Theorem buildFileUrl_injective
    (sep : ascii) (remoteHttps relPath relPath' commit commit' : string)
    (oneBasedLine oneBasedLine' : Z) :
  buildFileUrl sep remoteHttps relPath commit oneBasedLine
  = buildFileUrl sep remoteHttps relPath' commit' oneBasedLine' ->
  commit = commit' /\ oneBasedLine = oneBasedLine'
  /\ join "/" (split sep relPath) = join "/" (split sep relPath')
  /\ (sep = "/"%char -> relPath = relPath').
Proof.
  unfold buildFileUrl. cbv zeta. intros E.
  apply append_inv_head in E.
  apply (append_inv_head "/blob/") in E.
  set (p := join "/" (split sep relPath)) in *.
  set (p' := join "/" (split sep relPath')) in *.
  apply (break_free "/" (encodeURIComponent commit) _ (encodeURIComponent commit') _)
    in E; try apply encodeURIComponent_free_slash.
  destruct E as [Hcommit E].
  assert (Hhash : forall q, free "#" (join "/" (map encodeURIComponent (split "/" q)))).
  { intros q. generalize (encPath_safe q). apply forallb_string_impl.
    intros c Hc. destruct (Ascii.eqb_spec c "#") as [->|]; [discriminate Hc|reflexivity]. }
  change ("#L" ++ Number_toString oneBasedLine)%string
    with (String "#" ("L" ++ Number_toString oneBasedLine)) in E.
  change ("#L" ++ Number_toString oneBasedLine')%string
    with (String "#" ("L" ++ Number_toString oneBasedLine')) in E.
  apply break_free in E; try apply Hhash.
  destruct E as [Hpath Hline].
  apply (append_inv_head "L") in Hline.
  assert (Hp : p = p').
  { assert (Hsplit : split "/" (join "/" (map encodeURIComponent (split "/" p)))
                     = split "/" (join "/" (map encodeURIComponent (split "/" p'))))
      by now rewrite Hpath.
    rewrite !(split_join "/") in Hsplit.
    - apply map_encodeURIComponent_inj in Hsplit.
      rewrite <- (join_split "/" p), <- (join_split "/" p'). now rewrite Hsplit.
    - pose proof (split_not_nil "/" p'). now destruct (split "/" p').
    - apply Forall_forall. intros s Hin. apply in_map_iff in Hin.
      destruct Hin as (s0 & <- & _). apply encodeURIComponent_free_slash.
    - pose proof (split_not_nil "/" p). now destruct (split "/" p).
    - apply Forall_forall. intros s Hin. apply in_map_iff in Hin.
      destruct Hin as (s0 & <- & _). apply encodeURIComponent_free_slash. }
  split; [now apply encodeURIComponent_inj|]. split.
  { pose proof (Number_of_toString oneBasedLine) as H1.
    pose proof (Number_of_toString oneBasedLine') as H2.
    rewrite Hline in H1. congruence. }
  split; [exact Hp|].
  intros ->. unfold p, p' in Hp. now rewrite !join_split in Hp.
Qed.
End PermalinkEdges.

Lemma buildFileUrl_injective_witness :
  "0123abcd" = "0123abcd" /\ 7 = 7
  /\ join "/" (split "\" "lib\my file.ts") = join "/" (split "\" "lib/my file.ts")
  /\ ("\"%char = "/"%char -> "lib\my file.ts" = "lib/my file.ts").
Proof.
  apply (buildFileUrl_injective "\" "https://example.org/team/tool/"
           "lib\my file.ts" "lib/my file.ts" "0123abcd" "0123abcd" 7 7).
  reflexivity.
Defined.

(** ** What a cache key tells *)

Section KeyEdges.
Context {P : Platform}.

Lemma JSON_read_unit (c : ascii) (t : string) :
  JSON_read (JSON_escape_unit c ++ t) = push c (JSON_read t).
Proof. destruct c as [[] [] [] [] [] [] [] []]; reflexivity. Qed.

(** The text of a JSON string can be read back, up to its closing quote. *)
Lemma JSON_read_escape (h rest : string) :
  JSON_read (JSON_escape h ++ String DQUOTE rest) = Some (h, rest).
Proof.
  induction h as [|c h IH]; [reflexivity|].
  cbn [JSON_escape]. rewrite append_assoc, JSON_read_unit, IH. reflexivity.
Qed.

Lemma stat_texts_inj (M M' S S' : string) :
  free DQUOTE M -> free DQUOTE M' ->
  (M ++ "," ++ quoted "size" ++ ":" ++ S ++ "}"
   = M' ++ "," ++ quoted "size" ++ ":" ++ S' ++ "}")
  -> M = M' /\ S = S'.
Proof.
  intros HM HM' E. unfold quoted in E. cbn [append] in E.
  assert (E' : ((M ++ ",") ++ String DQUOTE ("size" ++ String DQUOTE (":" ++ S ++ "}"))
                = (M' ++ ",") ++ String DQUOTE ("size" ++ String DQUOTE (":" ++ S' ++ "}")))).
  { rewrite !append_assoc. exact E. }
  apply break_free in E'; try (rewrite forallb_string_app; cbn [forallb_string];
                               rewrite ?HM, ?HM'; reflexivity).
  destruct E' as [EM ES]. apply append_inv_tail in EM.
  cbn [append] in ES. repeat injection ES as ES. apply append_inv_tail in ES.
  auto.
Qed.

(** The volatility token tells the commit of [HEAD] and the texts of the
    modification time and of the size. *)
Lemma volatilityToken_inj
    (head head' : option string) (st st' : option (double * double)) :
  volatilityToken head st = volatilityToken head' st' ->
  head = head'
  /\ match st with Some (mtimeMs, _) => JSON_number mtimeMs | None => "null" end
     = match st' with Some (mtimeMs, _) => JSON_number mtimeMs | None => "null" end
  /\ match st with Some (_, size) => JSON_number size | None => "null" end
     = match st' with Some (_, size) => JSON_number size | None => "null" end.
Proof.
  intros E. unfold volatilityToken in E.
  set (M := match st with Some (mtimeMs, _) => JSON_number mtimeMs | None => "null" end)
    in *.
  set (M' := match st' with Some (mtimeMs, _) => JSON_number mtimeMs | None => "null" end)
    in *.
  set (S := match st with Some (_, size) => JSON_number size | None => "null" end) in *.
  set (S' := match st' with Some (_, size) => JSON_number size | None => "null" end)
    in *.
  assert (HM : free DQUOTE M).
  { unfold M. destruct st as [[m z]|]; [apply JSON_number_unquoted | reflexivity]. }
  assert (HM' : free DQUOTE M').
  { unfold M'. destruct st' as [[m z]|]; [apply JSON_number_unquoted | reflexivity]. }
  apply (append_inv_head "{") in E. apply (append_inv_head (quoted "head")) in E.
  apply (append_inv_head ":") in E.
  destruct head as [h|], head' as [h'|].
  - unfold JSON_string in E. cbn [append] in E. injection E as E.
    rewrite !append_assoc in E. cbn [append] in E.
    apply (f_equal JSON_read) in E. rewrite !JSON_read_escape in E.
    injection E as -> E.
    destruct (stat_texts_inj M M' S S' HM HM' E) as [-> ->]. auto.
  - unfold JSON_string in E. cbn [append] in E. discriminate E.
  - unfold JSON_string in E. cbn [append] in E. discriminate E.
  - apply (append_inv_head "null") in E. unfold quoted in E. cbn [append] in E.
    repeat injection E as E.
    destruct (stat_texts_inj M M' S S' HM HM' E) as [-> ->]. auto.
Qed.

(** X17. A cache key tells what was asked: two keys are equal only for the
    same file path, the same line, the same commit of [HEAD] and the same
    texts of modification time and size; so a new commit, or a file whose
    time stamp or size has changed, is looked up under another key. *)
Theorem cacheKeyOf_injective
    (filePath filePath' : string) (oneBasedLine oneBasedLine' : Z)
    (head head' : option string) (st st' : option (double * double)) :
  cacheKeyOf filePath oneBasedLine (volatilityToken head st)
  = cacheKeyOf filePath' oneBasedLine' (volatilityToken head' st') ->
  filePath = filePath' /\ oneBasedLine = oneBasedLine' /\ head = head'
  /\ match st with Some (mtimeMs, _) => JSON_number mtimeMs | None => "null" end
     = match st' with Some (mtimeMs, _) => JSON_number mtimeMs | None => "null" end
  /\ match st with Some (_, size) => JSON_number size | None => "null" end
     = match st' with Some (_, size) => JSON_number size | None => "null" end.
Proof.
  intros E. apply cacheKeyOf_inj in E. destruct E as (-> & -> & E).
  split; [reflexivity|]. split; [reflexivity|]. now apply volatilityToken_inj.
Qed.
End KeyEdges.

Lemma cacheKeyOf_injective_witness :
  "/repo/a.ts" = "/repo/a.ts" /\ 3 = 3 /\ Some "0123abcd" = Some "0123abcd"
  /\ @JSON_number example_platform tt = @JSON_number example_platform tt
  /\ @JSON_number example_platform tt = @JSON_number example_platform tt.
Proof.
  apply (cacheKeyOf_injective (P := example_platform) "/repo/a.ts" "/repo/a.ts" 3 3
           (Some "0123abcd") (Some "0123abcd") (Some (tt, tt)) (Some (tt, tt))).
  reflexivity.
Defined.

(** ** The handlers, effect by effect *)

Section HandlerEdges.
Context {P : Platform}.
Local Open Scope list_scope.

Lemma informations_app (a b : list effect) :
  informations (a ++ b) = informations a ++ informations b.
Proof. apply flat_map_app. Qed.

(** [computeKey] shows no information and runs only git commands that
    read. *)
Lemma computeKey_effects_read (w : World) (filePath : string) :
  informations (computeKey_effects w filePath) = []
  /\ Forall (fun e => reads_only e = true) (computeKey_effects w filePath).
Proof.
  unfold computeKey_effects, computeKey, gitRootForFile, gitHead,
    execFileAsync, bind, ret, emit, fresh. cbn [lineCache trace app].
  destruct (git w ["-C"; path_dirname filePath; "rev-parse"; "--show-toplevel"])
    as [out|]; cbn [lineCache trace app].
  - destruct (trimmed_or_null out) as [r|]; cbn [lineCache trace app];
      (split; [reflexivity|]); repeat constructor.
  - split; [reflexivity|]. repeat constructor.
Qed.

(** A cached query leaves the cache within its capacity. *)
Lemma blameSingleLineCached_bound (w : World) (filePath : string) (line : Z)
    (s s' : Server) (answer : option BlameInfo) :
  Map_size (lineCache s) <= lineCache_max ->
  blameSingleLineCached w filePath line s = Some (answer, s') ->
  Map_size (lineCache s') <= lineCache_max.
Proof.
  intros Hsize. unfold blameSingleLineCached, bind. rewrite computeKey_run.
  destruct (keyOf w filePath) as [ck|]; [|intros [= _ <-]; exact Hsize].
  unfold lineCache_get. cbn [lineCache trace].
  destruct (Map_get (lineCache s) (cacheKeyOf filePath line (key ck))) as [hit|] eqn:Hget.
  - rewrite (LruCache_get_hit _ _ _ Hget). unfold ret. intros [= _ <-].
    cbn [lineCache].
    assert (Hhas : Map_has (lineCache s) (cacheKeyOf filePath line (key ck)) = true)
      by (unfold Map_has; now rewrite Hget).
    pose proof (Map_size_touch_present _ _ hit Hhas). lia.
  - rewrite (LruCache_get_miss _ _ Hget).
    unfold blameSingleLineUncached, execFileAsync, bind, ret, emit, lineCache_set.
    cbn [lineCache trace].
    destruct (LruCache_set lineCache_max (lineCache s)
                (cacheKeyOf filePath line (key ck))
                match git w (blameArgs (root ck) (rel ck) line) with
                | Some stdout => parseBlamePorcelain stdout
                | None => None
                end) as [m|] eqn:Hset; [|discriminate].
    intros [= _ <-]. cbn [lineCache]. rewrite LruCache_set_eq in Hset.
    destruct (evict_total lineCache_max
                (Map_delete (lineCache s) (cacheKeyOf filePath line (key ck))
                 ++ [(cacheKeyOf filePath line (key ck),
                      match git w (blameArgs (root ck) (rel ck) line) with
                      | Some stdout => parseBlamePorcelain stdout
                      | None => None
                      end)]))
      as (m' & Hm' & Hfit); [discriminate|].
    rewrite Hset in Hm'. now injection Hm' as <-.
Qed.

(** A cached query, whatever the state: it returns, with at most one blame
    and nothing shown. *)
Lemma blameSingleLineCached_effects (w : World) (filePath : string) (line : Z)
    (s : Server) :
  exists answer s' extra,
    blameSingleLineCached w filePath line s = Some (answer, s')
    /\ trace s' = trace s ++ extra
    /\ (answer
        = match keyOf w filePath with
          | Some ck =>
              match Map_get (lineCache s) (cacheKeyOf filePath line (key ck)) with
              | Some hit => hit
              | None => blameOf w ck line
              end
          | None => None
          end)
    /\ warnings extra = [] /\ informations extra = [] /\ open_requests extra = []
    /\ (blame_invocations extra <= 1)%nat
    /\ Forall (fun e => reads_only e = true) extra.
Proof.
  destruct (computeKey_effects_quiet w filePath) as (Hb & Hw & Ho).
  destruct (computeKey_effects_read w filePath) as (Hi & Hr).
  destruct (keyOf w filePath) as [ck|] eqn:Hkey.
  - destruct (blameSingleLineCached_key w filePath line ck s Hkey)
      as (answer & m & blames & Hrun & _ & _ & Hhit & Hmiss).
    exists answer, {| lineCache := m;
                      trace := trace s ++ computeKey_effects w filePath ++ blames |},
      (computeKey_effects w filePath ++ blames).
    split; [exact Hrun|]. split; [reflexivity|].
    rewrite warnings_app, informations_app, open_requests_app,
      blame_invocations_app, Hb, Hw, Ho, Hi.
    destruct (Map_get (lineCache s) (cacheKeyOf filePath line (key ck))) as [hit|].
    + destruct (Hhit hit eq_refl) as [-> ->].
      repeat split; auto. apply Forall_app. split; [exact Hr|]. constructor.
    + destruct (Hmiss eq_refl) as [-> ->].
      repeat split; auto. apply Forall_app. split; [exact Hr|]. repeat constructor.
  - rewrite (blameSingleLineCached_no_key w filePath line s Hkey).
    eexists; eexists; exists (computeKey_effects w filePath).
    split; [reflexivity|]. split; [reflexivity|].
    rewrite Hb, Hw, Ho, Hi. repeat split; auto.
Qed.

(** X18. The code action handler always returns, shows nothing (no
    warning, no information, no request to open) and runs at most one
    blame.  It offers one action exactly when the document is open, its
    URI is a file URI, the file is in a repository and the line has an
    attribution (the cached one when the key is cached); the title is the
    label of that attribution and the command is the open command on the
    same URI and the one-based line.  Otherwise it offers nothing. *)
Theorem onCodeAction_result (w : World) (uri : string) (startLine : Z) (s : Server) :
  exists actions s' shown,
    onCodeAction w uri startLine s = Some (actions, s')
    /\ trace s' = trace s ++ shown
    /\ warnings shown = [] /\ informations shown = [] /\ open_requests shown = []
    /\ (blame_invocations shown <= 1)%nat
    /\ actions
       = if document_open w uri then
           match uriToFsPath uri with
           | Some filePath =>
               match keyOf w filePath with
               | Some ck =>
                   match
                     match Map_get (lineCache s)
                             (cacheKeyOf filePath (startLine + 1) (key ck)) with
                     | Some hit => hit
                     | None => blameOf w ck (startLine + 1)
                     end
                   with
                   | Some info =>
                       [ {| title := formatBlameLabel info (now w);
                            action_command :=
                              {| command := CMD_OPEN; arg_uri := Some uri;
                                 arg_line := Some (startLine + 1) |} |} ]
                   | None => []
                   end
               | None => []
               end
           | None => []
           end
         else [].
Proof.
  unfold onCodeAction. destruct (document_open w uri); cbn [negb].
  2:{ exists [], s, []. rewrite app_nil_r. repeat split; auto. }
  destruct (uriToFsPath uri) as [filePath|].
  2:{ exists [], s, []. rewrite app_nil_r. repeat split; auto. }
  unfold bind.
  destruct (blameSingleLineCached_effects w filePath (startLine + 1) s)
    as (answer & s' & extra & -> & Htrace & Hanswer & Hw & Hi & Ho & Hb & _).
  assert (E : match answer with
              | Some info =>
                  [ {| title := formatBlameLabel info (now w);
                       action_command :=
                         {| command := CMD_OPEN; arg_uri := Some uri;
                            arg_line := Some (startLine + 1) |} |} ]
              | None => []
              end
              = match keyOf w filePath with
                | Some ck =>
                    match
                      match Map_get (lineCache s)
                              (cacheKeyOf filePath (startLine + 1) (key ck)) with
                      | Some hit => hit
                      | None => blameOf w ck (startLine + 1)
                      end
                    with
                    | Some info =>
                        [ {| title := formatBlameLabel info (now w);
                             action_command :=
                               {| command := CMD_OPEN; arg_uri := Some uri;
                                  arg_line := Some (startLine + 1) |} |} ]
                    | None => []
                    end
                | None => []
                end).
  { rewrite Hanswer. destruct (keyOf w filePath); reflexivity. }
  rewrite <- E. destruct answer as [info|]; unfold ret;
    eexists; exists s', extra; repeat split; auto.
Qed.

(** The follow-up command, effect by effect. *)
Lemma onExecuteCommand_trace
    (w : World) (uri filePath : string) (line : Z) (s : Server) :
  uri <> ""%string -> line <> 0 -> uriToFsPath uri = Some filePath ->
  match keyOf w filePath with
  | None =>
      onExecuteCommand w
        {| command := CMD_OPEN; arg_uri := Some uri; arg_line := Some line |} s
      = Some (tt, {| lineCache := lineCache s;
                     trace := trace s ++ computeKey_effects w filePath
                              ++ [ShowWarning "Not in a git repo (or git not available)."] |})
  | Some ck =>
      exists answer m blames,
        onExecuteCommand w
          {| command := CMD_OPEN; arg_uri := Some uri; arg_line := Some line |} s
        = Some (tt,
                {| lineCache := m;
                   trace :=
                     trace s ++ computeKey_effects w filePath
                     ++ [ExecGit ["-C"; root ck; "remote"; "get-url"; "origin"]]
                     ++ computeKey_effects w filePath ++ blames
                     ++ match remoteOf w ck, answer with
                        | None, _ => [ShowWarning "No 'origin' remote found."]
                        | Some _, None => [ShowWarning "No blame info for that line."]
                        | Some remote, Some i =>
                            match normaliseRemoteToHttps remote with
                            | None =>
                                [ShowWarning ("Unsupported remote URL: " ++ remote)]
                            | Some base =>
                                let url := buildFileUrl path_sep base (rel ck)
                                             (commit i) line in
                                ShowDocument url
                                :: (if showDocument w url then []
                                    else [ShowInformation ("Open: " ++ url)])
                            end
                        end |})
        /\ (Map_size (lineCache s) <= lineCache_max -> Map_size m <= lineCache_max)
        /\ (forall hit,
              Map_get (lineCache s) (cacheKeyOf filePath line (key ck)) = Some hit ->
              answer = hit /\ blames = [])
        /\ (Map_get (lineCache s) (cacheKeyOf filePath line (key ck)) = None ->
              answer = blameOf w ck line
              /\ blames = [ExecGit (blameArgs (root ck) (rel ck) line)])
  end.
Proof.
  intros Huri Hline Hpath. unfold onExecuteCommand. cbn [command arg_uri arg_line].
  rewrite String.eqb_refl. cbn [negb].
  destruct (String.eqb_spec uri "") as [E|_]; [congruence|].
  destruct (Z.eqb_spec line 0) as [E|_]; [congruence|]. cbn [orb].
  rewrite Hpath.
  destruct (keyOf w filePath) as [ck|] eqn:Hkey.
  2:{ unfold bind at 1. rewrite computeKey_run, Hkey.
      unfold emit. cbn [lineCache trace]. now rewrite <- app_assoc. }
  unfold bind at 1. rewrite computeKey_run, Hkey.
  unfold bind at 1. rewrite getOriginRemote_run. cbn [lineCache trace].
  unfold bind at 1.
  pose proof (blameSingleLineCached_bound w filePath line
                {| lineCache := lineCache s;
                   trace := (trace s ++ computeKey_effects w filePath)
                            ++ [ExecGit ["-C"; root ck; "remote"; "get-url"; "origin"]] |})
    as Hbound.
  destruct (blameSingleLineCached_key w filePath line ck
              {| lineCache := lineCache s;
                 trace := (trace s ++ computeKey_effects w filePath)
                          ++ [ExecGit ["-C"; root ck; "remote"; "get-url"; "origin"]] |}
              Hkey)
    as (answer & m & blames & Hrun & _ & _ & Hhit & Hmiss).
  rewrite Hrun. cbn [lineCache trace] in *.
  exists answer, m, blames.
  split; [|split; [intros Hsize; exact (Hbound _ _ Hsize Hrun)|split; assumption]].
  destruct (remoteOf w ck) as [remote|].
  - destruct answer as [i|].
    + destruct (normaliseRemoteToHttps remote) as [base|].
      * unfold openUrlOrShow, bind, emit, ret. cbn [lineCache trace]. cbv zeta.
        destruct (showDocument w (buildFileUrl path_sep base (rel ck) (commit i) line));
          cbn [lineCache trace]; do 2 f_equal; f_equal;
          repeat rewrite <- app_assoc; reflexivity.
      * unfold emit. cbn [lineCache trace]. do 2 f_equal. f_equal.
        repeat rewrite <- app_assoc. reflexivity.
    + unfold emit. cbn [lineCache trace]. do 2 f_equal. f_equal.
      repeat rewrite <- app_assoc. reflexivity.
  - unfold emit. cbn [lineCache trace]. do 2 f_equal. f_equal.
    repeat rewrite <- app_assoc. reflexivity.
Qed.
End HandlerEdges.

(** ** What a request can do *)

Section HandlerOutcomes.
Context {P : Platform}.
Local Open Scope list_scope.

Ltac count_blames :=
  repeat match goal with
         | |- context [blame_invocations (?e :: ?l)] =>
             let n := eval lazy in (blame_invocations (e :: l)) in
             change (blame_invocations (e :: l)) with n
         | |- context [blame_invocations []] =>
             change (blame_invocations []) with 0%nat
         end;
  cbn [List.length app]; lia.

(** X19. The follow-up command on a file URI and a line ends in exactly
    one of two ways, a warning or a request to open a page, never both and
    never neither; an information message is shown only as the fall-back
    of a request that the client did not answer, and then it is [Open: ]
    followed by the address; at most one blame is run, and every git
    command only reads. *)
Theorem onExecuteCommand_one_outcome
    (w : World) (uri filePath : string) (line : Z) (s : Server) :
  uri <> ""%string -> line <> 0 -> uriToFsPath uri = Some filePath ->
  exists s' shown,
    onExecuteCommand w
      {| command := CMD_OPEN; arg_uri := Some uri; arg_line := Some line |} s
    = Some (tt, s')
    /\ trace s' = trace s ++ shown
    /\ (List.length (warnings shown) + List.length (open_requests shown) = 1)%nat
    /\ informations shown
       = map (fun url => ("Open: " ++ url)%string)
           (filter (fun url => negb (showDocument w url)) (open_requests shown))
    /\ (blame_invocations shown <= 1)%nat
    /\ Forall (fun e => reads_only e = true) shown.
Proof.
  intros Huri Hline Hpath.
  pose proof (onExecuteCommand_trace w uri filePath line s Huri Hline Hpath) as Hrun.
  destruct (computeKey_effects_quiet w filePath) as (Hb & Hw & Ho).
  destruct (computeKey_effects_read w filePath) as (Hi & Hr).
  destruct (keyOf w filePath) as [ck|].
  2:{ rewrite Hrun. eexists; eexists. split; [reflexivity|].
      cbn [trace]. split; [reflexivity|].
      rewrite warnings_app, informations_app, open_requests_app,
        blame_invocations_app, Hb, Hw, Ho, Hi.
      split; [reflexivity|]. split; [reflexivity|]. split; [count_blames|].
      apply Forall_app. split; [exact Hr|]. repeat constructor. }
  destruct Hrun as (answer & m & blames & -> & _ & Hhit & Hmiss).
  assert (Hblames : warnings blames = [] /\ informations blames = []
                    /\ open_requests blames = []
                    /\ (blame_invocations blames <= 1)%nat
                    /\ Forall (fun e => reads_only e = true) blames).
  { destruct (Map_get (lineCache s) (cacheKeyOf filePath line (key ck))) as [hit|].
    - destruct (Hhit hit eq_refl) as [_ ->]. repeat split; auto.
    - destruct (Hmiss eq_refl) as [_ ->]. repeat split; auto; count_blames. }
  destruct Hblames as (Hbw & Hbi & Hbo & Hbb & Hbr). clear Hhit Hmiss.
  eexists; eexists. split; [reflexivity|]. cbn [trace]. split; [reflexivity|].
  rewrite !warnings_app, !informations_app, !open_requests_app,
    !blame_invocations_app, Hb, Hw, Ho, Hi, Hbw, Hbi, Hbo.
  assert (Hclose : forall closing : list effect,
            Forall (fun e => reads_only e = true) closing ->
            Forall (fun e => reads_only e = true)
              (computeKey_effects w filePath
               ++ [ExecGit ["-C"; root ck; "remote"; "get-url"; "origin"]]
               ++ computeKey_effects w filePath ++ blames ++ closing)).
  { intros closing Hc. repeat (apply Forall_app; split); auto; repeat constructor. }
  destruct (remoteOf w ck) as [remote|].
  - destruct answer as [i|].
    + destruct (normaliseRemoteToHttps remote) as [base|].
      * cbv zeta.
        destruct (showDocument w (buildFileUrl path_sep base (rel ck) (commit i) line))
          eqn:Hshow.
        -- cbn [warnings informations open_requests flat_map app List.length
                  filter map]. rewrite Hshow. cbn [negb map].
           split; [reflexivity|]. split; [reflexivity|].
           split; [count_blames|]. apply Hclose. repeat constructor.
        -- cbn [warnings informations open_requests flat_map app List.length
                  filter map]. rewrite Hshow. cbn [negb map].
           split; [reflexivity|]. split; [reflexivity|].
           split; [count_blames|]. apply Hclose. repeat constructor.
      * split; [reflexivity|]. split; [reflexivity|].
        split; [count_blames|]. apply Hclose. repeat constructor.
    + split; [reflexivity|]. split; [reflexivity|].
      split; [count_blames|]. apply Hclose. repeat constructor.
  - split; [reflexivity|]. split; [reflexivity|].
    split; [count_blames|]. apply Hclose. repeat constructor.
Qed.

(** The command handler leaves an entry of the cache where it is, behind
    at most one more entry, as long as the capacity is not reached. *)
Lemma onExecuteCommand_keeps_held (w : World) (params : ExecuteCommandParams)
    (s : Server) (k : string) (v : option BlameInfo) (n : nat) :
  held (lineCache s) k v n -> Z.of_nat n + 2 <= lineCache_max ->
  exists s', onExecuteCommand w params s = Some (tt, s')
             /\ held (lineCache s') k v (S n).
Proof.
  intros Hheld Hroom.
  assert (Hweak : held (lineCache s) k v (S n))
    by (apply (held_weaken _ _ _ n); [lia | exact Hheld]).
  assert (Hstay : exists s', Some (tt, s) = Some (tt, s')
                             /\ held (lineCache s') k v (S n)) by eauto.
  destruct params as [cmd [uri|] [line|]];
    try (rewrite onExecuteCommand_ignored by (cbn; tauto); exact Hstay).
  destruct (String.eqb_spec cmd CMD_OPEN) as [->|Hcmd];
    [|rewrite onExecuteCommand_ignored by (cbn; tauto); exact Hstay].
  destruct (String.eqb_spec uri "") as [->|Huri];
    [rewrite onExecuteCommand_ignored by (cbn; tauto); exact Hstay|].
  destruct (Z.eqb_spec line 0) as [->|Hline];
    [rewrite onExecuteCommand_ignored by (cbn; tauto); exact Hstay|].
  destruct (uriToFsPath uri) as [filePath|] eqn:Hpath;
    [|rewrite onExecuteCommand_ignored by (cbn; eauto 10); exact Hstay].
  unfold onExecuteCommand. cbn [command arg_uri arg_line].
  rewrite String.eqb_refl. cbn [negb].
  destruct (String.eqb_spec uri "") as [E|_]; [congruence|].
  destruct (Z.eqb_spec line 0) as [E|_]; [congruence|]. cbn [orb].
  rewrite Hpath. unfold bind at 1. rewrite computeKey_run.
  destruct (keyOf w filePath) as [ck|].
  2:{ unfold emit. cbn [lineCache trace]. eexists. split; [reflexivity|].
      exact Hweak. }
  unfold bind at 1. rewrite getOriginRemote_run. cbn [lineCache trace].
  unfold bind at 1.
  destruct (blameSingleLineCached_keeps w filePath line
              {| lineCache := lineCache s;
                 trace := (trace s ++ computeKey_effects w filePath)
                          ++ [ExecGit ["-C"; root ck; "remote"; "get-url"; "origin"]] |}
              k v n Hheld Hroom) as (answer & s' & -> & Hheld').
  destruct (remoteOf w ck) as [remote|].
  - destruct answer as [i|].
    + destruct (normaliseRemoteToHttps remote) as [base|].
      * unfold openUrlOrShow, bind, emit, ret. cbn [lineCache trace].
        destruct (showDocument w _); eexists; (split; [reflexivity|]); exact Hheld'.
      * unfold emit. eexists. split; [reflexivity|]. exact Hheld'.
    + unfold emit. eexists. split; [reflexivity|]. exact Hheld'.
  - unfold emit. eexists. split; [reflexivity|]. exact Hheld'.
Qed.

(** So does every request but a save. *)
Lemma handle_keeps_held (r : request) (s : Server) (k : string)
    (v : option BlameInfo) (n : nat) :
  r <> DidSaveNotification ->
  held (lineCache s) k v n -> Z.of_nat n + 2 <= lineCache_max ->
  exists s', handle r s = Some (tt, s') /\ held (lineCache s') k v (S n).
Proof.
  intros Hr Hheld Hroom.
  assert (Hweak : held (lineCache s) k v (S n))
    by (apply (held_weaken _ _ _ n); [lia | exact Hheld]).
  destruct r as [w uri startLine|w params|]; cbn [handle]; [| |congruence].
  - unfold onCodeAction, bind at 1.
    destruct (document_open w uri); cbn [negb]; [|unfold ret; eauto].
    destruct (uriToFsPath uri) as [filePath|]; [|unfold ret; eauto].
    unfold bind.
    destruct (blameSingleLineCached_keeps w filePath (startLine + 1) s k v n
                Hheld Hroom) as (answer & s' & -> & Hheld').
    destruct answer; unfold ret; eauto.
  - now apply onExecuteCommand_keeps_held.
Qed.

Lemma serve_keeps_held (requests : list request) (s : Server) (k : string)
    (v : option BlameInfo) (n : nat) :
  Forall (fun r => r <> DidSaveNotification) requests ->
  held (lineCache s) k v n ->
  Z.of_nat (n + List.length requests) < lineCache_max ->
  exists s', serve requests s = Some (tt, s')
             /\ held (lineCache s') k v (n + List.length requests).
Proof.
  intros Hall. revert s n. induction Hall as [|r requests Hr _ IH];
    intros s n Hheld Hroom.
  - exists s. split; [reflexivity|]. now rewrite Nat.add_0_r.
  - cbn [serve List.length] in *. unfold bind at 1.
    destruct (handle_keeps_held r s k v n Hr Hheld) as (s1 & -> & Hheld1); [lia|].
    destruct (IH s1 (S n) Hheld1) as (s' & -> & Hheld'); [lia|].
    exists s'. split; [reflexivity|].
    now replace (n + S (List.length requests))%nat
      with (S n + List.length requests)%nat by lia.
Qed.

(** X20. The command of an action reuses what the action looked up: when
    the code action handler has offered an action, and then fewer than 800
    other requests are served, none of them a save notification, the
    command of the action, run in a world where the file has the same
    volatility token, runs no blame, and warns neither of a missing
    repository nor of a missing attribution. *)
Theorem follow_up_reuses_cache
    (w w' : World) (uri filePath : string) (startLine : Z) (s s1 : Server)
    (a : CodeAction) (between : list request) :
  0 <= startLine ->
  onCodeAction w uri startLine s = Some ([a], s1) ->
  uriToFsPath uri = Some filePath ->
  Forall (fun r => r <> DidSaveNotification) between ->
  (List.length between < 800)%nat ->
  option_map key (keyOf w' filePath) = option_map key (keyOf w filePath) ->
  exists s2 s3 shown,
    serve between s1 = Some (tt, s2)
    /\ onExecuteCommand w' (action_command a) s2 = Some (tt, s3)
    /\ trace s3 = trace s2 ++ shown
    /\ blame_invocations shown = 0%nat
    /\ ~ In "Not in a git repo (or git not available)."%string (warnings shown)
    /\ ~ In "No blame info for that line."%string (warnings shown).
Proof.
  intros Hline Haction Hpath Hbetween Hfew Htoken.
  assert (Huri : uri <> ""%string).
  { intros ->. unfold uriToFsPath in Hpath.
    rewrite URL_protocol_empty in Hpath. discriminate. }
  unfold onCodeAction in Haction.
  destruct (document_open w uri); cbn [negb] in Haction; [|discriminate].
  rewrite Hpath in Haction. unfold bind in Haction.
  destruct (keyOf w filePath) as [ck|] eqn:Hkey.
  2:{ rewrite (blameSingleLineCached_no_key w filePath _ s Hkey) in Haction.
      discriminate. }
  destruct (blameSingleLineCached_key w filePath (startLine + 1) ck s Hkey)
    as (answer & m & blames & Hrun & Hheld & _).
  rewrite Hrun in Haction. destruct answer as [info|]; [|discriminate].
  unfold ret in Haction. injection Haction as <- <-. cbn [action_command].
  destruct (serve_keeps_held between
              {| lineCache := m;
                 trace := trace s ++ computeKey_effects w filePath ++ blames |}
              (cacheKeyOf filePath (startLine + 1) (key ck)) (Some info) 0
              Hbetween Hheld) as (s2 & Hserve & Hheld2).
  { unfold lineCache_max. cbn [Nat.add]. lia. }
  destruct (keyOf w' filePath) as [ck'|] eqn:Hkey'; [|discriminate].
  cbn [option_map] in Htoken. injection Htoken as Htoken.
  pose proof (onExecuteCommand_trace w' uri filePath (startLine + 1) s2
                Huri ltac:(lia) Hpath) as Hcmd.
  rewrite Hkey' in Hcmd.
  destruct Hcmd as (answer & m' & blames' & Hcmd & _ & Hhit & _).
  rewrite Htoken in Hhit.
  destruct (Hhit (Some info) (held_get _ _ _ _ Hheld2)) as [-> ->].
  destruct (computeKey_effects_quiet w' filePath) as (Hb & Hw & _).
  exists s2. eexists; eexists. split; [exact Hserve|]. split; [exact Hcmd|].
  cbn [trace]. split; [reflexivity|].
  rewrite !warnings_app, !blame_invocations_app, Hb, Hw.
  destruct (remoteOf w' ck') as [remote|].
  - destruct (normaliseRemoteToHttps remote) as [base|].
    + cbv zeta.
      destruct (showDocument w' (buildFileUrl path_sep base (rel ck') (commit info)
                                   (startLine + 1)));
        (split; [reflexivity|]); split; intros [].
    + split; [reflexivity|].
      split; (intros [E|[]]; discriminate E).
  - split; [reflexivity|].
    split; (intros [E|[]]; discriminate E).
Qed.

(** Every request keeps the server sound, and runs at most one blame. *)
Lemma handle_sound (r : request) (s : Server) :
  sound s ->
  exists s' extra,
    handle r s = Some (tt, s')
    /\ trace s' = trace s ++ extra
    /\ Map_size (lineCache s') <= lineCache_max
    /\ Forall (fun e => reads_only e = true) extra
    /\ (blame_invocations extra <= 1)%nat.
Proof.
  intros [Hsize Hreads].
  assert (Hstay : exists s' extra,
             Some (tt, s) = Some (tt, s')
             /\ trace s' = trace s ++ extra
             /\ Map_size (lineCache s') <= lineCache_max
             /\ Forall (fun e => reads_only e = true) extra
             /\ (blame_invocations extra <= 1)%nat).
  { exists s, []. rewrite app_nil_r. repeat split; auto. }
  destruct r as [w uri startLine|w params|]; cbn [handle].
  - unfold onCodeAction, bind at 1.
    destruct (document_open w uri); cbn [negb]; [|exact Hstay].
    destruct (uriToFsPath uri) as [filePath|]; [|exact Hstay].
    unfold bind.
    destruct (blameSingleLineCached_effects w filePath (startLine + 1) s)
      as (answer & s' & extra & Hrun & Htrace & _ & _ & _ & _ & Hb & Hr).
    pose proof (blameSingleLineCached_bound _ _ _ _ _ _ Hsize Hrun) as Hsize'.
    rewrite Hrun. destruct answer; unfold ret; exists s', extra; auto.
  - destruct params as [cmd [uri|] [line|]];
      try (rewrite onExecuteCommand_ignored by (cbn; tauto); exact Hstay).
    destruct (String.eqb_spec cmd CMD_OPEN) as [->|Hcmd];
      [|rewrite onExecuteCommand_ignored by (cbn; tauto); exact Hstay].
    destruct (String.eqb_spec uri "") as [->|Huri];
      [rewrite onExecuteCommand_ignored by (cbn; tauto); exact Hstay|].
    destruct (Z.eqb_spec line 0) as [->|Hline];
      [rewrite onExecuteCommand_ignored by (cbn; tauto); exact Hstay|].
    destruct (uriToFsPath uri) as [filePath|] eqn:Hpath;
      [|rewrite onExecuteCommand_ignored by (cbn; eauto 10); exact Hstay].
    pose proof (onExecuteCommand_trace w uri filePath line s Huri Hline Hpath) as Hrun.
    destruct (computeKey_effects_quiet w filePath) as (Hb & _).
    destruct (computeKey_effects_read w filePath) as (_ & Hr).
    destruct (keyOf w filePath) as [ck|].
    2:{ rewrite Hrun. eexists; eexists. split; [reflexivity|].
        cbn [trace lineCache]. split; [reflexivity|]. split; [exact Hsize|].
        rewrite blame_invocations_app, Hb. split; [|count_blames].
        apply Forall_app. split; [exact Hr|]. repeat constructor. }
    destruct Hrun as (answer & m & blames & -> & Hm & Hhit & Hmiss).
    assert (Hblames : (blame_invocations blames <= 1)%nat
                      /\ Forall (fun e => reads_only e = true) blames).
    { destruct (Map_get (lineCache s) (cacheKeyOf filePath line (key ck))) as [hit|].
      - destruct (Hhit hit eq_refl) as [_ ->]. split; [count_blames | constructor].
      - destruct (Hmiss eq_refl) as [_ ->]. split; [count_blames | repeat constructor]. }
    destruct Hblames as [Hbb Hbr].
    eexists; eexists. split; [reflexivity|]. cbn [trace lineCache].
    split; [reflexivity|]. split; [now apply Hm|].
    rewrite !blame_invocations_app, Hb.
    assert (Hclosing :
              forall closing : list effect,
                blame_invocations closing = 0%nat ->
                Forall (fun e => reads_only e = true) closing ->
                Forall (fun e => reads_only e = true)
                  (computeKey_effects w filePath
                   ++ [ExecGit ["-C"; root ck; "remote"; "get-url"; "origin"]]
                   ++ computeKey_effects w filePath ++ blames ++ closing)
                /\ (0 + (blame_invocations
                           [ExecGit ["-C"; root ck; "remote"; "get-url"; "origin"]]
                         + (0 + (blame_invocations blames
                                 + blame_invocations closing))) <= 1)%nat).
    { intros closing Hc0 Hc. split.
      - repeat (apply Forall_app; split); auto; repeat constructor.
      - rewrite Hc0. change (blame_invocations
                               [ExecGit ["-C"; root ck; "remote"; "get-url"; "origin"]])
          with 0%nat. lia. }
    destruct (remoteOf w ck) as [remote|].
    + destruct answer as [i|].
      * destruct (normaliseRemoteToHttps remote) as [base|].
        -- cbv zeta.
           destruct (showDocument w
                       (buildFileUrl path_sep base (rel ck) (commit i) line));
             apply Hclosing; [reflexivity | repeat constructor
                             | reflexivity | repeat constructor].
        -- apply Hclosing; [reflexivity | repeat constructor].
      * apply Hclosing; [reflexivity | repeat constructor].
    + apply Hclosing; [reflexivity | repeat constructor].
  - unfold onDidSave, lineCache_clear. exists {| lineCache := LruCache_clear (lineCache s);
                                                  trace := trace s |}, [].
    cbn [trace lineCache]. rewrite app_nil_r. repeat split; auto.
    unfold LruCache_clear. discriminate.
Qed.

Lemma serve_sound (requests : list request) (s : Server) :
  sound s ->
  exists s',
    serve requests s = Some (tt, s')
    /\ sound s'
    /\ (blame_invocations (trace s')
        <= blame_invocations (trace s) + List.length requests)%nat.
Proof.
  revert s. induction requests as [|r requests IH]; intros s Hs.
  - exists s. split; [reflexivity|]. split; [exact Hs | count_blames].
  - cbn [serve]. unfold bind at 1.
    destruct (handle_sound r s Hs) as (s1 & extra & -> & Htrace & Hsize & Hr & Hb).
    assert (Hs1 : sound s1).
    { split; [exact Hsize|]. rewrite Htrace. apply Forall_app.
      split; [apply Hs | exact Hr]. }
    destruct (IH s1 Hs1) as (s' & -> & Hs' & Hcount).
    exists s'. split; [reflexivity|]. split; [exact Hs'|].
    rewrite Htrace, blame_invocations_app in Hcount. cbn [List.length]. lia.
Qed.

Lemma serve_app (before after : list request) (s : Server) :
  serve (before ++ after) s
  = match serve before s with
    | Some (_, s1) => serve after s1
    | None => None
    end.
Proof.
  revert s. induction before as [|r before IH]; intros s; [reflexivity|].
  cbn [app serve]. unfold bind at 1 2.
  destruct (handle r s) as [[[] s1]|]; [apply IH | reflexivity].
Qed.

(** X21. Whatever requests come, in whatever worlds, each served to
    completion before the next: the server answers each of them (no handler
    fails to return); before and after every single request its cache holds
    at most 800 entries; every single request runs at most one blame, and
    the only git commands it runs are [rev-parse], [blame] and
    [remote get-url]; so the whole session runs at most as many blames as
    it has requests. *)
Theorem serve_keeps_sound (requests : list request) :
  exists s',
    serve requests fresh = Some (tt, s')
    /\ Map_size (lineCache s') <= 800
    /\ Forall (fun e => reads_only e = true) (trace s')
    /\ (blame_invocations (trace s') <= List.length requests)%nat
    /\ forall before r after,
         requests = before ++ r :: after ->
         exists s1 s2 shown,
           serve before fresh = Some (tt, s1)
           /\ Map_size (lineCache s1) <= 800
           /\ handle r s1 = Some (tt, s2)
           /\ trace s2 = trace s1 ++ shown
           /\ (blame_invocations shown <= 1)%nat
           /\ Forall (fun e => reads_only e = true) shown
           /\ Map_size (lineCache s2) <= 800
           /\ serve after s2 = Some (tt, s').
Proof.
  assert (Hfresh : sound fresh) by (split; [discriminate | constructor]).
  destruct (serve_sound requests fresh Hfresh) as (s' & Hrun & [Hsize Hreads] & Hcount).
  exists s'. split; [exact Hrun|]. split; [exact Hsize|]. split; [exact Hreads|].
  split; [exact Hcount|].
  intros before r after ->.
  destruct (serve_sound before fresh Hfresh) as (s1 & Hbefore & Hs1 & _).
  destruct (handle_sound r s1 Hs1) as (s2 & shown & Hhandle & Htrace & Hsize2 & Hr & Hb).
  assert (Hs2 : sound s2).
  { split; [exact Hsize2|]. rewrite Htrace. apply Forall_app.
    split; [apply Hs1 | exact Hr]. }
  destruct (serve_sound after s2 Hs2) as (s'' & Hafter & _).
  rewrite serve_app, Hbefore in Hrun. cbn [serve] in Hrun. unfold bind at 1 in Hrun.
  rewrite Hhandle, Hafter in Hrun. injection Hrun as <-.
  exists s1, s2, shown. split; [exact Hbefore|]. split; [apply Hs1|].
  split; [exact Hhandle|]. split; [exact Htrace|]. split; [exact Hb|].
  split; [exact Hr|]. split; [exact Hsize2|]. exact Hafter.
Qed.
End HandlerOutcomes.

Lemma onExecuteCommand_one_outcome_witness :
  exists s' shown,
    onExecuteCommand (P := example_platform) example_world_with_remote
      {| command := CMD_OPEN; arg_uri := Some "file:///repo/a.ts";
         arg_line := Some 3 |} fresh
    = Some (tt, s')
    /\ trace s' = (trace fresh ++ shown)%list
    /\ (List.length (warnings shown) + List.length (open_requests shown) = 1)%nat
    /\ informations shown
       = map (fun url => "Open: " ++ url)
           (filter (fun url => negb (showDocument example_world_with_remote url))
              (open_requests shown))
    /\ (blame_invocations shown <= 1)%nat
    /\ Forall (fun e => reads_only e = true) shown.
Proof.
  apply (onExecuteCommand_one_outcome (P := example_platform)
           example_world_with_remote "file:///repo/a.ts" "/repo/a.ts" 3 fresh).
  - discriminate.
  - discriminate.
  - reflexivity.
Defined.

Lemma follow_up_reuses_cache_witness :
  match onCodeAction (P := example_platform) example_world_with_remote
          "file:///repo/a.ts" 2 fresh with
  | Some ([a], s1) =>
      exists s2 s3 shown,
        serve [CodeActionRequest example_world_with_remote "file:///repo/b.ts" 2;
               ExecuteCommandRequest example_world_with_remote
                 {| command := CMD_OPEN; arg_uri := Some "file:///repo/b.ts";
                    arg_line := Some 3 |}] s1
        = Some (tt, s2)
        /\ onExecuteCommand example_world_with_remote (action_command a) s2
           = Some (tt, s3)
        /\ trace s3 = (trace s2 ++ shown)%list
        /\ blame_invocations shown = 0%nat
        /\ ~ In "Not in a git repo (or git not available)." (warnings shown)
        /\ ~ In "No blame info for that line." (warnings shown)
  | _ => False
  end.
Proof.
  destruct (onCodeAction (P := example_platform) example_world_with_remote
              "file:///repo/a.ts" 2 fresh) as [[[|a [|b rest]] s1]|] eqn:E;
    try (vm_compute in E; discriminate E).
  apply (follow_up_reuses_cache (P := example_platform) example_world_with_remote
           example_world_with_remote "file:///repo/a.ts" "/repo/a.ts" 2 fresh s1 a).
  - lia.
  - exact E.
  - reflexivity.
  - repeat constructor; discriminate.
  - simpl. lia.
  - reflexivity.
Defined.

(** ** The label of a parsed attribution, the short hash, and other triggers *)

Section LabelAndTriggers.
Context {P : Platform}.
Local Open Scope list_scope.

Lemma split_all_free (sep : ascii) (s : string) :
  Forall (fun l => free sep l) (split sep s).
Proof.
  induction s as [|c s IH]; cbn [split]; [repeat constructor|].
  destruct (Ascii.eqb c sep) eqn:E; [constructor; [reflexivity | exact IH]|].
  destruct (split sep s) as [|x xs]; [repeat constructor; cbn; now rewrite E|].
  inversion IH as [|? ? Hx Hxs]; subst. constructor; [|exact Hxs].
  cbn [forallb_string]. now rewrite E, Hx.
Qed.

Lemma slice_forallb (p : ascii -> bool) (n : nat) (s : string) :
  forallb_string p s = true -> forallb_string p (slice n s) = true.
Proof.
  revert s. induction n as [|n IH]; intros s Hs; [destruct s; exact Hs|].
  destruct s as [|c s]; [reflexivity|]. cbn [slice].
  cbn [forallb_string] in Hs. apply andb_true_iff in Hs. now apply IH.
Qed.

Lemma substring0_forallb (p : ascii -> bool) (n : nat) (s : string) :
  forallb_string p s = true -> forallb_string p (substring0 n s) = true.
Proof.
  unfold substring0. revert s. induction n as [|n IH]; intros s Hs.
  - destruct s; reflexivity.
  - destruct s as [|c s]; [reflexivity|]. cbn [substring forallb_string] in *.
    apply andb_true_iff in Hs. destruct Hs as [-> Hs]. now apply IH.
Qed.

Lemma parseLine_one_line (info : BlameInfo) (line : string) :
  free LF line ->
  (authorTime info <> Some NaN
   /\ (forall a, author info = Some a -> free LF a)
   /\ (forall s, summary info = Some s -> free LF s)) ->
  authorTime (parseLine info line) <> Some NaN
  /\ (forall a, author (parseLine info line) = Some a -> free LF a)
  /\ (forall s, summary (parseLine info line) = Some s -> free LF s).
Proof.
  intros Hline (Ht & Ha & Hs). unfold parseLine.
  destruct (startsWith line "author ").
  { cbn [set_author authorTime author summary]. split; [exact Ht|].
    split; [|exact Hs]. intros a [= <-]. apply trim_forallb.
    exact (slice_forallb _ (String.length "author ") line Hline). }
  destruct (startsWith line "author-time ").
  { destruct (Number (trim (slice (String.length "author-time ") line))) eqn:E;
      cbn [Number_isNaN negb set_authorTime authorTime author summary];
      (split; [|split; assumption]); congruence. }
  destruct (startsWith line "summary ").
  { cbn [set_summary authorTime author summary]. split; [exact Ht|].
    split; [exact Ha|]. intros s [= <-]. apply trim_forallb.
    exact (slice_forallb _ (String.length "summary ") line Hline). }
  auto.
Qed.

Lemma parseBlamePorcelain_one_line_fields (porcelain : string) (info : BlameInfo) :
  parseBlamePorcelain porcelain = Some info ->
  authorTime info <> Some NaN
  /\ (forall a, author info = Some a -> free LF a)
  /\ (forall s, summary info = Some s -> free LF s).
Proof.
  unfold parseBlamePorcelain. cbv zeta.
  destruct (String.eqb (trim (hd ""%string (split LF porcelain))) ""); [discriminate|].
  destruct (String.eqb
              (hd ""%string (split " " (trim (hd ""%string (split LF porcelain))))) "");
    [discriminate|].
  intros [= <-]. pose proof (split_all_free LF porcelain) as Hlines.
  assert (Hinit : forall c : string,
            authorTime {| commit := c; author := None; authorTime := None;
                          summary := None |} <> Some NaN
            /\ (forall a, author {| commit := c; author := None; authorTime := None;
                                    summary := None |} = Some a -> free LF a)
            /\ (forall s, summary {| commit := c; author := None; authorTime := None;
                                     summary := None |} = Some s -> free LF s)).
  { intros c. cbn. repeat split; discriminate. }
  specialize (Hinit (hd ""%string (split " " (trim (hd ""%string (split LF porcelain)))))).
  revert Hinit.
  generalize {| commit := hd ""%string
                            (split " " (trim (hd ""%string (split LF porcelain))));
                author := None; authorTime := None; summary := None |}.
  induction Hlines as [|l lines Hl _ IH]; intros i Hi; [exact Hi|].
  cbn [fold_left]. apply IH. now apply parseLine_one_line.
Qed.

(** X22. The title of a code action is one line: the label of a record
    that the parser returned has no line feed, when the time of the record
    is absent or a plain integer (the only times whose phrase the function
    itself computes). *)
Theorem formatBlameLabel_one_line (porcelain : string) (info : BlameInfo) (nowMs : Z) :
  parseBlamePorcelain porcelain = Some info ->
  (forall lit, authorTime info <> Some (Other lit)) ->
  free LF (formatBlameLabel info nowMs).
Proof.
  intros Hparse Hplain.
  destruct (parseBlamePorcelain_one_line_fields porcelain info Hparse)
    as (Ht & Ha & Hs).
  unfold formatBlameLabel. cbv zeta.
  assert (Hauthor : free LF match author info with
                            | Some a => a
                            | None => "Unknown author"%string
                            end).
  { destruct (author info) as [a|]; [now apply Ha | reflexivity]. }
  assert (Hmessage : free LF (labelMessage match summary info with
                                           | Some s => s
                                           | None => ""%string
                                           end)).
  { unfold labelMessage.
    assert (Hsum : free LF match summary info with
                           | Some s => s
                           | None => ""%string
                           end)
      by (destruct (summary info) as [s|]; [now apply Hs | reflexivity]).
    destruct (maxLen <? _)%nat; [|exact Hsum].
    rewrite forallb_string_app, substring0_forallb by exact Hsum. reflexivity. }
  assert (Hwhen : free LF match authorTime info with
                          | Some n => relativeFromNumber n nowMs
                          | None => "unknown date"%string
                          end).
  { destruct (authorTime info) as [[z| |lit]|]; cbn [relativeFromNumber].
    - apply relativeFromUnixSeconds_phrase.
    - congruence.
    - now destruct (Hplain lit).
    - reflexivity. }
  rewrite !forallb_string_app, Hauthor, Hwhen, Hmessage. reflexivity.
Qed.

(** X23. The short hash is the first seven code units of the hash, and a
    hash of at most seven code units is its own short hash. *)
Theorem shortHash_prefix (full : string) :
  startsWith full (shortHash full) = true
  /\ String.length (shortHash full) = Nat.min 7 (String.length full)
  /\ ((String.length full <= 7)%nat -> shortHash full = full).
Proof.
  unfold shortHash. split; [|split].
  - rewrite (substring0_slice 7 full) at 1. apply startsWith_app.
  - assert (H : forall n s,
               String.length (substring0 n s) = Nat.min n (String.length s)).
    { unfold substring0. induction n as [|n IH]; intros s.
      - destruct s; reflexivity.
      - destruct s as [|c s]; [reflexivity|]. cbn [substring String.length].
        rewrite IH. reflexivity. }
    apply H.
  - apply substring0_all.
Qed.

(** X24. Whatever the parameters, the command handler returns; and it
    does nothing at all (no effect, and the cache as it was) exactly when
    the trigger is not the open command on a file URI and a line: another
    command, a missing or empty URI, a missing or zero line, or a URI that
    is not a file URI. *)
Theorem onExecuteCommand_silent_iff
    (w : World) (params : ExecuteCommandParams) (s : Server) :
  exists s',
    onExecuteCommand w params s = Some (tt, s')
    /\ (s' = s <->
        (command params <> CMD_OPEN
         \/ arg_uri params = None \/ arg_uri params = Some ""%string
         \/ arg_line params = None \/ arg_line params = Some 0
         \/ (exists uri, arg_uri params = Some uri /\ uriToFsPath uri = None))).
Proof.
  assert (Hskip :
            (command params <> CMD_OPEN
             \/ arg_uri params = None \/ arg_uri params = Some ""%string
             \/ arg_line params = None \/ arg_line params = Some 0
             \/ (exists uri, arg_uri params = Some uri /\ uriToFsPath uri = None)) ->
            exists s',
              onExecuteCommand w params s = Some (tt, s')
              /\ (s' = s <->
                  (command params <> CMD_OPEN
                   \/ arg_uri params = None \/ arg_uri params = Some ""%string
                   \/ arg_line params = None \/ arg_line params = Some 0
                   \/ (exists uri, arg_uri params = Some uri
                                   /\ uriToFsPath uri = None)))).
  { intros Hbad. exists s. split; [now apply onExecuteCommand_ignored | tauto]. }
  destruct params as [cmd [uri|] [line|]]; cbn [command arg_uri arg_line] in *;
    try (apply Hskip; tauto).
  destruct (String.eqb_spec cmd CMD_OPEN) as [->|Hcmd]; [|apply Hskip; tauto].
  destruct (String.eqb_spec uri "") as [->|Huri]; [apply Hskip; tauto|].
  destruct (Z.eqb_spec line 0) as [->|Hline]; [apply Hskip; tauto|].
  destruct (uriToFsPath uri) as [filePath|] eqn:Hpath; [|apply Hskip; eauto 10].
  clear Hskip.
  assert (Hgrow : forall (s' : Server) (shown : list effect),
            trace s' = trace s ++ shown -> shown <> [] -> s' <> s).
  { intros s' shown Htrace Hshown ->. apply Hshown.
    apply (f_equal (@List.length effect)) in Htrace. rewrite length_app in Htrace.
    destruct shown; [reflexivity | cbn [List.length] in Htrace; lia]. }
  assert (Hvalid : ~ (CMD_OPEN <> CMD_OPEN
                      \/ Some uri = None \/ Some uri = Some ""%string
                      \/ Some line = None \/ Some line = Some 0
                      \/ (exists u, Some uri = Some u /\ uriToFsPath u = None))).
  { intros [H|[H|[H|[H|[H|(u & H & Hu)]]]]]; try congruence. }
  pose proof (onExecuteCommand_trace w uri filePath line s Huri Hline Hpath) as Hrun.
  destruct (keyOf w filePath) as [ck|].
  - destruct Hrun as (answer & m & blames & -> & _).
    eexists. split; [reflexivity|]. split; [|tauto]. intros E. exfalso.
    revert E. eapply Hgrow; [cbn [trace]; reflexivity|].
    intros E. apply (f_equal (@List.length effect)) in E.
    rewrite !length_app in E. cbn [List.length] in E. lia.
  - rewrite Hrun. eexists. split; [reflexivity|]. split; [|tauto]. intros E.
    exfalso. revert E. eapply Hgrow; [cbn [trace]; reflexivity|].
    intros E. apply (f_equal (@List.length effect)) in E.
    rewrite !length_app in E. cbn [List.length] in E. lia.
Qed.
End LabelAndTriggers.

Lemma formatBlameLabel_one_line_witness :
  free LF
    (formatBlameLabel (P := example_platform)
       {| commit := "0123abcd"; author := Some "Ada Lovelace";
          authorTime := Some (Int 1700000000); summary := Some "Fix the parser" |}
       1700000600000).
Proof.
  apply (formatBlameLabel_one_line (P := example_platform)
           ("0123abcd 3 3 1" ++ String LF ("author Ada Lovelace"
              ++ String LF ("author-time 1700000000"
              ++ String LF "summary Fix the parser")))).
  - vm_compute. reflexivity.
  - intros lit. discriminate.
Defined.

(** ** What the server advertises *)

Section Advertised.
Context {P : Platform}.
Local Open Scope list_scope.

(** X25. The server advertises what it does: at initialisation it offers
    code actions and names one command; every action that the code action
    handler offers carries that command; and a command that was not
    advertised is passed over by the command handler, with no effect. *)
Theorem advertised_command_consistent
    (w : World) (uri : string) (startLine : Z) (s : Server) :
  codeActionProvider onInitialize = true
  /\ (exists actions s',
        onCodeAction w uri startLine s = Some (actions, s')
        /\ Forall (fun a => In (command (action_command a))
                              (executeCommandProvider_commands onInitialize))
             actions)
  /\ (forall params,
        ~ In (command params) (executeCommandProvider_commands onInitialize) ->
        onExecuteCommand w params s = Some (tt, s)).
Proof.
  split; [reflexivity|]. split.
  - unfold onCodeAction. destruct (document_open w uri); cbn [negb];
      [|exists [], s; split; [reflexivity | constructor]].
    destruct (uriToFsPath uri) as [filePath|];
      [|exists [], s; split; [reflexivity | constructor]].
    unfold bind.
    destruct (blameSingleLineCached_returns w filePath (startLine + 1) s)
      as (answer & s' & ->).
    destruct answer as [info|]; unfold ret; eexists; eexists;
      (split; [reflexivity|]); repeat constructor.
  - intros params Hout. apply onExecuteCommand_ignored. left.
    intros E. apply Hout. rewrite E. now left.
Qed.
End Advertised.
